(** * go-ipld-cbor: the object wrapper, the path resolver, the JSON bridge
      and the content-addressed store, embedded from node.go and store.go.

    Go values of type [interface{}] are the inductive [Obj]; a function
    returning [(T, error)] with a nil first component on failure returns
    [result T]; the store's functions, which return [cid.Undef] or a slice
    next to the error, return the pair as Go does.  The CBOR engine (refmt),
    the multihash and CID libraries, encoding/json and the backing block
    store are collaborators of the package: they are fields of the class
    [Externals] or of the store interface records, and the theorems hold
    for every implementation of them. *)

From Stdlib Require Import ZArith NArith List String Ascii Bool Lia Permutation.
From Stdlib Require Import DecimalString.
From Stdlib.Strings Require Import Byte.
Import ListNotations.
Local Open Scope string_scope.
Local Open Scope Z_scope.

Set Implicit Arguments.

(* ------------------------------------------------------------------ *)
(** ** Bytes and content identifiers *)

Definition bytes := list byte.

(** A multihash is the byte string produced by [mh.Sum]. *)
Definition Multihash := bytes.

(** [cid.Cid] by its components; [Undef] is the zero value [cid.Cid{}]. *)
Inductive Cid : Type :=
| Undef
| CidV0 (hash : Multihash)
| CidV1 (codec : Z) (hash : Multihash).

(* ------------------------------------------------------------------ *)
(** ** Errors and results *)

(** Go [error] values built by the package. *)
Inductive error : Type :=
| ErrNoSuchLink                               (* var ErrNoSuchLink *)
| ErrNew (msg : string)                       (* errors.New / fmt.Errorf without verbs *)
| ErrIds (format : string) (ids : list Cid)   (* fmt.Errorf, a %s verb for each identifier *)
| ErrWrap (msg : string) (cause : error)      (* fmt.Errorf("...: %s", err) *)
| ErrPanic (msg : string) (recovered : string)(* fmt.Errorf("... - cbor panic: %s", r) *)
| ErrNum (fn input : string) (range : bool)   (* *strconv.NumError *)
| SerializationError (err : error).           (* store.go, SerializationError{err} *)

Inductive result (A : Type) : Type :=
| Ok (a : A)
| Err (e : error).
Arguments Ok {A} a.
Arguments Err {A} e.

(** What a call into the CBOR engine can do: return, fail, or panic. *)
Inductive outcome (A : Type) : Type :=
| Returns (a : A)
| Fails (e : error)
| Panics (r : string).
Arguments Returns {A} a.
Arguments Fails {A} e.
Arguments Panics {A} r.

Definition bind {A B} (r : result A) (k : A -> result B) : result B :=
  match r with
  | Ok a => k a
  | Err e => Err e
  end.

Declare Scope result_scope.
Delimit Scope result_scope with res.
Notation "x <- r ;; k" := (bind r (fun x => k))
  (at level 61, r at next level, right associativity) : result_scope.
Local Open Scope result_scope.

Definition NewSerializationError (err : error) : error := SerializationError err.

(* ------------------------------------------------------------------ *)
(** ** Blocks and the object tree *)

Definition NewCidV1 (codecType : Z) (mhash : Multihash) : Cid := CidV1 codecType mhash.

Definition byte_eq_dec : forall x y : byte, {x = y} + {x <> y}.
Proof.
  intros x y. destruct (Byte.eqb x y) eqn:E.
  - left. now apply Byte.byte_dec_bl.
  - right. now apply Byte.eqb_false.
Defined.

Definition Cid_eq_dec : forall x y : Cid, {x = y} + {x <> y}.
Proof.
  decide equality; try apply Z.eq_dec; apply (list_eq_dec byte_eq_dec).
Defined.

(** Go's [==] and [!=] on [cid.Cid]. *)
Definition cid_eqb (x y : Cid) : bool := if Cid_eq_dec x y then true else false.
Definition cid_neqb (x y : Cid) : bool := negb (cid_eqb x y).

(** Version and codec of an identifier, as [cid.Cid.Version] and
    [cid.Cid.Type] report them for identifiers built by the constructors. *)
Definition DagProtobuf : Z := 0x70.
Definition DagCBOR : Z := 0x71.
Definition SHA2_256 : Z := 0x12.
Definition BLAKE2B_MIN : Z := 0xb201.
Definition MaxUint64 : Z := 2 ^ 64 - 1.

Definition cidVersion (c : Cid) : Z :=
  match c with
  | CidV0 _ => 0
  | _ => 1
  end.

Definition cidType (c : Cid) : Z :=
  match c with
  | CidV1 codec _ => codec
  | _ => DagProtobuf
  end.

Record Prefix : Type := mkPrefix {
  Version : Z;
  Codec : Z;
  MhType : Z;
  MhLength : Z
}.

(** [blocks.Block]: raw bytes and the identifier they are filed under. *)
Record Block : Type := mkBlock {
  blockRawData : bytes;
  blockCid : Cid
}.

(** [node.Link]; the package only ever fills the [Cid] field. *)
Record Link : Type := mkLink { linkCid : Cid }.

(** The dynamically typed object tree.  A Go map is the list of its entries
    in the order one iteration visits them; keys are distinct.  A nil and an
    empty slice are both [OList []]. *)
Unset Elimination Schemes.
Inductive Obj : Type :=
| ONil                                  (* nil *)
| OBool (b : bool)
| OInt (n : Z)                          (* int, uint64 *)
| OFloat (bits : Z)                     (* float64, by its bit pattern *)
| OStr (s : string)
| OBytes (b : bytes)                    (* []byte *)
| OCid (c : Cid)                        (* cid.Cid *)
| OList (l : list Obj)                  (* []interface{} *)
| OMapS (m : list (string * Obj))       (* map[string]interface{} *)
| OMapI (m : list (Obj * Obj)).         (* map[interface{}]interface{} *)
Set Elimination Schemes.

(** Lookup [m[k]] in a map; [None] is the [ok == false] of the comma-ok form. *)
Fixpoint lookupS (k : string) (m : list (string * Obj)) : option Obj :=
  match m with
  | [] => None
  | (k', v) :: r => if String.eqb k' k then Some v else lookupS k r
  end.

(** Lookup of a string in a [map[interface{}]interface{}]: only a string key
    equals it. *)
Fixpoint lookupI (k : string) (m : list (Obj * Obj)) : option Obj :=
  match m with
  | [] => None
  | (OStr k', v) :: r => if String.eqb k' k then Some v else lookupI k r
  | _ :: r => lookupI k r
  end.

(* ------------------------------------------------------------------ *)
(** ** Collaborators *)

(** What the package puts in the atlas it hands to the CBOR engine: the entry
    for [cid.Cid], with its tag and its two transforms. *)
Record Atlas : Type := mkAtlas {
  UseTag : Z;
  TransformMarshal : Cid -> bytes;
  TransformUnmarshal : bytes -> result Cid
}.

(** The libraries the package calls.  [cborUnmarshal] and [cborMarshal] are
    refmt's [cbor.UnmarshalAtlased] and [cbor.MarshalAtlased] (decoding
    into an empty interface); [mhSum] is [mh.Sum]; [cidCast],
    [cidDecode], [cidBytes], [cidPrefix] and [prefixSum] are go-cid's
    [Cast], [Decode], [Cid.Bytes], [Cid.Prefix] and [Prefix.Sum];
    [jsonDecode] is encoding/json decoding into an empty interface, and
    [jsonMarshal] is [json.Marshal]. *)
Class Externals : Type := {
  cborUnmarshal : Atlas -> bytes -> outcome Obj;
  cborMarshal : Atlas -> Obj -> outcome bytes;
  mhSum : bytes -> Z -> Z -> result Multihash;
  cidCast : bytes -> result Cid;
  cidDecode : string -> result Cid;
  cidBytes : Cid -> bytes;
  cidPrefix : Cid -> Prefix;
  prefixSum : Prefix -> bytes -> result Cid;
  jsonDecode : bytes -> result Obj;
  jsonMarshal : Obj -> result bytes
}.

(** [blocks.NewBlockWithCid], whose hash check only runs in the library's
    debug mode. *)
Definition NewBlockWithCid (data : bytes) (c : Cid) : result Block :=
  Ok (mkBlock data c).

(* ------------------------------------------------------------------ *)
(** ** Strings *)

Definition slash : ascii := "/"%char.

(** [strings.HasPrefix]. *)
Definition HasPrefix (s pre : string) : bool := String.prefix pre s.

(** [s[n:]] for [n <= len(s)]. *)
Fixpoint sliceFrom (n : nat) (s : string) : string :=
  match n, s with
  | O, _ => s
  | S n', String _ r => sliceFrom n' r
  | S _, EmptyString => EmptyString
  end.

(** [strings.TrimLeft(s, "/")]. *)
Fixpoint TrimLeftSlash (s : string) : string :=
  match s with
  | String c r => if Ascii.eqb c slash then TrimLeftSlash r else s
  | EmptyString => EmptyString
  end.

(** [strings.Split(s, "/")]. *)
Fixpoint SplitSlash (s : string) : list string :=
  match s with
  | EmptyString => [EmptyString]
  | String c r =>
      if Ascii.eqb c slash then EmptyString :: SplitSlash r
      else match SplitSlash r with
           | h :: t => String c h :: t
           | [] => [String c EmptyString]
           end
  end.

(** The decimal rendering of [%d] for a slice index. *)
Definition itoa (i : nat) : string := NilEmpty.string_of_uint (Nat.to_uint i).

Definition digitVal (c : ascii) : option Z :=
  let n := Z.of_nat (nat_of_ascii c) in
  if (48 <=? n) && (n <=? 57) then Some (n - 48) else None.

(** What the scan of [strconv.ParseUint] ends in. *)
Inductive Scan : Type :=
| ScanValue (n : Z)
| ScanSyntax
| ScanRange.

(** The loop of [strconv.ParseUint] in base 10 for 64 bits, most significant
    digit first: a character that is not a digit is a syntax error, a value
    that leaves [uint64] is a range error, whichever the scan meets
    first. *)
Fixpoint parseDigits (s : string) (acc : Z) : Scan :=
  match s with
  | EmptyString => ScanValue acc
  | String c r =>
      match digitVal c with
      | Some d =>
          if MaxUint64 <? acc * 10 + d then ScanRange
          else parseDigits r (acc * 10 + d)
      | None => ScanSyntax
      end
  end.

(** [strconv.Atoi] on a 64-bit platform: an optional sign, then at least one
    decimal digit; values outside [int] are a range error. *)
Definition Atoi (s : string) : result Z :=
  let body sgn d :=
    match d with
    | EmptyString => Err (ErrNum "Atoi" s false)
    | _ =>
        match parseDigits d 0 with
        | ScanSyntax => Err (ErrNum "Atoi" s false)
        | ScanRange => Err (ErrNum "Atoi" s true)
        | ScanValue n =>
            let v := sgn * n in
            if (- 2 ^ 63 <=? v) && (v <=? 2 ^ 63 - 1) then Ok v
            else Err (ErrNum "Atoi" s true)
        end
    end in
  match s with
  | EmptyString => Err (ErrNum "Atoi" s false)
  | String c r =>
      if Ascii.eqb c "-"%char then body (-1) r
      else if Ascii.eqb c "+"%char then body 1 r
      else body 1 s
  end.

(* ------------------------------------------------------------------ *)
(** ** node.go *)

(** [CBORTagLink], the CBOR tag of a link. *)
Definition CBORTagLink : Z := 42.

(** [type Node struct]. *)
Record Node : Type := mkNode {
  obj : Obj;
  tree : list string;
  links : list Link;
  raw : bytes;
  cid : Cid
}.

(** What [Resolve] hands back in its first result: a [*node.Link] or a
    JSON-ish value. *)
Inductive Resolved : Type :=
| RLink (l : Link)
| RVal (v : Obj).

(** [traverse]: the callback first, then the children, stopping at the first
    error.  The callback's captured variables are the threaded state. *)
Fixpoint traverse {St : Type} (cb : string -> Obj -> St -> result St)
         (o : Obj) (cur : string) (st : St) {struct o} : result St :=
  match cb cur o st with
  | Err e => Err e
  | Ok st1 =>
      match o with
      | OMapS m =>
          (fix entries (m : list (string * Obj)) (st : St) {struct m} : result St :=
             match m with
             | [] => Ok st
             | (k, v) :: r =>
                 match traverse cb v (cur ++ "/" ++ k) st with
                 | Err e => Err e
                 | Ok st' => entries r st'
                 end
             end) m st1
      | OMapI m =>
          (fix entries (m : list (Obj * Obj)) (st : St) {struct m} : result St :=
             match m with
             | [] => Ok st
             | (k, v) :: r =>
                 match k with
                 | OStr ks =>
                     match traverse cb v (cur ++ "/" ++ ks) st with
                     | Err e => Err e
                     | Ok st' => entries r st'
                     end
                 | _ => Err (ErrNew "map key was not a string")
                 end
             end) m st1
      | OList l =>
          (fix elems (l : list Obj) (i : nat) (st : St) {struct l} : result St :=
             match l with
             | [] => Ok st
             | v :: r =>
                 match traverse cb v (cur ++ "/" ++ itoa i) st with
                 | Err e => Err e
                 | Ok st' => elems r (S i) st'
                 end
             end) l O st1
      | _ => Ok st1
      end
  end.

Definition compTree (o : Obj) : result (list string) :=
  traverse (fun name _ out =>
              Ok (if negb (String.eqb name "") then (out ++ [sliceFrom 1 name])%list else out))
           o "" [].

Definition compLinks (o : Obj) : result (list Link) :=
  traverse (fun _ val out =>
              Ok (match val with
                  | OCid lnk => (out ++ [mkLink lnk])%list
                  | _ => out
                  end))
           o "" [].

(** [RawData] and [Cid] of a node. *)
Definition RawData (n : Node) : bytes := raw n.
Definition NodeCid (n : Node) : Cid := cid n.

(** [Tree]. *)
Definition Tree (n : Node) (path : string) (depth : Z) : list string :=
  if String.eqb path "" && (depth =? -1) then tree n
  else
    fold_left
      (fun out t =>
         if negb (HasPrefix t path) then out
         else
           let sub := TrimLeftSlash (sliceFrom (String.length path) t) in
           if String.eqb sub "" then out
           else if depth <? 0 then (out ++ [sub])%list
           else
             let parts := SplitSlash sub in
             if Z.of_nat (List.length parts) <=? depth then (out ++ [sub])%list else out)
      (tree n) [].

(** [castBytesToCid] and [castCidToBytes], the two transforms of the tag-42
    atlas entry. *)
Definition castCidToBytes {E : Externals} (link : Cid) : bytes :=
  ([x00] ++ cidBytes link)%list.

Definition castBytesToCid {E : Externals} (x : bytes) : result Cid :=
  match x with
  | [] => Err (ErrNew "link value was empty")
  | x0 :: rest =>
      if negb (Byte.eqb x0 x00) then Err (ErrNew "invalid multibase on IPLD link")
      else
        match cidCast rest with
        | Err err => Err (ErrWrap "invalid IPLD link: " err)
        | Ok c => Ok c
        end
  end.

(** [cborAtlas]: links travel under tag 42, through the two transforms. *)
Definition cborAtlas {E : Externals} : Atlas :=
  mkAtlas CBORTagLink castCidToBytes castBytesToCid.

Section NodeGo.
Context {E : Externals}.

(** [decodeCBOR]; the deferred [recover] turns a panic into an error. *)
Definition decodeCBOR (b : bytes) : result Obj :=
  match cborUnmarshal cborAtlas b with
  | Panics r => Err (ErrPanic "failed to unmarshal - cbor panic: " r)
  | Fails err => Err (ErrWrap "failed to unmarshal: " err)
  | Returns m => Ok m
  end.

(** [DumpObject]. *)
Definition DumpObject (o : Obj) : result bytes :=
  match cborMarshal cborAtlas o with
  | Panics r => Err (ErrPanic "failed to marshal - cbor panic: " r)
  | Fails err => Err (ErrWrap "failed to marshal: " err)
  | Returns out => Ok out
  end.

Definition decodeBlock (block : Block) : result Node :=
  m <- decodeCBOR (blockRawData block) ;;
  tree <- compTree m ;;
  links <- compLinks m ;;
  Ok (mkNode m tree links (blockRawData block) (blockCid block)).

Definition DecodeBlock (block : Block) : result Node := decodeBlock block.

Definition WrapObject (m : Obj) (mhType : Z) (mhLen : Z) : result Node :=
  data <- DumpObject m ;;
  let mhType := if mhType =? MaxUint64 then SHA2_256 else mhType in
  hash <- mhSum data mhType mhLen ;;
  let c := NewCidV1 DagCBOR hash in
  block <- NewBlockWithCid data c ;;
  decodeBlock block.

Definition Decode (b : bytes) (mhType : Z) (mhLen : Z) : result Node :=
  m <- decodeCBOR b ;;
  WrapObject m mhType mhLen.

(** [convertToJSONIsh], with [toSaneMap] as its map case. *)
Fixpoint convertToJSONIsh (v : Obj) : result Obj :=
  match v with
  | OMapI n =>
      (* toSaneMap *)
      match lookupI "/" n, (List.length n =? 1)%nat with
      | Some lnk, true =>
          match lnk with
          | OBytes lnkb =>
              match cidCast lnkb with
              | Err err => Err err
              | Ok c => Ok (OMapS [("/", OCid c)])
              end
          | _ => Err (ErrNew "link value should have been bytes")
          end
      | _, _ =>
          match
            (fix entries (n : list (Obj * Obj)) : result (list (string * Obj)) :=
               match n with
               | [] => Ok []
               | (k, v) :: r =>
                   match k with
                   | OStr ks =>
                       match convertToJSONIsh v with
                       | Err err => Err err
                       | Ok o =>
                           match entries r with
                           | Err err => Err err
                           | Ok out => Ok ((ks, o) :: out)
                           end
                       end
                   | _ => Err (ErrNew "map keys must be strings")
                   end
               end) n
          with
          | Err err => Err err
          | Ok out => Ok (OMapS out)
          end
      end
  | OList l =>
      match
        (fix elems (l : list Obj) : result (list Obj) :=
           match l with
           | [] => Ok []
           | i :: r =>
               match convertToJSONIsh i with
               | Err err => Err err
               | Ok o =>
                   match elems r with
                   | Err err => Err err
                   | Ok out => Ok (o :: out)
                   end
               end
           end) l
      with
      | Err err => Err err
      | Ok out => Ok (OList out)
      end
  | _ => Ok v
  end.

Definition toSaneMap (n : list (Obj * Obj)) : result Obj :=
  convertToJSONIsh (OMapI n).

(** The loop of [Resolve]: [cur] after the segments already consumed,
    [path] the segments from the current index on. *)
Fixpoint resolveFrom (cur : Obj) (path : list string) {struct path}
  : result (Resolved * list string) :=
  match path with
  | val :: rest =>
      match cur with
      | OMapS curv =>
          match lookupS val curv with
          | None => Err ErrNoSuchLink
          | Some next => resolveFrom next rest
          end
      | OMapI curv =>
          match lookupI val curv with
          | None => Err ErrNoSuchLink
          | Some next => resolveFrom next rest
          end
      | OList curv =>
          match Atoi val with
          | Err err => Err err
          | Ok n =>
              if (n <? 0) || (n >=? Z.of_nat (List.length curv))
              then Err (ErrNew "array index out of range")
              else resolveFrom (nth (Z.to_nat n) curv ONil) rest
          end
      | OCid curv => Ok (RLink (mkLink curv), path)
      | _ => Err (ErrNew "tried to resolve through object that had no links")
      end
  | [] =>
      match cur with
      | OCid lnk => Ok (RLink (mkLink lnk), [])
      | _ =>
          jsonish <- convertToJSONIsh cur ;;
          Ok (RVal jsonish, [])
      end
  end.

Definition Resolve (n : Node) (path : list string) : result (Resolved * list string) :=
  resolveFrom (obj n) path.

(** [convertToCborIshObj], on what encoding/json decodes into an empty
    interface. *)
Fixpoint convertToCborIshObj (i : Obj) : result Obj :=
  match i with
  | OMapS v =>
      if (List.length v =? 0)%nat then Ok (OMapS v)
      else
        match lookupS "/" v, (List.length v =? 1)%nat with
        | Some lnk, true =>
            match lnk with
            | OStr vstr =>
                match cidDecode vstr with
                | Err err => Err err
                | Ok c => Ok (OCid c)
                end
            | _ => Err (ErrNew "link should have been a string")
            end
        | _, _ => Ok (OMapS v)
        end
  | OList v =>
      if (List.length v =? 0)%nat then Ok (OList v)
      else
        match
          (fix elems (l : list Obj) : result (list Obj) :=
             match l with
             | [] => Ok []
             | o :: r =>
                 match convertToCborIshObj o with
                 | Err err => Err err
                 | Ok o' =>
                     match elems r with
                     | Err err => Err err
                     | Ok out => Ok (o' :: out)
                     end
                 end
             end) v
        with
        | Err err => Err err
        | Ok out => Ok (OList out)
        end
  | _ => Ok i
  end.

Definition FromJSON (r : bytes) (mhType : Z) (mhLen : Z) : result Node :=
  m <- jsonDecode r ;;
  o <- convertToCborIshObj m ;;
  WrapObject o mhType mhLen.

(** [DecodeInto]: through JSON into the destination. *)
Definition DecodeInto (b : bytes) : result Obj :=
  m <- decodeCBOR b ;;
  jsonable <- convertToJSONIsh m ;;
  jsonb <- jsonMarshal jsonable ;;
  jsonDecode jsonb.

End NodeGo.

(* ------------------------------------------------------------------ *)
(** ** store.go *)

(** [const DefaultMultihash = uint64(mh.BLAKE2B_MIN + 31)]. *)
Definition DefaultMultihash : Z := BLAKE2B_MIN + 31.

(** A Go value handed to [Put]: what its dynamic type offers.
    [asCidProvider] is [Some c] when the value has a [Cid()] method returning
    [c]; [asCBORMarshaler] is [Some r] when it has [MarshalCBOR], [r] being
    the bytes it writes or its error; [asObj] is the value as the CBOR engine
    sees it. *)
Record Value : Type := mkValue {
  asCidProvider : option Cid;
  asCBORMarshaler : option (result bytes);
  asObj : Obj
}.

(** A destination handed to [Get] and [GetMany]: [asCBORUnmarshaler] is its
    [UnmarshalCBOR] method when it has one, [held] the value it holds. *)
Record Dest : Type := mkDest {
  asCBORUnmarshaler : option (bytes -> result Obj);
  held : Obj
}.

(** [IpldBlockstore] over a backing state [B]. *)
Record IpldBlockstore (B : Type) : Type := mkIpldBlockstore {
  blocksGet : Cid -> B -> result Block * B;
  blocksPut : Block -> B -> option error * B
}.

(** [IpldBatchOpBlockStore]. *)
Record IpldBatchOpBlockStore (B : Type) : Type := mkIpldBatchOpBlockStore {
  batchBase : IpldBlockstore B;
  batchPutMany : list Block -> B -> option error * B;
  batchGetMany : list Cid -> B -> result (list Block * list Cid) * B
}.

(** [BasicIpldStore]; [storeAtlas] is the [Atlas] field, by the decoder the
    engine is at that atlas, when one is set. *)
Record BasicIpldStore (B : Type) : Type := mkBasicIpldStore {
  Blocks : IpldBlockstore B;
  storeAtlas : option (bytes -> result Obj);
  storeDefaultMultihash : Z
}.

(** [BatchOpIpldStore]. *)
Record BatchOpIpldStore (B : Type) : Type := mkBatchOpIpldStore {
  basic : BasicIpldStore B;
  BatchOps : IpldBatchOpBlockStore B
}.

Record Cursor : Type := mkCursor {
  CID : Cid;
  Index : Z;
  CursorErr : option error
}.

(** A node used as a [blocks.Block]. *)
Definition nodeBlock (n : Node) : Block := mkBlock (RawData n) (NodeCid n).

(** The run of the goroutine of [GetMany]: the cursors sent on the channel, in
    order, and the destinations as it leaves them; [Closed] when it reaches
    [close(cursors)], [Crashed] when [outs[i]] is out of range. *)
Inductive WorkerRun : Type :=
| Closed (sent : list Cursor) (outs : list Dest)
| Crashed (sent : list Cursor) (outs : list Dest).

Definition mismatchError : error :=
  ErrNew "your object is not being serialized the way it expects to".

(** The mismatch error of [PutMany]: the same sentence, a carriage return
    and a line feed, then both identifiers. *)
Definition mismatchErrorMany (expCid actual : Cid) : error :=
  ErrIds ("your object is not being serialized the way it expects to"
            ++ String "013"%char
                 (String "010"%char "expected cid: %s actual cid: %s"))
         [expCid; actual].

(** [outs[i] = d]. *)
Fixpoint setNth (i : nat) (d : Dest) (outs : list Dest) : list Dest :=
  match i, outs with
  | O, _ :: r => d :: r
  | S i', o :: r => o :: setNth i' d r
  | _, [] => []
  end.

Section StoreGo.
Context {E : Externals}.
Variable B : Type.

(** [BasicIpldStore.decode]: the destination after the call, and the
    error. *)
Definition decode (s : BasicIpldStore B) (b : bytes) (out : Dest) : Dest * option error :=
  match asCBORUnmarshaler out with
  | Some unmarshalCBOR =>
      match unmarshalCBOR b with
      | Err err => (out, Some (NewSerializationError err))
      | Ok v => (mkDest (asCBORUnmarshaler out) v, None)
      end
  | None =>
      match storeAtlas s with
      | None =>
          match DecodeInto b with
          | Err err => (out, Some err)
          | Ok v => (mkDest (asCBORUnmarshaler out) v, None)
          end
      | Some unmarshalAtlased =>
          match unmarshalAtlased b with
          | Err err => (out, Some err)
          | Ok v => (mkDest (asCBORUnmarshaler out) v, None)
          end
      end
  end.

(** [BasicIpldStore.Put].  The [expCid] assigned inside the
    [cidProvider] branch is declared there with [:=]; the [expCid] the two
    checks read is the one declared before the branch. *)
Definition Put (s : BasicIpldStore B) (v : Value) (st : B) : (Cid * option error) * B :=
  let mhType := DefaultMultihash in
  let mhType := if negb (storeDefaultMultihash s =? 0) then storeDefaultMultihash s
                else mhType in
  let mhLen := -1 in
  let codec := DagCBOR in
  let expCid := Undef in
  let '(mhType, mhLen, codec) :=
    match asCidProvider v with
    | Some c =>
        let expCid := c in
        let pref := cidPrefix expCid in
        (MhType pref, MhLength pref, Codec pref)
    | None => (mhType, mhLen, codec)
    end in
  match asCBORMarshaler v with
  | Some marshalled =>
      match marshalled with
      | Err err => ((Undef, Some (NewSerializationError err)), st)
      | Ok buf =>
          let pref := mkPrefix 1 codec mhType mhLen in
          match prefixSum pref buf with
          | Err err => ((Undef, Some err), st)
          | Ok c =>
              match NewBlockWithCid buf c with
              | Err err => ((Undef, Some err), st)
              | Ok blk =>
                  match blocksPut (Blocks s) blk st with
                  | (Some err, st') => ((Undef, Some err), st')
                  | (None, st') =>
                      let blkCid := blockCid blk in
                      if cid_neqb expCid Undef && cid_neqb blkCid expCid
                      then ((Undef, Some mismatchError), st')
                      else ((blkCid, None), st')
                  end
              end
          end
      end
  | None =>
      match WrapObject (asObj v) mhType mhLen with
      | Err err => ((Undef, Some err), st)
      | Ok nd =>
          match blocksPut (Blocks s) (nodeBlock nd) st with
          | (Some err, st') => ((Undef, Some err), st')
          | (None, st') =>
              let ndCid := NodeCid nd in
              if cid_neqb expCid Undef && cid_neqb ndCid expCid
              then ((Undef, Some mismatchError), st')
              else ((ndCid, None), st')
          end
      end
  end.

(** The goroutine of [GetMany]: [for i, blk := range blks]. *)
Fixpoint getManyWorker (s : BasicIpldStore B) (blks : list Block) (i : nat)
         (outs : list Dest) (sent : list Cursor) {struct blks} : WorkerRun :=
  match blks with
  | [] => Closed sent outs
  | blk :: r =>
      match nth_error outs i with
      | None => Crashed sent outs
      | Some out =>
          let '(out', err) := decode s (blockRawData blk) out in
          getManyWorker s r (S i) (setNth i out' outs)
                        (sent ++ [mkCursor (blockCid blk) (Z.of_nat i) err])%list
      end
  end.

(** [BatchOpIpldStore.GetMany]: the cursors a receiver draining the
    channel gets, the destinations after the goroutine ran, and the
    missing identifiers. *)
Definition GetMany (b : BatchOpIpldStore B) (cs : list Cid) (outs : list Dest) (st : B)
  : result (WorkerRun * list Cid) * B :=
  if negb (List.length cs =? List.length outs)%nat
  then (Err (ErrNew "expected list of cids to be the same length as the destination decode list"), st)
  else
    match batchGetMany (BatchOps b) cs st with
    | (Err err, st') => (Err err, st')
    | (Ok (blks, missingCIDs), st') =>
        (Ok (getManyWorker (basic b) blks O outs [], missingCIDs), st')
    end.

(** The variables the loop of [PutMany] carries from one value to the
    next. *)
Record PutManyVars : Type := mkPutManyVars {
  pmMhType : Z;
  pmMhLen : Z;
  pmCodec : Z
}.

(** One iteration of the loop of [PutMany]: the identifier and the block of
    [v], and the variables as it leaves them. *)
Definition putManyStep (vars : PutManyVars) (v : Value)
  : result (Cid * Block * PutManyVars) :=
  let expCid := Undef in
  let '(expCid, vars) :=
    match asCidProvider v with
    | Some c =>
        let expCid := c in
        let pref := cidPrefix expCid in
        (expCid, mkPutManyVars (MhType pref) (MhLength pref) (Codec pref))
    | None => (expCid, vars)
    end in
  match asCBORMarshaler v with
  | Some marshalled =>
      match marshalled with
      | Err err => Err err
      | Ok buf =>
          let pref := mkPrefix 1 (pmCodec vars) (pmMhType vars) (pmMhLen vars) in
          c <- prefixSum pref buf ;;
          blk <- NewBlockWithCid buf c ;;
          let blkCid := blockCid blk in
          if cid_neqb expCid Undef && cid_neqb blkCid expCid
          then Err (mismatchErrorMany expCid blkCid)
          else Ok (blkCid, blk, vars)
      end
  | None =>
      nd <- WrapObject (asObj v) (pmMhType vars) (pmMhLen vars) ;;
      let ndCid := NodeCid nd in
      if cid_neqb expCid Undef && cid_neqb ndCid expCid
      then Err (mismatchErrorMany expCid ndCid)
      else Ok (ndCid, nodeBlock nd, vars)
  end.

(** The loop of [PutMany]: [cids] and [blocks], filled in order. *)
Fixpoint putManyLoop (vars : PutManyVars) (vs : list Value)
  : result (list Cid * list Block) :=
  match vs with
  | [] => Ok ([], [])
  | v :: r =>
      match putManyStep vars v with
      | Err err => Err err
      | Ok (c, blk, vars') =>
          match putManyLoop vars' r with
          | Err err => Err err
          | Ok (cids, blocks) => Ok (c :: cids, blk :: blocks)
          end
      end
  end.

(** [BatchOpIpldStore.PutMany]. *)
Definition PutMany (b : BatchOpIpldStore B) (vs : list Value) (st : B)
  : (list Cid * option error) * B :=
  let mhType := DefaultMultihash in
  let mhType := if negb (storeDefaultMultihash (basic b) =? 0)
                then storeDefaultMultihash (basic b) else mhType in
  let mhLen := -1 in
  let codec := DagCBOR in
  match putManyLoop (mkPutManyVars mhType mhLen codec) vs with
  | Err err => (([], Some err), st)
  | Ok (cids, blocks) =>
      let '(err, st') := batchPutMany (BatchOps b) blocks st in
      ((cids, err), st')
  end.

End StoreGo.

(* ------------------------------------------------------------------ *)
(** ** node.go, the other methods of a node *)

Section NodeMethods.
Context {E : Externals}.

(** [ResolveLink]: the link, the rest of the path, the error. *)
Definition ResolveLink (n : Node) (path : list string)
  : option Link * list string * option error :=
  match Resolve n path with
  | Err err => (None, [], Some err)
  | Ok (o, rest) =>
      match o with
      | RLink lnk => (Some lnk, rest, None)
      | RVal _ => (None, rest, Some (ErrNew "found non-link at given path"))
      end
  end.

End NodeMethods.

(* ------------------------------------------------------------------ *)
(** ** Specification-side definitions *)

(** No [map[interface{}]interface{}] inside [o] has a key that is not a
    string. *)
Fixpoint stringKeyed (o : Obj) : bool :=
  match o with
  | OList l => forallb stringKeyed l
  | OMapS m => forallb (fun kv => stringKeyed (snd kv)) m
  | OMapI m =>
      forallb (fun kv => match fst kv with
                         | OStr _ => stringKeyed (snd kv)
                         | _ => false
                         end) m
  | _ => true
  end.

(** One step of a walk, in the words of the path resolver: a literal key at
    a mapping, a non-negative decimal index within bounds at a sequence. *)
Definition child (o : Obj) (seg : string) : option Obj :=
  match o with
  | OMapS m => lookupS seg m
  | OMapI m => lookupI seg m
  | OList l =>
      match Atoi seg with
      | Ok n => if (0 <=? n) && (n <? Z.of_nat (List.length l))
                then nth_error l (Z.to_nat n) else None
      | Err _ => None
      end
  | _ => None
  end.

(** The value reached from [o] after consuming the segments [p]. *)
Fixpoint walk (o : Obj) (p : list string) : option Obj :=
  match p with
  | [] => Some o
  | seg :: rest =>
      match child o seg with
      | Some o' => walk o' rest
      | None => None
      end
  end.

(** The codec contract behind canonical bytes: re-encoding what the engine
    decodes from its own output gives that output again. *)
Definition canonicalCodec (E : Externals) : Prop :=
  forall m d m', DumpObject m = Ok d -> decodeCBOR d = Ok m' -> DumpObject m' = Ok d.

(** The cursors a run sent. *)
Definition sentOf (run : WorkerRun) : list Cursor :=
  match run with
  | Closed sent _ => sent
  | Crashed sent _ => sent
  end.

(** A cursor carries the index its identifier has in the request [cs]. *)
Definition atOriginalIndex (cs : list Cid) (cur : Cursor) : Prop :=
  nth_error cs (Z.to_nat (Index cur)) = Some (CID cur).

(** Every cursor of the call [GetMany(cs, outs)] carries the index of its
    block in [cs]. *)
Definition cursorsAtOriginalIndex {E : Externals} {B : Type}
           (b : BatchOpIpldStore B) (cs : list Cid) (outs : list Dest) (st : B) : Prop :=
  forall run missing st',
    GetMany b cs outs st = (Ok (run, missing), st') ->
    Forall (atOriginalIndex cs) (sentOf run).




(** A recorded path [t] lies under the path [p] when it continues [p] with a
    slash; every path lies under the empty path.  The result is [t] with the
    prefix stripped. *)
Definition stripUnder (p t : string) : option string :=
  if String.eqb p "" then Some t
  else if HasPrefix t (p ++ "/") then Some (sliceFrom (S (String.length p)) t)
       else None.

(** The number of slash-separated segments of a path. *)
Definition segments (sub : string) : Z := Z.of_nat (List.length (SplitSlash sub)).

(** [Tree] as it is described: the recorded paths under [p], stripped; all
    of them for a negative depth, those of at most [d] segments
    otherwise. *)
Definition TreeSpec (n : Node) (p : string) (d : Z) : list string :=
  flat_map
    (fun t =>
       match stripUnder p t with
       | Some sub => if (d <? 0) || (segments sub <=? d) then [sub] else []
       | None => []
       end)
    (tree n).

(** What one recorded path contributes to [Tree n path depth]. *)
Definition treeEntry (path : string) (depth : Z) (t : string) : list string :=
  if negb (HasPrefix t path) then []
  else
    let sub := TrimLeftSlash (sliceFrom (String.length path) t) in
    if String.eqb sub "" then []
    else if depth <? 0 then [sub]
    else if segments sub <=? depth then [sub] else [].

(** A path none of whose segments is empty. *)
Definition noEmptySegment (t : string) : Prop := ~ In "" (SplitSlash t).

(** Every recorded path that starts with the characters of [p] is [p] or
    continues it with a slash. *)
Definition alignedPrefix (p : string) (paths : list string) : Prop :=
  forall t, In t paths -> HasPrefix t p = true ->
            t = p \/ HasPrefix t (p ++ "/") = true.

(** The two kinds of map. *)
Definition isMap (v : Obj) : Prop :=
  match v with
  | OMapS _ | OMapI _ => True
  | _ => False
  end.

(** A value that is neither a map, nor a slice, nor a link. *)
Definition isScalar (v : Obj) : Prop :=
  match v with
  | ONil | OBool _ | OInt _ | OFloat _ | OStr _ | OBytes _ => True
  | _ => False
  end.

(** A value that is not a link. *)
Definition notLink (v : Obj) : Prop :=
  match v with
  | OCid _ => False
  | _ => True
  end.

(** A value with no [map[interface{}]interface{}] at its top or inside its
    slices, at any nesting of slices. *)
Fixpoint jsonish (v : Obj) : bool :=
  match v with
  | OMapI _ => false
  | OList l => forallb jsonish l
  | _ => true
  end.

(** An entry of a [map[interface{}]interface{}] whose key is not a
    string. *)
Definition nonStringKey (kv : Obj * Obj) : Prop :=
  match fst kv with
  | OStr _ => False
  | _ => True
  end.

(** The loop of [convertToCborIshObj] over the elements of a slice. *)
Definition cborIshElems {E : Externals} : list Obj -> result (list Obj) :=
  fix elems (l : list Obj) : result (list Obj) :=
    match l with
    | [] => Ok []
    | o :: r =>
        match convertToCborIshObj o with
        | Err err => Err err
        | Ok o' =>
            match elems r with
            | Err err => Err err
            | Ok out => Ok (o' :: out)
            end
        end
    end.

(** The hash parameters the loop of [PutMany] has after the values [vs]:
    those of the last value with a [Cid] method, the ones it started with
    when there is none. *)
Definition carried {E : Externals} (vars : PutManyVars) (vs : list Value) : PutManyVars :=
  fold_left (fun vars v =>
               match asCidProvider v with
               | Some c =>
                   let pref := cidPrefix c in
                   mkPutManyVars (MhType pref) (MhLength pref) (Codec pref)
               | None => vars
               end) vs vars.

(** The three loops of [traverse], by name. *)
Definition traverseEntries {St : Type} (cb : string -> Obj -> St -> result St)
           (cur : string) : list (string * Obj) -> St -> result St :=
  fix entries (m : list (string * Obj)) (st : St) {struct m} : result St :=
    match m with
    | [] => Ok st
    | (k, v) :: r =>
        match traverse cb v (cur ++ "/" ++ k) st with
        | Err e => Err e
        | Ok st' => entries r st'
        end
    end.

Definition traverseKeyed {St : Type} (cb : string -> Obj -> St -> result St)
           (cur : string) : list (Obj * Obj) -> St -> result St :=
  fix entries (m : list (Obj * Obj)) (st : St) {struct m} : result St :=
    match m with
    | [] => Ok st
    | (k, v) :: r =>
        match k with
        | OStr ks =>
            match traverse cb v (cur ++ "/" ++ ks) st with
            | Err e => Err e
            | Ok st' => entries r st'
            end
        | _ => Err (ErrNew "map key was not a string")
        end
    end.

Definition traverseElems {St : Type} (cb : string -> Obj -> St -> result St)
           (cur : string) : list Obj -> nat -> St -> result St :=
  fix elems (l : list Obj) (i : nat) (st : St) {struct l} : result St :=
    match l with
    | [] => Ok st
    | v :: r =>
        match traverse cb v (cur ++ "/" ++ itoa i) st with
        | Err e => Err e
        | Ok st' => elems r (S i) st'
        end
    end.

(** The callbacks of [compTree] and [compLinks]. *)
Definition treeCb (name : string) (_ : Obj) (out : list string) : result (list string) :=
  Ok (if negb (String.eqb name "") then (out ++ [sliceFrom 1 name])%list else out).

Definition linkCb (_ : string) (val : Obj) (out : list Link) : result (list Link) :=
  Ok (match val with
      | OCid lnk => (out ++ [mkLink lnk])%list
      | _ => out
      end).

(** The links inside an object, each map in the order of its entries. *)
Fixpoint linksOf (o : Obj) : list Link :=
  match o with
  | OCid c => [mkLink c]
  | OList l => flat_map linksOf l
  | OMapS m => flat_map (fun kv => linksOf (snd kv)) m
  | OMapI m => flat_map (fun kv => linksOf (snd kv)) m
  | _ => []
  end.

(** [flat_map] with the index of the element. *)
Definition flat_mapi {A B : Type} (f : nat -> A -> list B) : nat -> list A -> list B :=
  fix go (i : nat) (l : list A) {struct l} : list B :=
    match l with
    | [] => []
    | x :: r => (f i x ++ go (S i) r)%list
    end.

(** A child named [k] and the paths below it. *)
Definition under (k : string) (ps : list string) : list string :=
  k :: map (fun p => k ++ "/" ++ p) ps.

(** The paths inside an object: every key and every index, followed by the
    paths of its value, each map in the order of its entries. *)
Fixpoint pathsOf (o : Obj) : list string :=
  match o with
  | OMapS m => flat_map (fun kv => under (fst kv) (pathsOf (snd kv))) m
  | OMapI m =>
      flat_map (fun kv => match fst kv with
                          | OStr ks => under ks (pathsOf (snd kv))
                          | _ => []
                          end) m
  | OList l => flat_mapi (fun i v => under (itoa i) (pathsOf v)) 0 l
  | _ => []
  end.

(** Where a traversal stands: at the root, or at the path [c]. *)
Definition curOf (w : option string) : string :=
  match w with
  | None => ""
  | Some c => "/" ++ c
  end.

Definition childOf (w : option string) (k : string) : string :=
  match w with
  | None => k
  | Some c => c ++ "/" ++ k
  end.

Definition here (w : option string) : list string :=
  match w with
  | None => []
  | Some c => [c]
  end.

(** Structural induction on the object tree, through lists and entries. *)
Section ObjInduction.
Variable P : Obj -> Prop.
Hypothesis HNil : P ONil.
Hypothesis HBool : forall b, P (OBool b).
Hypothesis HInt : forall n, P (OInt n).
Hypothesis HFloat : forall f, P (OFloat f).
Hypothesis HStr : forall s, P (OStr s).
Hypothesis HBytes : forall b, P (OBytes b).
Hypothesis HCid : forall c, P (OCid c).
Hypothesis HList : forall l, Forall P l -> P (OList l).
Hypothesis HMapS : forall m, Forall (fun kv => P (snd kv)) m -> P (OMapS m).
Hypothesis HMapI : forall m, Forall (fun kv => P (fst kv) /\ P (snd kv)) m -> P (OMapI m).

Fixpoint Obj_ind (o : Obj) : P o :=
  match o with
  | ONil => HNil
  | OBool b => HBool b
  | OInt n => HInt n
  | OFloat f => HFloat f
  | OStr s => HStr s
  | OBytes b => HBytes b
  | OCid c => HCid c
  | OList l =>
      HList ((fix all (l : list Obj) : Forall P l :=
                match l with
                | [] => Forall_nil P
                | x :: r => Forall_cons x (Obj_ind x) (all r)
                end) l)
  | OMapS m =>
      HMapS ((fix all (m : list (string * Obj)) : Forall (fun kv => P (snd kv)) m :=
                match m with
                | [] => Forall_nil _
                | (k, v) :: r => Forall_cons (k, v) (Obj_ind v) (all r)
                end) m)
  | OMapI m =>
      HMapI ((fix all (m : list (Obj * Obj))
                : Forall (fun kv => P (fst kv) /\ P (snd kv)) m :=
                match m with
                | [] => Forall_nil _
                | (k, v) :: r => Forall_cons (k, v) (conj (Obj_ind k) (Obj_ind v)) (all r)
                end) m)
  end.
End ObjInduction.

(* ------------------------------------------------------------------ *)
(** ** [mockBlocks], the in-memory block store of store.go *)

(** [type mockBlocks struct { data map[cid.Cid]block.Block }]. *)
Definition mockBlocks := list (Cid * Block).

Definition newMockBlocks : mockBlocks := [].

Fixpoint mockLookup (c : Cid) (data : mockBlocks) : option Block :=
  match data with
  | [] => None
  | (c', d) :: r => if cid_eqb c' c then Some d else mockLookup c r
  end.

(** [mb.data[c] = b]. *)
Fixpoint mockStore (c : Cid) (b : Block) (data : mockBlocks) : mockBlocks :=
  match data with
  | [] => [(c, b)]
  | (c', d) :: r => if cid_eqb c' c then (c, b) :: r else (c', d) :: mockStore c b r
  end.

Definition mockGet (c : Cid) (mb : mockBlocks) : result Block * mockBlocks :=
  match mockLookup c mb with
  | Some d => (Ok d, mb)
  | None => (Err (ErrIds "not found %s" [c]), mb)
  end.

Definition mockPut (b : Block) (mb : mockBlocks) : option error * mockBlocks :=
  (None, mockStore (blockCid b) b mb).

Definition mockIpldBlockstore : IpldBlockstore mockBlocks :=
  mkIpldBlockstore mockGet mockPut.

(* ------------------------------------------------------------------ *)
(** ** store.go, reading *)

(** [IpldBlockstoreViewer]: [View] is handed the callback, whose captured
    variables are the threaded state. *)
Record IpldBlockstoreViewer (B : Type) : Type := mkIpldBlockstoreViewer {
  View : forall St : Type,
      Cid -> (bytes -> St -> St * option error) -> St -> B -> (St * option error) * B
}.

(** A [BasicIpldStore] with its [Viewer] field, [None] being [nil]. *)
Record ViewingIpldStore (B : Type) : Type := mkViewingIpldStore {
  ipldStore : BasicIpldStore B;
  Viewer : option (IpldBlockstoreViewer B)
}.

Section StoreReading.
Context {E : Externals}.
Variable B : Type.

(** [NewCborStore]; [viewer] is the outcome of the type assertion
    [bs.(IpldBlockstoreViewer)]. *)
Definition NewCborStore (bs : IpldBlockstore B) (viewer : option (IpldBlockstoreViewer B))
  : ViewingIpldStore B :=
  mkViewingIpldStore (mkBasicIpldStore bs None 0) viewer.

(** [BasicIpldStore.Get]: the destination after the call, and the error. *)
Definition Get (s : ViewingIpldStore B) (c : Cid) (out : Dest) (st : B)
  : (Dest * option error) * B :=
  match Viewer s with
  | Some viewer => View viewer c (fun b out => decode (ipldStore s) b out) out st
  | None =>
      match blocksGet (Blocks (ipldStore s)) c st with
      | (Err err, st') => ((out, Some err), st')
      | (Ok blk, st') => (decode (ipldStore s) (blockRawData blk) out, st')
      end
  end.

End StoreReading.

(** [NewMemCborStore]; a [mockBlocks] has no [View] method. *)
Definition NewMemCborStore : ViewingIpldStore mockBlocks :=
  NewCborStore mockIpldBlockstore None.

(* ------------------------------------------------------------------ *)
(** ** util.go *)

(** cbor-gen: [WriteMajorTypeHeader] by the bytes it writes, [CborReadHeader]
    by the major type and the argument it reads and the reader it leaves. *)
Class CborGen : Type := {
  WriteMajorTypeHeader : Z -> Z -> bytes;
  CborReadHeader : bytes -> result (Z * Z) * bytes
}.

Definition MajByteString : Z := 2.

(** [io.EOF] and [io.ErrUnexpectedEOF]. *)
Definition EOF : error := ErrNew "EOF".
Definition ErrUnexpectedEOF : error := ErrNew "unexpected EOF".

(** [type CborByteArray []byte]: the elements and the capacity of the
    slice. *)
Record CborByteArray : Type := mkCborByteArray {
  arrBytes : bytes;
  arrCap : nat
}.

(** [make([]byte, n)], taken to return: the panic of the real call on a
    length that cannot be allocated is not told here. *)
Definition makeBytes (n : Z) : CborByteArray :=
  mkCborByteArray (repeat x00 (Z.to_nat n)) (Z.to_nat n).

(** [io.ReadFull(r, buf)] on a reader over the bytes [r]: the buffer, the
    reader and the error after the call. *)
Definition ReadFull (r : bytes) (buf : CborByteArray) : CborByteArray * bytes * option error :=
  let n := List.length (arrBytes buf) in
  if (n <=? List.length r)%nat
  then (mkCborByteArray (firstn n r) (arrCap buf), skipn n r, None)
  else (mkCborByteArray (r ++ skipn (List.length r) (arrBytes buf))%list (arrCap buf), [],
        Some (if (List.length r =? 0)%nat then EOF else ErrUnexpectedEOF)).

Module ByteArray.
Section Methods.
Context {G : CborGen} {E : Externals}.

(** [MarshalCBOR] into a [bytes.Buffer] holding [w]. *)
Definition MarshalCBOR (c : CborByteArray) (w : bytes) : bytes * option error :=
  ((w ++ WriteMajorTypeHeader MajByteString (Z.of_nat (List.length (arrBytes c)))
      ++ arrBytes c)%list, None).

(** [UnmarshalCBOR]: the array, the reader and the error after the call. *)
Definition UnmarshalCBOR (c : CborByteArray) (r : bytes)
  : CborByteArray * bytes * option error :=
  match CborReadHeader r with
  | (Err err, r') => (c, r', Some err)
  | (Ok (maj, extra), r') =>
      if negb (maj =? MajByteString) then (c, r', Some (ErrNew "expected byte array"))
      else
        let c := if Z.of_nat (arrCap c) <? extra then makeBytes extra else c in
        ReadFull r' c
  end.

(** [RawData]. *)
Definition RawData (c : CborByteArray) : bytes := fst (MarshalCBOR c []).

(** [Cid]. *)
Definition Cid (c : CborByteArray) : Cid :=
  let pref := mkPrefix 1 DagCBOR SHA2_256 32 in
  match prefixSum pref (RawData c) with
  | Err _ => Undef
  | Ok cc => cc
  end.

(** The array as [Put] sees it: a [cidProvider] and a [CBORMarshaler]. *)
Definition asValue (c : CborByteArray) : Value :=
  mkValue (Some (Cid c)) (Some (Ok (RawData c))) (OBytes (arrBytes c)).

End Methods.
End ByteArray.

(** The header [MarshalCBOR] writes for the array [c] is read back as
    such, whatever follows the array. *)
Definition headerReadsBack {G : CborGen} (c : CborByteArray) (rest : bytes) : Prop :=
  CborReadHeader
    (WriteMajorTypeHeader MajByteString (Z.of_nat (List.length (arrBytes c)))
       ++ arrBytes c ++ rest)%list
  = (Ok (MajByteString, Z.of_nat (List.length (arrBytes c))), (arrBytes c ++ rest)%list).

(* ------------------------------------------------------------------ *)
(** ** refmt.go *)

(** [big.Int.Bytes]: the absolute value, big-endian, without leading
    zeros. *)
Fixpoint bigEndian (fuel : nat) (n : N) (acc : bytes) : bytes :=
  match fuel with
  | O => acc
  | S fuel' =>
      if (n =? 0)%N then acc
      else bigEndian fuel' (n / 256)%N (byte_of_ascii (ascii_of_N (n mod 256)) :: acc)
  end.

Definition bigBytes (i : Z) : bytes :=
  bigEndian (N.to_nat (N.size (Z.abs_N i))) (Z.abs_N i) [].

(** [big.Int.SetBytes]: the bytes as a big-endian unsigned integer. *)
Definition bigSetBytes (x : bytes) : Z :=
  Z.of_N (fold_left (fun v b => (v * 256 + Byte.to_N b)%N) x 0%N).

(** The two transforms of [bigIntAtlasEntry]. *)
Definition bigIntMarshal (i : Z) : result bytes := Ok (bigBytes i).
Definition bigIntUnmarshal (x : bytes) : result Z := Ok (bigSetBytes x).

(** The bytes [Put] and [PutMany] make of a value: those of its own
    serializer when it has one, its canonical encoding otherwise. *)
Definition serializesTo {E : Externals} (v : Value) (data : bytes) : Prop :=
  match asCBORMarshaler v with
  | Some r => r = Ok data
  | None => DumpObject (asObj v) = Ok data
  end.

(* ------------------------------------------------------------------ *)
(** ** A small instance of the collaborators

    Enough of each library to run the package on concrete inputs.  [Cbor]
    is a CBOR engine for unsigned integers, byte and text strings, arrays,
    maps with text keys and tagged links, all of size below 256; its encoder
    is canonical and its decoder also reads the longer heads and maps in any
    key order.  [Demo] adds the identity multihash, version-1 DagCBOR
    identifiers, JSON for one-digit numbers, and a batch block store over
    [mockBlocks] that answers in request order. *)
Module Cbor.
Local Open Scope list_scope.

Definition byteVal (x : byte) : Z := Z.of_N (Byte.to_N x).

Definition byteOf (n : Z) : option byte :=
  if 0 <=? n then Byte.of_N (Z.to_N n) else None.

(** The head of a data item: the major type in the top three bits, the
    argument in the low five when it is below 24, in the next byte
    otherwise.  An encoder uses the shortest form. *)
Definition encHead (major arg : Z) : option bytes :=
  if (0 <=? arg) && (arg <? 24) then
    match byteOf (major * 32 + arg) with
    | Some h => Some [h]
    | None => None
    end
  else if (24 <=? arg) && (arg <? 256) then
    match byteOf (major * 32 + 24), byteOf arg with
    | Some h, Some a => Some [h; a]
    | _, _ => None
    end
  else None.

(** A decoder accepts both forms for every argument. *)
Definition decHead (b : bytes) : option (Z * Z * bytes) :=
  match b with
  | [] => None
  | h :: r =>
      let major := byteVal h / 32 in
      let info := byteVal h mod 32 in
      if info <? 24 then Some (major, info, r)
      else if info =? 24 then
        match r with
        | a :: r' => Some (major, byteVal a, r')
        | [] => None
        end
      else None
  end.

Definition encText (s : string) : option bytes :=
  match encHead 3 (Z.of_nat (String.length s)) with
  | Some h => Some (h ++ list_byte_of_string s)
  | None => None
  end.

Definition encBytes (b : bytes) : option bytes :=
  match encHead 2 (Z.of_nat (List.length b)) with
  | Some h => Some (h ++ b)
  | None => None
  end.

(** The canonical order of map keys: shorter first, then bytewise. *)
Definition keyLe (k1 k2 : string) : bool :=
  (String.length k1 <? String.length k2)%nat
  || ((String.length k1 =? String.length k2)%nat && String.leb k1 k2).

Fixpoint insertEntry (e : string * bytes) (l : list (string * bytes))
  : list (string * bytes) :=
  match l with
  | [] => [e]
  | e' :: r => if keyLe (fst e) (fst e') then e :: l else e' :: insertEntry e r
  end.

Fixpoint sortEntries (l : list (string * bytes)) : list (string * bytes) :=
  match l with
  | [] => []
  | e :: r => insertEntry e (sortEntries r)
  end.

Fixpoint distinct (ks : list string) : bool :=
  match ks with
  | [] => true
  | k :: r => negb (existsb (String.eqb k) r) && distinct r
  end.

(** The encoder: shortest heads, map entries in canonical key order, links
    under the atlas tag through the marshal transform. *)
Fixpoint enc (atl : Atlas) (o : Obj) {struct o} : option bytes :=
  match o with
  | OInt n => encHead 0 n
  | OBytes b => encBytes b
  | OStr s => encText s
  | OCid c =>
      match encHead 6 (UseTag atl), encBytes (TransformMarshal atl c) with
      | Some t, Some p => Some (t ++ p)
      | _, _ => None
      end
  | OList l =>
      match encHead 4 (Z.of_nat (List.length l)),
            (fix encs (l : list Obj) : option bytes :=
               match l with
               | [] => Some []
               | x :: r =>
                   match enc atl x, encs r with
                   | Some a, Some b => Some (a ++ b)
                   | _, _ => None
                   end
               end) l
      with
      | Some h, Some body => Some (h ++ body)
      | _, _ => None
      end
  | OMapS m =>
      if distinct (map fst m) then
        match encHead 5 (Z.of_nat (List.length m)),
              (fix encs (m : list (string * Obj)) : option (list (string * bytes)) :=
                 match m with
                 | [] => Some []
                 | (k, v) :: r =>
                     match encText k, enc atl v, encs r with
                     | Some kb, Some vb, Some es => Some ((k, kb ++ vb) :: es)
                     | _, _, _ => None
                     end
                 end) m
        with
        | Some h, Some es => Some (h ++ List.concat (map snd (sortEntries es)))
        | _, _ => None
        end
      else None
  | _ => None
  end.

Definition encList (atl : Atlas) : list Obj -> option bytes :=
  fix encs (l : list Obj) : option bytes :=
    match l with
    | [] => Some []
    | x :: r =>
        match enc atl x, encs r with
        | Some a, Some b => Some (a ++ b)
        | _, _ => None
        end
    end.

Definition encEntries (atl : Atlas) : list (string * Obj) -> option (list (string * bytes)) :=
  fix encs (m : list (string * Obj)) : option (list (string * bytes)) :=
    match m with
    | [] => Some []
    | (k, v) :: r =>
        match encText k, enc atl v, encs r with
        | Some kb, Some vb, Some es => Some ((k, kb ++ vb) :: es)
        | _, _, _ => None
        end
    end.

Definition take (n : Z) (b : bytes) : option (bytes * bytes) :=
  if Z.of_nat (List.length b) <? n then None
  else Some (firstn (Z.to_nat n) b, skipn (Z.to_nat n) b).

(** [m[k] = v] on a map held as its entries. *)
Fixpoint setKey (k : string) (v : Obj) (m : list (string * Obj)) : list (string * Obj) :=
  match m with
  | [] => [(k, v)]
  | (k', v') :: r => if String.eqb k' k then (k, v) :: r else (k', v') :: setKey k v r
  end.

(** The decoder: either head form, map entries in any order, a repeated key
    overwriting, keys that are not text refused, links through the unmarshal
    transform. *)
Fixpoint dec (atl : Atlas) (fuel : nat) (b : bytes) {struct fuel} : option (Obj * bytes) :=
  match fuel with
  | O => None
  | S fuel' =>
      match decHead b with
      | None => None
      | Some (major, arg, r) =>
          if major =? 0 then Some (OInt arg, r)
          else if major =? 2 then
            match take arg r with
            | Some (p, r') => Some (OBytes p, r')
            | None => None
            end
          else if major =? 3 then
            match take arg r with
            | Some (p, r') => Some (OStr (string_of_list_byte p), r')
            | None => None
            end
          else if major =? 4 then
            match
              (fix items (n : nat) (b : bytes) : option (list Obj * bytes) :=
                 match n with
                 | O => Some ([], b)
                 | S n' =>
                     match dec atl fuel' b with
                     | None => None
                     | Some (x, b') =>
                         match items n' b' with
                         | None => None
                         | Some (xs, b'') => Some (x :: xs, b'')
                         end
                     end
                 end) (Z.to_nat arg) r
            with
            | Some (xs, r') => Some (OList xs, r')
            | None => None
            end
          else if major =? 5 then
            match
              (fix pairs (n : nat) (b : bytes) (acc : list (string * Obj))
                 : option (list (string * Obj) * bytes) :=
                 match n with
                 | O => Some (acc, b)
                 | S n' =>
                     match decHead b with
                     | Some (kmajor, klen, b1) =>
                         if kmajor =? 3 then
                           match take klen b1 with
                           | Some (kb, b2) =>
                               match dec atl fuel' b2 with
                               | Some (v, b3) =>
                                   pairs n' b3 (setKey (string_of_list_byte kb) v acc)
                               | None => None
                               end
                           | None => None
                           end
                         else None
                     | None => None
                     end
                 end) (Z.to_nat arg) r []
            with
            | Some (m, r') => Some (OMapS m, r')
            | None => None
            end
          else if major =? 6 then
            if arg =? UseTag atl then
              match decHead r with
              | Some (pmajor, plen, r1) =>
                  if pmajor =? 2 then
                    match take plen r1 with
                    | Some (p, r2) =>
                        match TransformUnmarshal atl p with
                        | Ok c => Some (OCid c, r2)
                        | Err _ => None
                        end
                    | None => None
                    end
                  else None
              | None => None
              end
            else None
          else None
      end
  end.

Definition decItems (atl : Atlas) (fuel' : nat) : nat -> bytes -> option (list Obj * bytes) :=
  fix items (n : nat) (b : bytes) : option (list Obj * bytes) :=
    match n with
    | O => Some ([], b)
    | S n' =>
        match dec atl fuel' b with
        | None => None
        | Some (x, b') =>
            match items n' b' with
            | None => None
            | Some (xs, b'') => Some (x :: xs, b'')
            end
        end
    end.

Definition decPairs (atl : Atlas) (fuel' : nat)
  : nat -> bytes -> list (string * Obj) -> option (list (string * Obj) * bytes) :=
  fix pairs (n : nat) (b : bytes) (acc : list (string * Obj))
    : option (list (string * Obj) * bytes) :=
    match n with
    | O => Some (acc, b)
    | S n' =>
        match decHead b with
        | Some (kmajor, klen, b1) =>
            if kmajor =? 3 then
              match take klen b1 with
              | Some (kb, b2) =>
                  match dec atl fuel' b2 with
                  | Some (v, b3) => pairs n' b3 (setKey (string_of_list_byte kb) v acc)
                  | None => None
                  end
              | None => None
              end
            else None
        | None => None
        end
    end.

Definition unmarshal (atl : Atlas) (b : bytes) : outcome Obj :=
  match dec atl (S (List.length b)) b with
  | Some (o, []) => Returns o
  | Some (_, _ :: _) => Fails (ErrNew "trailing bytes")
  | None => Fails (ErrNew "malformed item")
  end.

Definition marshal (atl : Atlas) (o : Obj) : outcome bytes :=
  match enc atl o with
  | Some d => Returns d
  | None => Fails (ErrNew "unsupported value")
  end.

(** Encoded entries in canonical key order. *)
Definition entryLe (e1 e2 : string * bytes) : Prop := keyLe (fst e1) (fst e2) = true.

Inductive sortedEntries : list (string * bytes) -> Prop :=
| sorted_nil : sortedEntries []
| sorted_one e : sortedEntries [e]
| sorted_cons e1 e2 l : entryLe e1 e2 -> sortedEntries (e2 :: l) -> sortedEntries (e1 :: e2 :: l).

(** Whatever the decoder reads off the front of the encoding of [x]
    re-encodes to that encoding, and the decoder stops where it ends. *)
Definition stable (atl : Atlas) (x : Obj) : Prop :=
  forall d, enc atl x = Some d ->
  forall fuel rest m' rest',
    dec atl fuel (d ++ rest) = Some (m', rest') ->
    rest' = rest /\ enc atl m' = Some d.

(** An encoded map entry: the encoding of its key followed by the encoding
    of a stable value. *)
Definition good (atl : Atlas) (e : string * bytes) : Prop :=
  exists kb vb v,
    encText (fst e) = Some kb /\ snd e = kb ++ vb /\ enc atl v = Some vb /\ stable atl v.

End Cbor.

Module Demo.

Definition mhSum (data : bytes) (code : Z) (length : Z) : result Multihash :=
  Ok data.

Definition cidBytes (c : Cid) : bytes :=
  match c with
  | Undef => []
  | CidV0 h => h
  | CidV1 _ h => x01 :: x71 :: h
  end.

Definition cidCast (b : bytes) : result Cid :=
  match b with
  | v :: c :: h =>
      if Byte.eqb v x01 && Byte.eqb c x71 then Ok (CidV1 DagCBOR h)
      else Err (ErrNew "invalid cid")
  | _ => Err (ErrNew "cid too short")
  end.

Definition cidDecode (s : string) : result Cid :=
  match s with
  | EmptyString => Err (ErrNew "cid too short")
  | _ => Ok (CidV1 DagCBOR (list_byte_of_string s))
  end.

Definition cidPrefix (c : Cid) : Prefix :=
  mkPrefix (cidVersion c) (cidType c) SHA2_256 32.

Definition prefixSum (p : Prefix) (data : bytes) : result Cid :=
  Ok (CidV1 (Codec p) data).

Definition jsonDecode (b : bytes) : result Obj :=
  match b with
  | [x] => if (48 <=? Cbor.byteVal x) && (Cbor.byteVal x <=? 57)
         then Ok (OInt (Cbor.byteVal x - 48))
           else Err (ErrNew "invalid character")
  | _ => Err (ErrNew "unsupported document")
  end.

Definition jsonMarshal (o : Obj) : result bytes :=
  match o with
  | OInt n =>
      match Byte.of_N (Z.to_N (n + 48)) with
      | Some x => if (0 <=? n) && (n <=? 9) then Ok [x] else Err (ErrNew "unsupported value")
      | None => Err (ErrNew "unsupported value")
      end
  | _ => Err (ErrNew "unsupported value")
  end.

Definition externals : Externals :=
  Build_Externals Cbor.unmarshal Cbor.marshal mhSum cidCast cidDecode cidBytes
                  cidPrefix prefixSum jsonDecode jsonMarshal.

(** The blocks found, in request order, and the identifiers not found. *)
Fixpoint getMany (cs : list Cid) (mb : mockBlocks) : list Block * list Cid :=
  match cs with
  | [] => ([], [])
  | c :: r =>
      let '(found, missing) := getMany r mb in
      match mockLookup c mb with
      | Some d => (d :: found, missing)
      | None => (found, c :: missing)
      end
  end.

Definition putMany (blocks : list Block) (mb : mockBlocks) : option error * mockBlocks :=
  (None, fold_left (fun mb b => snd (mockPut b mb)) blocks mb).

Definition batchStore : IpldBatchOpBlockStore mockBlocks :=
  mkIpldBatchOpBlockStore mockIpldBlockstore putMany
                          (fun cs mb => (Ok (getMany cs mb), mb)).

Definition basicStore : BasicIpldStore mockBlocks :=
  mkBasicIpldStore mockIpldBlockstore None 0.

Definition store : BatchOpIpldStore mockBlocks :=
  mkBatchOpIpldStore basicStore batchStore.

(** Two identifiers and the object of the package's round-trip test, as a
    node. *)
Definition c1 : Cid := CidV1 DagCBOR [x01].
Definition c2 : Cid := CidV1 DagCBOR [x02].
Definition c3 : Cid := CidV1 DagCBOR [x03].
Definition c4 : Cid := CidV1 DagCBOR [x04].

Definition linkNode : Node :=
  mkNode (OMapS [("foo", OStr "bar"); ("baz", OList [OCid c1; OCid c2])])
         ["foo"; "baz"; "baz/0"; "baz/1"] [mkLink c1; mkLink c2] [] Undef.

(** Plain values holding the integers 1 to 4; under the identity
    multihash their identifiers are [c1] to [c4]. *)
Definition plain (n : Z) : Value := mkValue None None (OInt n).

(** The map {"b": 1, "a": 2} in CBOR, with the key "b" first and the
    value 2 in its two-byte form. *)
Definition unordered : bytes := [xa2; x61; x62; x01; x61; x61; x18; x02].

(** The map {"a": {"b": 1, "c": 2}} in canonical CBOR. *)
Definition nested : bytes := [xa1; x61; x61; xa2; x61; x62; x01; x61; x63; x02].

(** The map {"a": 1, "ab": 2} in canonical CBOR, and as an object. *)
Definition siblings : bytes := [xa2; x61; x61; x01; x62; x61; x62; x02].
Definition siblingsObj : Obj := OMapS [("a", OInt 1); ("ab", OInt 2)].

(** A self-describing value: it serializes to the byte 1 and claims the
    identifier [c]. *)
Definition selfDescribing (c : Cid) : Value := mkValue (Some c) (Some (Ok [x01])) ONil.

(** An empty destination without an [UnmarshalCBOR] method. *)
Definition emptyDest : Dest := mkDest None ONil.

(** The backing store of the batch test: the values 1, 2 and 4 put with
    [putMany], the value 3 never stored. *)
Definition threeOfFour : mockBlocks :=
  snd (putMany [mkBlock [x01] c1; mkBlock [x02] c2; mkBlock [x04] c4] newMockBlocks).

(** A backing store that answers every request with all the blocks it
    holds. *)
Definition eagerStore : BatchOpIpldStore mockBlocks :=
  mkBatchOpIpldStore
    basicStore
    (mkIpldBatchOpBlockStore mockIpldBlockstore putMany
                             (fun _ mb => (Ok (map snd mb, []), mb))).

(** The heads of cbor-gen, by those of the engine. *)
Definition cborGen : CborGen :=
  Build_CborGen
    (fun maj n => match Cbor.encHead maj n with
                  | Some h => h
                  | None => []
                  end)
    (fun r => match Cbor.decHead r with
              | Some (maj, n, r') => (Ok (maj, n), r')
              | None => (Err (ErrNew "malformed head"), r)
              end).

(** The object of [linkNode]. *)
Definition linkObj : Obj :=
  OMapS [("foo", OStr "bar"); ("baz", OList [OCid c1; OCid c2])].

End Demo.

(* ------------------------------------------------------------------ *)
(** ** Inversion of the node constructors *)

Lemma bind_Ok {A C : Type} (r : result A) (k : A -> result C) (c : C) :
  bind r k = Ok c -> exists a, r = Ok a /\ k a = Ok c.
Proof.
  destruct r as [a|e]; simpl; intros H.
  - exists a; split; [reflexivity | exact H].
  - discriminate H.
Qed.

Ltac invert_bind H :=
  let a := fresh "a" in
  let Ha := fresh "Ha" in
  apply bind_Ok in H; destruct H as (a & Ha & H).

Section NodeFacts.
Context {E : Externals}.

Lemma decodeBlock_inv (blk : Block) (n : Node) :
  decodeBlock blk = Ok n ->
  decodeCBOR (blockRawData blk) = Ok (obj n) /\
  compTree (obj n) = Ok (tree n) /\
  compLinks (obj n) = Ok (links n) /\
  raw n = blockRawData blk /\
  cid n = blockCid blk.
Proof.
  unfold decodeBlock. intros H.
  invert_bind H. invert_bind H. invert_bind H.
  injection H as <-. simpl. auto.
Qed.

Lemma WrapObject_inv (m : Obj) (mhType mhLen : Z) (n : Node) :
  WrapObject m mhType mhLen = Ok n ->
  exists data hash,
    DumpObject m = Ok data /\
    mhSum data (if mhType =? MaxUint64 then SHA2_256 else mhType) mhLen = Ok hash /\
    decodeBlock (mkBlock data (NewCidV1 DagCBOR hash)) = Ok n.
Proof.
  unfold WrapObject, NewBlockWithCid. intros H.
  invert_bind H. invert_bind H. simpl in H.
  exists a, a0. auto.
Qed.

Lemma Decode_inv (b : bytes) (mhType mhLen : Z) (n : Node) :
  Decode b mhType mhLen = Ok n ->
  exists m, decodeCBOR b = Ok m /\ WrapObject m mhType mhLen = Ok n.
Proof.
  unfold Decode. intros H. invert_bind H. eauto.
Qed.

End NodeFacts.

(* ------------------------------------------------------------------ *)
(** ** The engine of the small instance is canonical *)

Module CborFacts.
Import Cbor.
Local Open Scope list_scope.

Lemma byteVal_byteOf (n : Z) (x : byte) : byteOf n = Some x -> byteVal x = n.
Proof.
  unfold byteOf, byteVal. destruct (0 <=? n) eqn:H0; [|discriminate].
  apply Z.leb_le in H0. intros H. rewrite (Byte.to_of_N _ H). lia.
Qed.

Lemma decHead_encHead (major arg : Z) (h rest : bytes) :
  0 <= major ->
  encHead major arg = Some h ->
  decHead (h ++ rest) = Some (major, arg, rest) /\ (1 <= List.length h)%nat.
Proof.
  intros Hmaj. unfold encHead.
  destruct ((0 <=? arg) && (arg <? 24)) eqn:Hs.
  - apply andb_true_iff in Hs. destruct Hs as [H0 H1].
    apply Z.leb_le in H0. apply Z.ltb_lt in H1.
    destruct (byteOf (major * 32 + arg)) as [x|] eqn:Hx; [|discriminate].
    intros Hh; injection Hh as <-. simpl.
    rewrite (byteVal_byteOf _ Hx).
    replace ((major * 32 + arg) mod 32) with arg
      by (rewrite Z.add_comm, Z.mod_add by lia; symmetry; apply Z.mod_small; lia).
    replace ((major * 32 + arg) / 32) with major
      by (rewrite Z.add_comm, Z.div_add by lia; rewrite Z.div_small by lia; lia).
    replace (arg <? 24) with true by (symmetry; apply Z.ltb_lt; lia).
    split; [reflexivity|lia].
  - destruct ((24 <=? arg) && (arg <? 256)) eqn:Hl; [|discriminate].
    apply andb_true_iff in Hl. destruct Hl as [H0 H1].
    apply Z.leb_le in H0. apply Z.ltb_lt in H1.
    destruct (byteOf (major * 32 + 24)) as [x|] eqn:Hx; [|discriminate].
    destruct (byteOf arg) as [a|] eqn:Ha; [|discriminate].
    intros Hh; injection Hh as <-. simpl.
    rewrite (byteVal_byteOf _ Hx), (byteVal_byteOf _ Ha).
    replace ((major * 32 + 24) mod 32) with 24
      by (rewrite Z.add_comm, Z.mod_add by lia; reflexivity).
    replace ((major * 32 + 24) / 32) with major
      by (rewrite Z.add_comm, Z.div_add by lia; reflexivity).
    simpl. split; [reflexivity|lia].
Qed.


Lemma length_list_byte_of_string (s : string) :
  List.length (list_byte_of_string s) = String.length s.
Proof.
  unfold list_byte_of_string. rewrite length_map.
  induction s as [|c s IH]; simpl; [reflexivity|now rewrite IH].
Qed.

Lemma take_app (p rest : bytes) :
  take (Z.of_nat (List.length p)) (p ++ rest) = Some (p, rest).
Proof.
  unfold take. rewrite length_app.
  replace (Z.of_nat (List.length p + List.length rest) <? Z.of_nat (List.length p))
    with false by (symmetry; apply Z.ltb_ge; lia).
  rewrite Nat2Z.id, firstn_app, skipn_app, Nat.sub_diag, firstn_all, skipn_all.
  simpl. now rewrite app_nil_r.
Qed.

Lemma dec_S (atl : Atlas) (fuel' : nat) (b : bytes) :
  dec atl (S fuel') b
  = match decHead b with
    | None => None
    | Some (major, arg, r) =>
        if major =? 0 then Some (OInt arg, r)
        else if major =? 2 then
          match take arg r with
          | Some (p, r') => Some (OBytes p, r')
          | None => None
          end
        else if major =? 3 then
          match take arg r with
          | Some (p, r') => Some (OStr (string_of_list_byte p), r')
          | None => None
          end
        else if major =? 4 then
          match decItems atl fuel' (Z.to_nat arg) r with
          | Some (xs, r') => Some (OList xs, r')
          | None => None
          end
        else if major =? 5 then
          match decPairs atl fuel' (Z.to_nat arg) r [] with
          | Some (m, r') => Some (OMapS m, r')
          | None => None
          end
        else if major =? 6 then
          if arg =? UseTag atl then
            match decHead r with
            | Some (pmajor, plen, r1) =>
                if pmajor =? 2 then
                  match take plen r1 with
                  | Some (p, r2) =>
                      match TransformUnmarshal atl p with
                      | Ok c => Some (OCid c, r2)
                      | Err _ => None
                      end
                  | None => None
                  end
                else None
            | None => None
            end
          else None
        else None
    end.
Proof. reflexivity. Qed.

Lemma enc_OList (atl : Atlas) (l : list Obj) :
  enc atl (OList l)
  = match encHead 4 (Z.of_nat (List.length l)), encList atl l with
    | Some h, Some body => Some (h ++ body)
    | _, _ => None
    end.
Proof. reflexivity. Qed.

Lemma enc_OMapS (atl : Atlas) (m : list (string * Obj)) :
  enc atl (OMapS m)
  = if distinct (map fst m) then
      match encHead 5 (Z.of_nat (List.length m)), encEntries atl m with
      | Some h, Some es => Some (h ++ List.concat (map snd (sortEntries es)))
      | _, _ => None
      end
    else None.
Proof. reflexivity. Qed.

(** Sorting. *)
Lemma keyLe_total (k1 k2 : string) : keyLe k1 k2 = true \/ keyLe k2 k1 = true.
Proof.
  unfold keyLe.
  destruct (Nat.lt_trichotomy (String.length k1) (String.length k2)) as [H|[H|H]].
  - left. apply orb_true_iff. left. now apply Nat.ltb_lt.
  - rewrite H, Nat.eqb_refl, Nat.ltb_irrefl. simpl.
    apply String.leb_total.
  - right. apply orb_true_iff. left. now apply Nat.ltb_lt.
Qed.

Lemma insertEntry_perm (e : string * bytes) (l : list (string * bytes)) :
  Permutation (insertEntry e l) (e :: l).
Proof.
  induction l as [|e' r IH]; simpl; [apply Permutation_refl|].
  destruct (keyLe (fst e) (fst e')); [apply Permutation_refl|].
  eapply perm_trans; [apply perm_skip, IH|apply perm_swap].
Qed.

Lemma sortEntries_perm (l : list (string * bytes)) : Permutation (sortEntries l) l.
Proof.
  induction l as [|e r IH]; simpl; [apply perm_nil|].
  eapply perm_trans; [apply insertEntry_perm|apply perm_skip, IH].
Qed.

Lemma insertEntry_sorted (e : string * bytes) (l : list (string * bytes)) :
  sortedEntries l -> sortedEntries (insertEntry e l).
Proof.
  induction 1 as [|e1|e1 e2 l H12 Hs IH]; simpl.
  - constructor.
  - destruct (keyLe (fst e) (fst e1)) eqn:H.
    + constructor; [exact H|constructor].
    + constructor; [|constructor].
      destruct (keyLe_total (fst e) (fst e1)); [congruence|assumption].
  - destruct (keyLe (fst e) (fst e1)) eqn:H.
    + constructor; [exact H|]. constructor; assumption.
    + simpl in IH. destruct (keyLe (fst e) (fst e2)) eqn:H2.
      * constructor; [|exact IH].
        destruct (keyLe_total (fst e) (fst e1)); [congruence|assumption].
      * constructor; [exact H12|exact IH].
Qed.

Lemma sortEntries_sorted (l : list (string * bytes)) : sortedEntries (sortEntries l).
Proof.
  induction l as [|e r IH]; simpl; [constructor|now apply insertEntry_sorted].
Qed.

Lemma sortEntries_id (l : list (string * bytes)) : sortedEntries l -> sortEntries l = l.
Proof.
  induction 1 as [|e1|e1 e2 l H12 Hs IH]; simpl; try reflexivity.
  simpl in IH. rewrite IH. simpl. unfold entryLe in H12. now rewrite H12.
Qed.

Lemma distinct_NoDup (ks : list string) : distinct ks = true <-> NoDup ks.
Proof.
  induction ks as [|k r IH]; simpl.
  - split; [constructor|reflexivity].
  - rewrite andb_true_iff, negb_true_iff, IH. split.
    + intros [Hn Hd]. constructor; [|exact Hd].
      intros Hin. assert (existsb (String.eqb k) r = true) as Hex.
      { apply existsb_exists. exists k. split; [exact Hin|apply String.eqb_refl]. }
      congruence.
    + intros Hnd. inversion Hnd as [|? ? Hn Hd]; subst. split; [|exact Hd].
      destruct (existsb (String.eqb k) r) eqn:Hex; [|reflexivity].
      apply existsb_exists in Hex. destruct Hex as (x & Hin & Heq).
      apply String.eqb_eq in Heq. subst x. contradiction.
Qed.

Lemma setKey_fresh (k : string) (v : Obj) (m : list (string * Obj)) :
  ~ In k (map fst m) -> setKey k v m = m ++ [(k, v)].
Proof.
  induction m as [|[k' v'] r IH]; simpl; intros Hn; [reflexivity|].
  destruct (String.eqb_spec k' k) as [->|Hne].
  - exfalso. apply Hn. left. reflexivity.
  - rewrite IH; [reflexivity|]. intros Hin. apply Hn. right. exact Hin.
Qed.


Lemma encList_cons (atl : Atlas) (x : Obj) (r : list Obj) :
  encList atl (x :: r)
  = match enc atl x, encList atl r with
    | Some a, Some b => Some (a ++ b)
    | _, _ => None
    end.
Proof. reflexivity. Qed.

Lemma encEntries_cons (atl : Atlas) (k : string) (v : Obj) (r : list (string * Obj)) :
  encEntries atl ((k, v) :: r)
  = match encText k, enc atl v, encEntries atl r with
    | Some kb, Some vb, Some es => Some ((k, kb ++ vb) :: es)
    | _, _, _ => None
    end.
Proof. reflexivity. Qed.

Lemma decItems_S (atl : Atlas) (fuel n : nat) (b : bytes) :
  decItems atl fuel (S n) b
  = match dec atl fuel b with
    | None => None
    | Some (x, b') =>
        match decItems atl fuel n b' with
        | None => None
        | Some (xs, b'') => Some (x :: xs, b'')
        end
    end.
Proof. reflexivity. Qed.

Lemma decPairs_S (atl : Atlas) (fuel n : nat) (b : bytes) (acc : list (string * Obj)) :
  decPairs atl fuel (S n) b acc
  = match decHead b with
    | Some (kmajor, klen, b1) =>
        if kmajor =? 3 then
          match take klen b1 with
          | Some (kb, b2) =>
              match dec atl fuel b2 with
              | Some (v, b3) => decPairs atl fuel n b3 (setKey (string_of_list_byte kb) v acc)
              | None => None
              end
          | None => None
          end
        else None
    | None => None
    end.
Proof. reflexivity. Qed.

Section Stable.
Variable atl : Atlas.
Hypothesis transforms_stable :
  forall c c', TransformUnmarshal atl (TransformMarshal atl c) = Ok c' ->
               TransformMarshal atl c' = TransformMarshal atl c.

Lemma stable_list (l : list Obj) :
  Forall (stable atl) l ->
  forall body, encList atl l = Some body ->
  forall fuel rest xs r',
    decItems atl fuel (List.length l) (body ++ rest) = Some (xs, r') ->
    r' = rest /\ encList atl xs = Some body /\ List.length xs = List.length l.
Proof.
  induction 1 as [|x l Hx Hl IH]; intros body Henc fuel rest xs r' Hdec.
  - simpl in Henc, Hdec. injection Henc as <-. injection Hdec as <- <-. auto.
  - rewrite encList_cons in Henc.
    destruct (enc atl x) as [a|] eqn:Ha; [|discriminate].
    destruct (encList atl l) as [b|] eqn:Hb; [|discriminate].
    injection Henc as <-.
    change (List.length (x :: l)) with (S (List.length l)) in Hdec.
    rewrite decItems_S, <- app_assoc in Hdec.
    destruct (dec atl fuel (a ++ b ++ rest)) as [[x' b']|] eqn:Hd; [|discriminate].
    destruct (Hx a Ha fuel (b ++ rest) x' b' Hd) as [-> Hx'].
    destruct (decItems atl fuel (List.length l) (b ++ rest)) as [[xs' b'']|] eqn:Hi;
      [|discriminate].
    injection Hdec as <- <-.
    destruct (IH b eq_refl fuel rest xs' b'' Hi) as (-> & Hxs & Hlen).
    rewrite encList_cons, Hx', Hxs. simpl. rewrite Hlen. auto.
Qed.

Lemma encEntries_good (m : list (string * Obj)) :
  Forall (fun kv => stable atl (snd kv)) m ->
  forall es, encEntries atl m = Some es ->
             Forall (good atl) es /\ map fst es = map fst m.
Proof.
  induction 1 as [|[k v] m Hv Hm IH]; intros es Henc.
  - simpl in Henc. injection Henc as <-. split; [constructor|reflexivity].
  - rewrite encEntries_cons in Henc.
    destruct (encText k) as [kb|] eqn:Hk; [|discriminate].
    destruct (enc atl v) as [vb|] eqn:Hvb; [|discriminate].
    destruct (encEntries atl m) as [es'|] eqn:Hes; [|discriminate].
    injection Henc as <-.
    destruct (IH es' eq_refl) as [Hg Hf].
    split; [|simpl; now rewrite Hf].
    constructor; [|exact Hg].
    exists kb, vb, v. simpl in *. auto.
Qed.

Lemma stable_pairs (es : list (string * bytes)) :
  Forall (good atl) es ->
  forall acc fuel rest macc r',
    NoDup (map fst acc ++ map fst es) ->
    decPairs atl fuel (List.length es) (List.concat (map snd es) ++ rest) acc
      = Some (macc, r') ->
    r' = rest /\
    exists m', macc = acc ++ m' /\ map fst m' = map fst es /\
               encEntries atl m' = Some es.
Proof.
  induction 1 as [|[k pb] es Hg Hes IH]; intros acc fuel rest macc r' Hnd Hdec.
  - simpl in Hdec. injection Hdec as <- <-. split; [reflexivity|].
    exists []. rewrite app_nil_r. auto.
  - destruct Hg as (kb & vb & v & Hk & Hpb & Hv & Hst). simpl in Hk, Hpb. subst pb.
    unfold encText in Hk.
    destruct (encHead 3 (Z.of_nat (String.length k))) as [kh|] eqn:Hkh; [|discriminate].
    injection Hk as <-.
    change (List.length ((k, (kh ++ list_byte_of_string k) ++ vb) :: es))
      with (S (List.length es)) in Hdec.
    rewrite decPairs_S in Hdec.
    change (List.concat (map snd ((k, (kh ++ list_byte_of_string k) ++ vb) :: es)))
      with (((kh ++ list_byte_of_string k) ++ vb) ++ List.concat (map snd es)) in Hdec.
    rewrite <- !app_assoc in Hdec.
    destruct (@decHead_encHead 3 _ kh
                (list_byte_of_string k ++ vb ++ List.concat (map snd es) ++ rest)
                ltac:(lia) Hkh) as [Hhead _].
    rewrite Hhead in Hdec. cbv beta iota in Hdec.
    change (3 =? 3) with true in Hdec. cbv beta iota in Hdec.
    rewrite <- length_list_byte_of_string, take_app in Hdec.
    rewrite string_of_list_byte_of_string in Hdec.
    destruct (dec atl fuel (vb ++ List.concat (map snd es) ++ rest)) as [[v' b3]|] eqn:Hd;
      [|discriminate].
    destruct (Hst vb Hv fuel _ v' b3 Hd) as [-> Hv'].
    simpl in Hnd.
    assert (Hfresh : ~ In k (map fst acc)).
    { apply NoDup_remove_2 in Hnd. intros Hin. apply Hnd. apply in_or_app. now left. }
    rewrite (@setKey_fresh k v' acc Hfresh) in Hdec.
    destruct (IH (acc ++ [(k, v')]) fuel rest macc r') as (-> & m' & Hm & Hf & He).
    + rewrite map_app. simpl. rewrite <- app_assoc. exact Hnd.
    + exact Hdec.
    + split; [reflexivity|].
      exists ((k, v') :: m').
      split; [rewrite Hm, <- app_assoc; reflexivity|].
      split; [simpl; now rewrite Hf|].
      rewrite encEntries_cons. unfold encText. rewrite Hkh, Hv', He. reflexivity.
Qed.


Theorem enc_dec_stable (x : Obj) : stable atl x.
Proof.
  induction x as [ | b | n | f | s | bs | c | l IH | m IH | m IH ] using Obj_ind;
    intros d Henc fuel rest m' rest' Hdec; try discriminate Henc;
    (destruct fuel as [|fuel]; [discriminate Hdec|]); rewrite dec_S in Hdec.
  - (* OInt *)
    simpl in Henc.
    destruct (@decHead_encHead 0 n d rest ltac:(lia) Henc) as [Hh _].
    rewrite Hh in Hdec. cbv beta iota in Hdec.
    change (0 =? 0) with true in Hdec. cbv beta iota in Hdec.
    injection Hdec as <- <-. auto.
  - (* OStr *)
    simpl in Henc. unfold encText in Henc.
    destruct (encHead 3 (Z.of_nat (String.length s))) as [h|] eqn:Hh; [|discriminate].
    injection Henc as <-. rewrite <- app_assoc in Hdec.
    destruct (@decHead_encHead 3 _ h (list_byte_of_string s ++ rest) ltac:(lia) Hh)
      as [Hd _].
    rewrite Hd in Hdec. cbv beta iota in Hdec.
    change (3 =? 0) with false in Hdec. change (3 =? 2) with false in Hdec.
    change (3 =? 3) with true in Hdec. cbv beta iota in Hdec.
    rewrite <- length_list_byte_of_string, take_app in Hdec.
    injection Hdec as <- <-. rewrite string_of_list_byte_of_string.
    split; [reflexivity|]. simpl. unfold encText. now rewrite Hh.
  - (* OBytes *)
    simpl in Henc. unfold encBytes in Henc.
    destruct (encHead 2 (Z.of_nat (List.length bs))) as [h|] eqn:Hh; [|discriminate].
    injection Henc as <-. rewrite <- app_assoc in Hdec.
    destruct (@decHead_encHead 2 _ h (bs ++ rest) ltac:(lia) Hh) as [Hd _].
    rewrite Hd in Hdec. cbv beta iota in Hdec.
    change (2 =? 0) with false in Hdec. change (2 =? 2) with true in Hdec.
    cbv beta iota in Hdec. rewrite take_app in Hdec.
    injection Hdec as <- <-.
    split; [reflexivity|]. simpl. unfold encBytes. now rewrite Hh.
  - (* OCid *)
    simpl in Henc.
    destruct (encHead 6 (UseTag atl)) as [t|] eqn:Ht; [|discriminate].
    unfold encBytes in Henc.
    destruct (encHead 2 (Z.of_nat (List.length (TransformMarshal atl c)))) as [h|] eqn:Hh;
      [|discriminate].
    injection Henc as <-. rewrite <- !app_assoc in Hdec.
    destruct (@decHead_encHead 6 _ t (h ++ TransformMarshal atl c ++ rest) ltac:(lia) Ht)
      as [Hd _].
    rewrite Hd in Hdec. cbv beta iota in Hdec.
    change (6 =? 0) with false in Hdec. change (6 =? 2) with false in Hdec.
    change (6 =? 3) with false in Hdec. change (6 =? 4) with false in Hdec.
    change (6 =? 5) with false in Hdec. change (6 =? 6) with true in Hdec.
    cbv beta iota in Hdec. rewrite Z.eqb_refl in Hdec.
    destruct (@decHead_encHead 2 _ h (TransformMarshal atl c ++ rest) ltac:(lia) Hh)
      as [Hd2 _].
    rewrite Hd2 in Hdec. cbv beta iota in Hdec.
    change (2 =? 2) with true in Hdec. cbv beta iota in Hdec.
    rewrite take_app in Hdec.
    destruct (TransformUnmarshal atl (TransformMarshal atl c)) as [c'|e] eqn:Hc;
      [|discriminate].
    injection Hdec as <- <-.
    split; [reflexivity|]. simpl. rewrite Ht. unfold encBytes.
    rewrite (transforms_stable _ Hc), Hh. reflexivity.
  - (* OList *)
    rewrite enc_OList in Henc.
    destruct (encHead 4 (Z.of_nat (List.length l))) as [h|] eqn:Hh; [|discriminate].
    destruct (encList atl l) as [body|] eqn:Hb; [|discriminate].
    injection Henc as <-. rewrite <- app_assoc in Hdec.
    destruct (@decHead_encHead 4 _ h (body ++ rest) ltac:(lia) Hh) as [Hd _].
    rewrite Hd in Hdec. cbv beta iota in Hdec.
    change (4 =? 0) with false in Hdec. change (4 =? 2) with false in Hdec.
    change (4 =? 3) with false in Hdec. change (4 =? 4) with true in Hdec.
    cbv beta iota in Hdec. rewrite Nat2Z.id in Hdec.
    destruct (decItems atl fuel (List.length l) (body ++ rest)) as [[xs r']|] eqn:Hi;
      [|discriminate].
    injection Hdec as <- <-.
    destruct (@stable_list l IH body Hb fuel rest xs r' Hi) as (-> & Hxs & Hlen).
    split; [reflexivity|]. rewrite enc_OList, Hlen, Hh, Hxs. reflexivity.
  - (* OMapS *)
    rewrite enc_OMapS in Henc.
    destruct (distinct (map fst m)) eqn:Hdist; [|discriminate].
    destruct (encHead 5 (Z.of_nat (List.length m))) as [h|] eqn:Hh; [|discriminate].
    destruct (encEntries atl m) as [es|] eqn:He; [|discriminate].
    injection Henc as <-. rewrite <- app_assoc in Hdec.
    destruct (@decHead_encHead 5 _ h
                (List.concat (map snd (sortEntries es)) ++ rest) ltac:(lia) Hh) as [Hd _].
    rewrite Hd in Hdec. cbv beta iota in Hdec.
    change (5 =? 0) with false in Hdec. change (5 =? 2) with false in Hdec.
    change (5 =? 3) with false in Hdec. change (5 =? 4) with false in Hdec.
    change (5 =? 5) with true in Hdec. cbv beta iota in Hdec.
    rewrite Nat2Z.id in Hdec.
    destruct (@encEntries_good m IH es He) as [Hgood Hkeys].
    pose proof (sortEntries_perm es) as Hperm.
    assert (Hlen : List.length (sortEntries es) = List.length m).
    { rewrite (Permutation_length Hperm), <- (length_map fst es), Hkeys.
      apply length_map. }
    rewrite <- Hlen in Hdec.
    destruct (decPairs atl fuel (List.length (sortEntries es))
                (List.concat (map snd (sortEntries es)) ++ rest) []) as [[macc r']|] eqn:Hp;
      [|discriminate].
    injection Hdec as <- <-.
    destruct (@stable_pairs (sortEntries es)
                (Permutation_Forall (Permutation_sym Hperm) Hgood)
                [] fuel rest macc r') as (-> & m1 & -> & Hf & He1).
    + simpl. apply (Permutation_NoDup (l := map fst es)).
      * apply Permutation_map, Permutation_sym, Hperm.
      * rewrite Hkeys. now apply distinct_NoDup.
    + exact Hp.
    + split; [reflexivity|]. simpl app. rewrite enc_OMapS.
      assert (Hd1 : distinct (map fst m1) = true).
      { apply distinct_NoDup. rewrite Hf.
        apply (Permutation_NoDup (l := map fst es)).
        - apply Permutation_map, Permutation_sym, Hperm.
        - rewrite Hkeys. now apply distinct_NoDup. }
      rewrite Hd1, He1.
      assert (Hl1 : List.length m1 = List.length m).
      { rewrite <- Hlen, <- (length_map fst m1), Hf. apply length_map. }
      rewrite Hl1, Hh, (sortEntries_id (sortEntries_sorted es)). reflexivity.
Qed.

End Stable.

(** An engine built from [enc] and [dec] re-encodes its own output
    stably. *)
Lemma marshal_unmarshal_stable (atl : Atlas) :
  (forall c c', TransformUnmarshal atl (TransformMarshal atl c) = Ok c' ->
                TransformMarshal atl c' = TransformMarshal atl c) ->
  forall m d m',
    marshal atl m = Returns d ->
    unmarshal atl d = Returns m' ->
    marshal atl m' = Returns d.
Proof.
  intros Htr m d m'. unfold marshal, unmarshal.
  destruct (enc atl m) as [d0|] eqn:He; [|discriminate].
  intros Hd; injection Hd as ->.
  destruct (dec atl (S (List.length d)) d) as [[o [|x r]]|] eqn:Hdec; try discriminate.
  intros Ho; injection Ho as ->.
  rewrite <- (app_nil_r d) in Hdec at 2.
  destruct (@enc_dec_stable atl Htr m d He _ _ _ _ Hdec) as [_ ->]. reflexivity.
Qed.

End CborFacts.

(** What [Demo.cidCast] parses serializes back to the bytes it parsed. *)
Lemma Demo_cidBytes_cidCast (b : bytes) (c : Cid) :
  Demo.cidCast b = Ok c -> Demo.cidBytes c = b.
Proof.
  destruct b as [|v [|k h]]; simpl; try discriminate.
  destruct (Byte.eqb v x01) eqn:Hv; [|discriminate].
  destruct (Byte.eqb k x71) eqn:Hk; [|discriminate].
  apply Byte.byte_dec_bl in Hv, Hk. subst v k.
  simpl. intros H; injection H as <-. reflexivity.
Qed.

Lemma Demo_transforms_stable (c c' : Cid) :
  @castBytesToCid Demo.externals (@castCidToBytes Demo.externals c) = Ok c' ->
  @castCidToBytes Demo.externals c' = @castCidToBytes Demo.externals c.
Proof.
  unfold castBytesToCid, castCidToBytes. simpl.
  destruct (Demo.cidCast (Demo.cidBytes c)) as [c0|e] eqn:Hc; [|discriminate].
  intros H; injection H as ->.
  now rewrite (Demo_cidBytes_cidCast _ Hc).
Qed.

Lemma Demo_canonical : canonicalCodec Demo.externals.
Proof.
  intros m d m'. unfold DumpObject, decodeCBOR. simpl.
  destruct (Cbor.marshal (@cborAtlas Demo.externals) m) as [d0|e|r] eqn:Hm;
    try discriminate.
  intros Hd; injection Hd as ->.
  destruct (Cbor.unmarshal (@cborAtlas Demo.externals) d) as [o|e|r] eqn:Hu;
    try discriminate.
  intros Ho; injection Ho as ->.
  rewrite (CborFacts.marshal_unmarshal_stable
             (@cborAtlas Demo.externals) Demo_transforms_stable _ Hm Hu).
  reflexivity.
Qed.

(* ------------------------------------------------------------------ *)
(** ** Canonicalization *)

(** C1.  Decoding canonicalizes and is idempotent: when [Decode b t l]
    succeeds with node [n1], whatever encoding [b] was, decoding [n1]'s
    canonical bytes with the same hash type and length succeeds and returns
    [n1] again; so any node [n2] it returns has the canonical bytes (and the
    identifier) of [n1].  The CBOR engine is any engine that re-encodes its
    own output stably. *)
Theorem Decode_canonical_idempotent (E : Externals) (Hcodec : canonicalCodec E)
        (b : bytes) (t l : Z) (n1 : Node) :
  Decode b t l = Ok n1 ->
  Decode (RawData n1) t l = Ok n1 /\
  (forall n2, Decode (RawData n1) t l = Ok n2 ->
              RawData n2 = RawData n1 /\ NodeCid n2 = NodeCid n1).
Proof.
  intros H1.
  assert (Hagain : Decode (RawData n1) t l = Ok n1).
  { apply Decode_inv in H1. destruct H1 as (m & _ & Hw1).
    apply WrapObject_inv in Hw1. destruct Hw1 as (data & h & Hdump & Hsum & Hblk).
    pose proof (decodeBlock_inv _ Hblk) as Hinv. simpl in Hinv.
    destruct Hinv as (Hdec & _ & _ & Hraw & _).
    unfold RawData. rewrite Hraw.
    unfold Decode. rewrite Hdec. simpl.
    unfold WrapObject. rewrite (Hcodec _ _ _ Hdump Hdec). simpl.
    rewrite Hsum. simpl. exact Hblk. }
  split; [exact Hagain|].
  intros n2 H2. rewrite Hagain in H2. injection H2 as <-. split; reflexivity.
Qed.

(** The map {"b": 1, "a": 2} written with "b" first and with 2 in its
    two-byte form is not canonical: it decodes, its node holds the
    canonical bytes, with "a" first and 2 in one byte, and decoding those
    is the identity. *)
Lemma Decode_canonical_idempotent_witness :
  exists n1,
    @Decode Demo.externals Demo.unordered SHA2_256 (-1) = Ok n1 /\
    RawData n1 = [xa2; x61; x61; x02; x61; x62; x01] /\
    @Decode Demo.externals (RawData n1) SHA2_256 (-1) = Ok n1.
Proof.
  eexists.
  split; [vm_compute; reflexivity|].
  split; [reflexivity|].
  apply (@Decode_canonical_idempotent Demo.externals Demo_canonical
           Demo.unordered SHA2_256 (-1)). vm_compute. reflexivity.
Defined.

(* ------------------------------------------------------------------ *)
(** ** Traversal *)

Section TraverseFacts.
Variable St : Type.
Variable cb : string -> Obj -> St -> result St.
Hypothesis cb_total : forall name o st, exists st', cb name o st = Ok st'.

(** A callback that never fails makes [traverse] fail only on a key that
    is not a string. *)
Lemma traverse_total (o : Obj) :
  stringKeyed o = true ->
  forall cur st, exists st', traverse cb o cur st = Ok st'.
Proof.
  induction o as [ | b | n | f | s | bs | c | l H | m H | m H ] using Obj_ind;
    intros Hk cur st;
    try (simpl;
         match goal with
         | |- context [cb ?c ?x ?s] => destruct (cb_total c x s) as [st1 ->]
         end; eauto; fail).
  - (* OList *)
    simpl. destruct (cb_total cur (OList l) st) as [st1 ->].
    simpl in Hk. generalize O as i. revert st1.
    induction l as [|v r IHr]; intros st1 i; [eauto|].
    simpl in Hk. apply andb_true_iff in Hk. destruct Hk as [Hv Hr].
    inversion H as [|? ? Hv' Hr']; subst.
    simpl.
    match goal with
    | |- context [traverse cb v ?c ?s0] => destruct (Hv' Hv c s0) as [st2 ->]
    end.
    apply IHr; assumption.
  - (* OMapS *)
    simpl. destruct (cb_total cur (OMapS m) st) as [st1 ->].
    simpl in Hk. revert st1.
    induction m as [|[k v] r IHr]; intros st1; [eauto|].
    simpl in Hk. apply andb_true_iff in Hk. destruct Hk as [Hv Hr].
    inversion H as [|? ? Hv' Hr']; subst. simpl in Hv'.
    simpl.
    match goal with
    | |- context [traverse cb v ?c ?s0] => destruct (Hv' Hv c s0) as [st2 ->]
    end.
    apply IHr; assumption.
  - (* OMapI *)
    simpl. destruct (cb_total cur (OMapI m) st) as [st1 ->].
    simpl in Hk. revert st1.
    induction m as [|[k v] r IHr]; intros st1; [eauto|].
    simpl in Hk. apply andb_true_iff in Hk. destruct Hk as [Hv Hr].
    inversion H as [|? ? Hv' Hr']; subst. simpl in Hv'.
    destruct Hv' as [_ Hv'].
    destruct k as [ | | | | ks | | | | | ]; try discriminate Hv.
    simpl.
    match goal with
    | |- context [traverse cb v ?c ?s0] => destruct (Hv' Hv c s0) as [st2 ->]
    end.
    apply IHr; assumption.
Qed.
End TraverseFacts.

Lemma compTree_total (o : Obj) :
  stringKeyed o = true -> exists t, compTree o = Ok t.
Proof.
  intros H. unfold compTree. apply traverse_total; [|exact H].
  intros name o' st. eauto.
Qed.

Lemma compLinks_total (o : Obj) :
  stringKeyed o = true -> exists l, compLinks o = Ok l.
Proof.
  intros H. unfold compLinks. apply traverse_total; [|exact H].
  intros name o' st. eauto.
Qed.

(* ------------------------------------------------------------------ *)
(** ** DecodeBlock *)

(** C5.  [DecodeBlock] keeps the block's bytes and identifier as they are.
    Whenever it returns a node, the node's [RawData] is the block's raw
    bytes and its [Cid] is the block's identifier, for any identifier the
    block carries; and it does return a node, holding the decoded object,
    whenever the bytes decode to an object whose maps are keyed by strings.
    Nothing is re-encoded and the identifier is not compared with the
    bytes. *)
Theorem DecodeBlock_preserves_block (E : Externals) (block : Block) :
  (forall n, DecodeBlock block = Ok n ->
             RawData n = blockRawData block /\ NodeCid n = blockCid block) /\
  (forall m, decodeCBOR (blockRawData block) = Ok m ->
             stringKeyed m = true ->
             exists n, DecodeBlock block = Ok n /\
                       obj n = m /\
                       RawData n = blockRawData block /\
                       NodeCid n = blockCid block).
Proof.
  split.
  - intros n H. apply decodeBlock_inv in H. unfold RawData, NodeCid. tauto.
  - intros m Hm Hk.
    destruct (compTree_total m Hk) as [t Ht].
    destruct (compLinks_total m Hk) as [l Hl].
    exists (mkNode m t l (blockRawData block) (blockCid block)).
    unfold DecodeBlock, decodeBlock. rewrite Hm. simpl. rewrite Ht. simpl.
    rewrite Hl. simpl. auto.
Qed.

(** The non-canonical bytes of {"b": 1, "a": 2}, filed under an identifier
    that is not the hash of anything: the node keeps both. *)
Lemma DecodeBlock_preserves_block_witness :
  exists n,
    @DecodeBlock Demo.externals (mkBlock Demo.unordered (CidV0 [xff])) = Ok n /\
    obj n = OMapS [("b", OInt 1); ("a", OInt 2)] /\
    RawData n = Demo.unordered /\
    NodeCid n = CidV0 [xff].
Proof.
  apply (proj2 (@DecodeBlock_preserves_block Demo.externals
                  (mkBlock Demo.unordered (CidV0 [xff])))
               (OMapS [("b", OInt 1); ("a", OInt 2)]));
    vm_compute; reflexivity.
Defined.

(* ------------------------------------------------------------------ *)
(** ** Identifiers of wrapped nodes *)

Section WrapFacts.
Context {E : Externals}.

(** The identifier [WrapObject] gives a node: version 1, DagCBOR, over the
    multihash of the dumped bytes. *)
Lemma WrapObject_cid (m : Obj) (mhType mhLen : Z) (n : Node) :
  WrapObject m mhType mhLen = Ok n ->
  exists data hash,
    DumpObject m = Ok data /\
    mhSum data (if mhType =? MaxUint64 then SHA2_256 else mhType) mhLen = Ok hash /\
    RawData n = data /\
    NodeCid n = NewCidV1 DagCBOR hash.
Proof.
  intros H. apply WrapObject_inv in H. destruct H as (data & h & Hd & Hs & Hb).
  apply decodeBlock_inv in Hb. simpl in Hb.
  exists data, h. unfold RawData, NodeCid. tauto.
Qed.

Lemma WrapObject_v1_DagCBOR (m : Obj) (mhType mhLen : Z) (n : Node) :
  WrapObject m mhType mhLen = Ok n ->
  cidVersion (NodeCid n) = 1 /\ cidType (NodeCid n) = DagCBOR.
Proof.
  intros H. apply WrapObject_cid in H.
  destruct H as (data & h & _ & _ & _ & ->). split; reflexivity.
Qed.
End WrapFacts.

(** C10.  Every node [WrapObject] returns, and so every node [Decode] and
    [FromJSON] return, has an identifier of version 1 with the DagCBOR
    codec; and with the hash type [math.MaxUint64] the identifier is built
    over the SHA2-256 multihash of the node's bytes, [WrapObject] then being
    the same call as with [mh.SHA2_256]. *)
Theorem WrapObject_cid_v1_DagCBOR (E : Externals) :
  (forall m t l n, WrapObject m t l = Ok n ->
     cidVersion (NodeCid n) = 1 /\ cidType (NodeCid n) = DagCBOR) /\
  (forall b t l n, Decode b t l = Ok n ->
     cidVersion (NodeCid n) = 1 /\ cidType (NodeCid n) = DagCBOR) /\
  (forall r t l n, FromJSON r t l = Ok n ->
     cidVersion (NodeCid n) = 1 /\ cidType (NodeCid n) = DagCBOR) /\
  (forall m l, WrapObject m MaxUint64 l = WrapObject m SHA2_256 l) /\
  (forall m l n, WrapObject m MaxUint64 l = Ok n ->
     exists hash, mhSum (RawData n) SHA2_256 l = Ok hash /\
                  NodeCid n = NewCidV1 DagCBOR hash).
Proof.
  repeat split.
  - eapply WrapObject_v1_DagCBOR; eassumption.
  - eapply WrapObject_v1_DagCBOR; eassumption.
  - apply Decode_inv in H. destruct H as (m & _ & H).
    eapply WrapObject_v1_DagCBOR; eassumption.
  - apply Decode_inv in H. destruct H as (m & _ & H).
    eapply WrapObject_v1_DagCBOR; eassumption.
  - unfold FromJSON in H. invert_bind H. invert_bind H.
    eapply WrapObject_v1_DagCBOR; eassumption.
  - unfold FromJSON in H. invert_bind H. invert_bind H.
    eapply WrapObject_v1_DagCBOR; eassumption.
  - intros m l n H. apply WrapObject_cid in H.
    destruct H as (data & h & _ & Hs & Hr & Hc).
    rewrite Z.eqb_refl in Hs. exists h. rewrite Hr. auto.
Qed.

(** Wrapping the integer 5 with the hash type [math.MaxUint64], decoding its
    two-byte form, and reading it from the JSON text 5. *)
Lemma WrapObject_cid_v1_DagCBOR_witness :
  exists n1 n2 n3,
    @WrapObject Demo.externals (OInt 5) MaxUint64 (-1) = Ok n1 /\
    @Decode Demo.externals [x18; x05] SHA2_256 (-1) = Ok n2 /\
    @FromJSON Demo.externals [x35] SHA2_256 (-1) = Ok n3 /\
    (cidVersion (NodeCid n1) = 1 /\ cidType (NodeCid n1) = DagCBOR) /\
    (cidVersion (NodeCid n2) = 1 /\ cidType (NodeCid n2) = DagCBOR) /\
    (cidVersion (NodeCid n3) = 1 /\ cidType (NodeCid n3) = DagCBOR) /\
    (exists hash, @mhSum Demo.externals (RawData n1) SHA2_256 (-1) = Ok hash /\
                  NodeCid n1 = NewCidV1 DagCBOR hash).
Proof.
  destruct (WrapObject_cid_v1_DagCBOR Demo.externals) as (Hw & Hd & Hj & _ & Hs).
  eexists. eexists. eexists.
  split; [vm_compute; reflexivity|].
  split; [vm_compute; reflexivity|].
  split; [vm_compute; reflexivity|].
  split; [apply (Hw (OInt 5) MaxUint64 (-1)); vm_compute; reflexivity|].
  split; [apply (Hd [x18; x05] SHA2_256 (-1)); vm_compute; reflexivity|].
  split; [apply (Hj [x35] SHA2_256 (-1)); vm_compute; reflexivity|].
  apply (Hs (OInt 5) (-1)); vm_compute; reflexivity.
Defined.

(* ------------------------------------------------------------------ *)
(** ** The link transforms *)

(** C8.  The atlas sends links under tag 42 through [castCidToBytes] and
    [castBytesToCid].  The payload of a link is one zero byte followed by
    the identifier's bytes; decoding that payload gives the identifier back
    whenever the CID library parses the identifier's own bytes back, as it
    does for every defined identifier; and decoding fails on the empty
    payload and on a payload that does not start with a zero byte. *)
Theorem link_payload_roundtrip (E : Externals) (c : Cid) :
  (UseTag cborAtlas = 42 /\
   TransformMarshal cborAtlas c = castCidToBytes c /\
   TransformUnmarshal cborAtlas (castCidToBytes c) = castBytesToCid (castCidToBytes c)) /\
  castCidToBytes c = x00 :: cidBytes c /\
  (cidCast (cidBytes c) = Ok c -> castBytesToCid (castCidToBytes c) = Ok c) /\
  castBytesToCid [] = Err (ErrNew "link value was empty") /\
  (forall x0 rest, x0 <> x00 ->
     castBytesToCid (x0 :: rest) = Err (ErrNew "invalid multibase on IPLD link")).
Proof.
  split; [repeat split|]. split; [reflexivity|]. split; [|split; [reflexivity|]].
  - intros Hrt. unfold castCidToBytes, castBytesToCid. simpl. rewrite Hrt. reflexivity.
  - intros x0 rest Hx. unfold castBytesToCid.
    destruct (Byte.eqb x0 x00) eqn:Heq; [|reflexivity].
    apply Byte.byte_dec_bl in Heq. contradiction.
Qed.

(** A version-1 DagCBOR identifier, its payload and back; and a payload
    that starts with the identifier's version byte instead of zero. *)
Lemma link_payload_roundtrip_witness :
  @castCidToBytes Demo.externals (CidV1 DagCBOR [x12; x01; xab])
    = [x00; x01; x71; x12; x01; xab] /\
  @castBytesToCid Demo.externals (@castCidToBytes Demo.externals (CidV1 DagCBOR [x12; x01; xab]))
    = Ok (CidV1 DagCBOR [x12; x01; xab]) /\
  @castBytesToCid Demo.externals [x01; x71; x12] = Err (ErrNew "invalid multibase on IPLD link").
Proof.
  destruct (link_payload_roundtrip Demo.externals (CidV1 DagCBOR [x12; x01; xab]))
    as (_ & Henc & Hrt & _ & Hbad).
  split; [exact Henc|].
  split; [apply Hrt; reflexivity|].
  apply Hbad. discriminate.
Defined.

(* ------------------------------------------------------------------ *)
(** ** JSON to the object tree *)

(** C9, on the code.  [convertToCborIshObj] parses a link only where it is
    called: on its argument and, through the loop of the slice case, on the
    elements of a slice.  The map case returns the map it was given without
    looking into its values.  So an object whose only key is "/", with a
    string that decodes to an identifier, stays that object when it sits
    under a key of another object, while the same object as the argument
    itself, or as an element of an array, becomes the link. *)
Theorem convertToCborIshObj_skips_map_values (E : Externals) (k vstr : string) (c : Cid)
        (m : list (string * Obj)) :
  cidDecode vstr = Ok c ->
  k <> "/" \/ m <> [] ->
  convertToCborIshObj (OMapS ((k, OMapS [("/", OStr vstr)]) :: m))
  = Ok (OMapS ((k, OMapS [("/", OStr vstr)]) :: m)) /\
  convertToCborIshObj (OMapS [("/", OStr vstr)]) = Ok (OCid c) /\
  convertToCborIshObj (OList [OMapS [("/", OStr vstr)]]) = Ok (OList [OCid c]).
Proof.
  intros Hc Hkm. split; [|split].
  - unfold convertToCborIshObj. cbn [List.length Nat.eqb lookupS].
    destruct m as [|e r].
    + destruct Hkm as [Hk|Hm]; [|contradiction].
      destruct (String.eqb_spec k "/") as [Heq|_]; [contradiction|reflexivity].
    + cbn [List.length Nat.eqb].
      destruct (String.eqb k "/"); [reflexivity|].
      destruct (lookupS "/" (e :: r)); reflexivity.
  - simpl. rewrite Hc. reflexivity.
  - simpl. rewrite Hc. reflexivity.
Qed.

Lemma convertToCborIshObj_skips_map_values_witness :
  @convertToCborIshObj Demo.externals (OMapS [("something", OMapS [("/", OStr "bafy")])])
  = Ok (OMapS [("something", OMapS [("/", OStr "bafy")])]) /\
  @convertToCborIshObj Demo.externals (OMapS [("/", OStr "bafy")])
  = Ok (OCid (CidV1 DagCBOR (list_byte_of_string "bafy"))) /\
  @convertToCborIshObj Demo.externals (OList [OMapS [("/", OStr "bafy")]])
  = Ok (OList [OCid (CidV1 DagCBOR (list_byte_of_string "bafy"))]).
Proof.
  apply (@convertToCborIshObj_skips_map_values Demo.externals "something" "bafy"
           (CidV1 DagCBOR (list_byte_of_string "bafy")) []).
  - reflexivity.
  - left. discriminate.
Defined.

(** X30.  On the argument of [convertToCborIshObj]: an object whose only
    key is "/" with a string value becomes the link that string decodes to,
    and fails when the string does not decode; an object that has a "/" key
    next to other keys stays the object it is; the empty object and the
    empty array stay empty. *)
Theorem convertToCborIshObj_links (E : Externals) :
  (forall vstr,
     convertToCborIshObj (OMapS [("/", OStr vstr)])
     = match cidDecode vstr with
       | Ok c => Ok (OCid c)
       | Err err => Err err
       end) /\
  (forall m, lookupS "/" m <> None -> (2 <= List.length m)%nat ->
     convertToCborIshObj (OMapS m) = Ok (OMapS m)) /\
  convertToCborIshObj (OMapS []) = Ok (OMapS []) /\
  convertToCborIshObj (OList []) = Ok (OList []).
Proof.
  split; [|split; [|split]].
  - intros vstr. simpl. destruct (cidDecode vstr); reflexivity.
  - intros m Hk Hlen. unfold convertToCborIshObj.
    destruct m as [|e1 [|e2 r]]; simpl in Hlen; try lia.
    simpl.
    match goal with
    | |- match ?x with _ => _ end = _ => destruct x; reflexivity
    end.
  - reflexivity.
  - reflexivity.
Qed.

Lemma convertToCborIshObj_links_witness :
  @convertToCborIshObj Demo.externals (OMapS [("/", OStr "bafy"); ("size", OInt 3)])
  = Ok (OMapS [("/", OStr "bafy"); ("size", OInt 3)]) /\
  @convertToCborIshObj Demo.externals (OMapS [("/", OStr "bafy")])
  = Ok (OCid (CidV1 DagCBOR (list_byte_of_string "bafy"))) /\
  @convertToCborIshObj Demo.externals (OMapS [("/", OStr "")])
  = Err (ErrNew "cid too short").
Proof.
  destruct (convertToCborIshObj_links Demo.externals) as (Hlink & Hextra & _ & _).
  split; [apply Hextra; [discriminate | simpl; lia]|].
  split; [rewrite Hlink; reflexivity | rewrite Hlink; reflexivity].
Defined.

(* ------------------------------------------------------------------ *)
(** ** Resolve *)

Section ResolveFacts.
Context {E : Externals}.

(** One iteration of the loop of [Resolve] follows one step of the walk. *)
Lemma resolveFrom_child (cur : Obj) (seg : string) (next : Obj) (rest : list string) :
  child cur seg = Some next ->
  resolveFrom cur (seg :: rest) = resolveFrom next rest.
Proof.
  destruct cur; simpl; try discriminate.
  - (* OList *)
    destruct (Atoi seg) as [n|e]; [|discriminate].
    destruct ((0 <=? n) && (n <? Z.of_nat (List.length l))) eqn:Hr; [|discriminate].
    apply andb_true_iff in Hr. destruct Hr as [H0 H1].
    apply Z.leb_le in H0. apply Z.ltb_lt in H1.
    intros Hn.
    replace (n <? 0) with false by (symmetry; apply Z.ltb_ge; lia).
    replace (n >=? Z.of_nat (List.length l)) with false
      by (symmetry; rewrite Z.geb_leb; apply Z.leb_gt; lia).
    simpl. rewrite (nth_error_nth _ _ ONil Hn). reflexivity.
  - intros ->. reflexivity.
  - intros ->. reflexivity.
Qed.

Lemma resolveFrom_link_before_end (pre : list string) :
  forall cur c rest,
    walk cur pre = Some (OCid c) ->
    rest <> [] ->
    resolveFrom cur (pre ++ rest) = Ok (RLink (mkLink c), rest).
Proof.
  induction pre as [|seg pre IH]; intros cur c rest Hw Hrest.
  - simpl in Hw. injection Hw as ->.
    destruct rest as [|val r]; [contradiction|]. reflexivity.
  - simpl in Hw. destruct (child cur seg) as [next|] eqn:Hc; [|discriminate].
    change ((seg :: pre) ++ rest)%list with (seg :: (pre ++ rest))%list.
    rewrite (resolveFrom_child _ _ _ Hc). apply IH; assumption.
Qed.

Lemma resolveFrom_link_at_end (p : list string) :
  forall cur c,
    walk cur p = Some (OCid c) ->
    resolveFrom cur p = Ok (RLink (mkLink c), []).
Proof.
  induction p as [|seg p IH]; intros cur c Hw.
  - simpl in Hw. injection Hw as ->. reflexivity.
  - simpl in Hw. destruct (child cur seg) as [next|] eqn:Hc; [|discriminate].
    rewrite (resolveFrom_child _ _ _ Hc). apply IH; assumption.
Qed.
End ResolveFacts.

(** C6.  When the walk of [p] through the node's object reaches a link
    after [i] segments, [i] less than the length of [p], [Resolve] returns
    that link with the unconsumed segments [p[i:]]; when the whole of [p]
    ends on a link, [Resolve] returns it with no segment left. *)
Theorem Resolve_stops_at_link (E : Externals) (n : Node) (p : list string) (c : Cid) :
  (forall i, (i < List.length p)%nat ->
     walk (obj n) (firstn i p) = Some (OCid c) ->
     Resolve n p = Ok (RLink (mkLink c), skipn i p)) /\
  (walk (obj n) p = Some (OCid c) ->
     Resolve n p = Ok (RLink (mkLink c), [])).
Proof.
  split.
  - intros i Hi Hw. unfold Resolve.
    rewrite <- (firstn_skipn i p) at 1.
    apply resolveFrom_link_before_end; [exact Hw|].
    intros Hnil. apply (f_equal (@List.length string)) in Hnil.
    rewrite length_skipn in Hnil. simpl in Hnil. lia.
  - intros Hw. unfold Resolve. apply resolveFrom_link_at_end. exact Hw.
Qed.

(** The object of the round-trip test: a link inside a list, asked for with
    one segment too many, and asked for exactly. *)
Lemma Resolve_stops_at_link_witness :
  @Resolve Demo.externals Demo.linkNode ["baz"; "1"; "bop"]
    = Ok (RLink (mkLink Demo.c2), ["bop"]) /\
  @Resolve Demo.externals Demo.linkNode ["baz"; "1"]
    = Ok (RLink (mkLink Demo.c2), []).
Proof.
  split.
  - apply (proj1 (Resolve_stops_at_link Demo.externals Demo.linkNode
                    ["baz"; "1"; "bop"] Demo.c2) 2%nat).
    + simpl. lia.
    + vm_compute. reflexivity.
  - apply (proj2 (Resolve_stops_at_link Demo.externals Demo.linkNode
                    ["baz"; "1"] Demo.c2)).
    vm_compute. reflexivity.
Defined.

Section GetManyFacts.
Context {E : Externals}.
Variable B : Type.
Variable s : BasicIpldStore B.

Lemma setNth_app (pre : list Dest) (d out : Dest) (r : list Dest) :
  setNth (List.length pre) d (pre ++ out :: r)%list = (pre ++ d :: r)%list.
Proof.
  induction pre as [|x pre IH]; simpl; [reflexivity|]. now rewrite IH.
Qed.

Lemma nth_error_app_here (pre : list Dest) (out : Dest) (r : list Dest) :
  nth_error (pre ++ out :: r)%list (List.length pre) = Some out.
Proof.
  induction pre as [|x pre IH]; simpl; [reflexivity|exact IH].
Qed.

(** The goroutine decodes the k-th block into the k-th remaining slot and
    sends its cursor with that slot's index. *)
Lemma getManyWorker_run (blks : list Block) :
  forall (pre outs : list Dest) (sent : list Cursor),
    (List.length blks <= List.length outs)%nat ->
    exists sent' outs',
      getManyWorker s blks (List.length pre) (pre ++ outs)%list sent
        = Closed (sent ++ sent')%list (pre ++ outs')%list /\
      List.length sent' = List.length blks /\
      (forall k blk out,
          nth_error blks k = Some blk ->
          nth_error outs k = Some out ->
          nth_error sent' k
            = Some (mkCursor (blockCid blk) (Z.of_nat (List.length pre + k))
                             (snd (decode s (blockRawData blk) out))) /\
          nth_error outs' k = Some (fst (decode s (blockRawData blk) out))) /\
      (forall k, (List.length blks <= k)%nat -> nth_error outs' k = nth_error outs k).
Proof.
  induction blks as [|blk r IH]; intros pre outs sent Hlen.
  - exists [], outs. simpl. rewrite app_nil_r.
    split; [reflexivity|]. split; [reflexivity|]. split.
    + intros k blk out Hk. destruct k; discriminate Hk.
    + reflexivity.
  - destruct outs as [|out outs_r]; [simpl in Hlen; lia|].
    simpl in Hlen. simpl getManyWorker.
    rewrite nth_error_app_here.
    destruct (decode s (blockRawData blk) out) as [out' err] eqn:Hdec.
    rewrite setNth_app.
    specialize (IH (pre ++ [out'])%list outs_r
                   (sent ++ [mkCursor (blockCid blk) (Z.of_nat (List.length pre)) err])%list).
    destruct IH as (sent' & outs' & Hrun & Hls & Hat & Hrest); [lia|].
    rewrite length_app in Hrun. simpl in Hrun.
    replace (List.length pre + 1)%nat with (S (List.length pre)) in Hrun by lia.
    rewrite <- !app_assoc in Hrun. simpl in Hrun.
    exists (mkCursor (blockCid blk) (Z.of_nat (List.length pre)) err :: sent'), (out' :: outs').
    split; [exact Hrun|].
    split; [simpl; now rewrite Hls|].
    split.
    + intros k blk0 out0 Hb Ho. destruct k as [|k]; simpl in *.
      * injection Hb as <-. injection Ho as <-. rewrite Hdec. simpl.
        rewrite Nat.add_0_r. auto.
      * destruct (Hat k blk0 out0 Hb Ho) as [Hc Hd].
        rewrite length_app in Hc. simpl in Hc.
        replace (List.length pre + 1 + k)%nat with (List.length pre + S k)%nat in Hc by lia.
        auto.
    + intros k Hk. destruct k as [|k]; [simpl in Hk; lia|].
      simpl. apply Hrest. simpl in Hk. lia.
Qed.
End GetManyFacts.

(** C3, as the code has it.  In a call [GetMany(cs, outs)] with
    [len(cs) == len(outs)] to which the backing store answers with at most
    [len(cs)] blocks, the goroutine runs to [close(cursors)]; the k-th block
    of the answer is decoded into the output slot k and its cursor carries
    the index k and the block's identifier; slots from the number of found
    blocks on are left as they were.  The index is the position among the
    blocks found; it is the position in [cs] when the answer holds the block
    of every identifier of [cs], in order. *)
Theorem GetMany_cursor_index (E : Externals) (B : Type) (b : BatchOpIpldStore B)
        (cs : list Cid) (outs : list Dest) (st st' : B)
        (blks : list Block) (missing : list Cid) :
  List.length cs = List.length outs ->
  batchGetMany (BatchOps b) cs st = (Ok (blks, missing), st') ->
  (List.length blks <= List.length cs)%nat ->
  exists sent outs',
    GetMany b cs outs st = (Ok (Closed sent outs', missing), st') /\
    List.length sent = List.length blks /\
    (forall k blk out,
        nth_error blks k = Some blk ->
        nth_error outs k = Some out ->
        nth_error sent k
          = Some (mkCursor (blockCid blk) (Z.of_nat k)
                           (snd (decode (basic b) (blockRawData blk) out))) /\
        nth_error outs' k = Some (fst (decode (basic b) (blockRawData blk) out))) /\
    (forall k, (List.length blks <= k)%nat -> nth_error outs' k = nth_error outs k) /\
    (map blockCid blks = cs -> Forall (atOriginalIndex cs) sent).
Proof.
  intros Hlen Hget Hsub.
  destruct (@getManyWorker_run E B (basic b) blks [] outs [])
    as (sent & outs' & Hrun & Hls & Hat & Hrest); [lia|].
  simpl in Hrun.
  exists sent, outs'. unfold GetMany.
  rewrite Hlen, Nat.eqb_refl. simpl. rewrite Hget, Hrun.
  split; [reflexivity|]. split; [exact Hls|].
  split; [intros k blk out Hb Ho; apply (Hat k blk out); assumption|].
  split; [exact Hrest|].
  intros Hall. apply Forall_forall. intros cur Hin.
  apply In_nth_error in Hin. destruct Hin as [k Hk].
  assert (Hlt : (k < List.length blks)%nat).
  { rewrite <- Hls. apply nth_error_Some. rewrite Hk. discriminate. }
  destruct (nth_error blks k) as [blk|] eqn:Hb;
    [|apply nth_error_None in Hb; lia].
  destruct (nth_error outs k) as [out|] eqn:Ho;
    [|apply nth_error_None in Ho; lia].
  destruct (Hat k blk out Hb Ho) as [Hc _].
  rewrite Hk in Hc. injection Hc as ->.
  unfold atOriginalIndex. simpl. rewrite Nat2Z.id, <- Hall.
  apply map_nth_error. exact Hb.
Qed.

(** The batch test's call: four identifiers asked for, the third never
    stored.  The block of the fourth identifier is the third block found:
    its cursor carries the index 2, where the request has the missing
    identifier, and its value lands in slot 2. *)
Lemma GetMany_original_index_counterexample :
  ~ @cursorsAtOriginalIndex Demo.externals mockBlocks Demo.store
      [Demo.c1; Demo.c2; Demo.c3; Demo.c4]
      [Demo.emptyDest; Demo.emptyDest; Demo.emptyDest; Demo.emptyDest]
      Demo.threeOfFour.
Proof.
  intros H.
  specialize (H _ _ _ eq_refl).
  vm_compute in H.
  inversion H as [|? ? _ H1]; subst.
  inversion H1 as [|? ? _ H2]; subst.
  inversion H2 as [|? ? H3 _]; subst.
  discriminate H3.
Qed.

Lemma GetMany_cursor_index_witness :
  exists sent outs',
    @GetMany Demo.externals mockBlocks Demo.store
        [Demo.c1; Demo.c2; Demo.c3; Demo.c4]
        [Demo.emptyDest; Demo.emptyDest; Demo.emptyDest; Demo.emptyDest]
        Demo.threeOfFour
      = (Ok (Closed sent outs', [Demo.c3]), Demo.threeOfFour) /\
    nth_error sent 2 = Some (mkCursor Demo.c4 2 None) /\
    nth_error outs' 2 = Some (mkDest None (OInt 4)) /\
    nth_error outs' 3 = Some Demo.emptyDest.
Proof.
  destruct (@GetMany_cursor_index Demo.externals mockBlocks Demo.store
              [Demo.c1; Demo.c2; Demo.c3; Demo.c4]
              [Demo.emptyDest; Demo.emptyDest; Demo.emptyDest; Demo.emptyDest]
              Demo.threeOfFour Demo.threeOfFour
              [mkBlock [x01] Demo.c1; mkBlock [x02] Demo.c2; mkBlock [x04] Demo.c4]
              [Demo.c3])
    as (sent & outs' & Hcall & _ & Hat & Hrest & _).
  - reflexivity.
  - vm_compute. reflexivity.
  - simpl. lia.
  - exists sent, outs'.
    split; [exact Hcall|].
    destruct (Hat 2%nat (mkBlock [x04] Demo.c4) Demo.emptyDest eq_refl eq_refl) as [Hc Hd].
    split; [exact Hc|].
    split; [exact Hd|].
    rewrite (Hrest 3%nat); [reflexivity | simpl; lia].
Defined.

(* ------------------------------------------------------------------ *)
(** ** PutMany *)


Section PutManyFacts.
Context {E : Externals}.
Variable B : Type.




End PutManyFacts.



(* ------------------------------------------------------------------ *)
(** ** Put *)

(** C2, on the code.  [Put] does not compare the computed identifier with
    the claimed one: for a value that serializes itself and claims an
    identifier [c], when the identifier [c'] computed from its bytes is not
    [c] and the backing store accepts the block, [Put] stores the block
    under [c'] and returns [c'] with no error.  [PutMany] fails on the same
    value. *)
Theorem Put_returns_despite_mismatch (E : Externals) (B : Type) (s : BasicIpldStore B)
        (v : Value) (st st' : B) (c c' : Cid) (buf : bytes) :
  asCidProvider v = Some c ->
  asCBORMarshaler v = Some (Ok buf) ->
  prefixSum (mkPrefix 1 (Codec (cidPrefix c)) (MhType (cidPrefix c))
                      (MhLength (cidPrefix c))) buf = Ok c' ->
  c' <> c ->
  blocksPut (Blocks s) (mkBlock buf c') st = (None, st') ->
  Put s v st = ((c', None), st').
Proof.
  intros Hc Hm Hsum Hne Hput. unfold Put.
  rewrite Hc, Hm. simpl. rewrite Hsum. simpl. rewrite Hput.
  reflexivity.
Qed.

(** A value that serializes to the byte 1, whose identifier is [c1], and
    claims [c2]: [Put] returns [c1] and stores the block; [PutMany] refuses
    the value. *)
Lemma Put_returns_despite_mismatch_witness :
  @Put Demo.externals mockBlocks Demo.basicStore (Demo.selfDescribing Demo.c2) newMockBlocks
    = ((Demo.c1, None), [(Demo.c1, mkBlock [x01] Demo.c1)]) /\
  @PutMany Demo.externals mockBlocks Demo.store [Demo.selfDescribing Demo.c2] newMockBlocks
    = (([], Some (mismatchErrorMany Demo.c2 Demo.c1)), newMockBlocks).
Proof.
  split.
  - apply (@Put_returns_despite_mismatch Demo.externals mockBlocks Demo.basicStore
             (Demo.selfDescribing Demo.c2) newMockBlocks
             [(Demo.c1, mkBlock [x01] Demo.c1)] Demo.c2 Demo.c1 [x01]);
      try reflexivity.
    discriminate.
  - vm_compute. reflexivity.
Defined.

(* ------------------------------------------------------------------ *)
(** ** Tree *)

Lemma SplitSlash_nonempty (s : string) : SplitSlash s <> [].
Proof.
  destruct s as [|c r]; simpl; [discriminate|].
  destruct (Ascii.eqb c slash); [discriminate|].
  destruct (SplitSlash r); discriminate.
Qed.

Lemma SplitSlash_app (a b : string) :
  SplitSlash (a ++ String slash b) = (SplitSlash a ++ SplitSlash b)%list.
Proof.
  induction a as [|c a IH]; simpl.
  - reflexivity.
  - destruct (Ascii.eqb c slash).
    + now rewrite IH.
    + rewrite IH. pose proof (SplitSlash_nonempty a) as Hne.
      destruct (SplitSlash a) as [|h t]; [contradiction|]. reflexivity.
Qed.

Lemma prefix_split (p t : string) :
  String.prefix p t = true -> exists s, t = p ++ s.
Proof.
  revert t. induction p as [|c p IH]; intros t H.
  - exists t. reflexivity.
  - destruct t as [|c' t]; simpl in H; [discriminate|].
    destruct (ascii_dec c c') as [->|]; [|discriminate].
    destruct (IH t H) as [s ->]. exists s. reflexivity.
Qed.

Lemma prefix_app (p s : string) : String.prefix p (p ++ s) = true.
Proof.
  induction p as [|c p IH]; simpl; [destruct s; reflexivity|].
  destruct (ascii_dec c c); [exact IH|contradiction].
Qed.

Lemma append_assoc (a b c : string) : (a ++ b) ++ c = a ++ (b ++ c).
Proof.
  induction a as [|x a IH]; simpl; [reflexivity|now rewrite IH].
Qed.

Lemma sliceFrom_app (p s : string) : sliceFrom (String.length p) (p ++ s) = s.
Proof.
  induction p as [|c p IH]; simpl; [reflexivity|exact IH].
Qed.

Lemma app_slash_assoc (p s : string) : (p ++ "/") ++ s = p ++ String slash s.
Proof.
  induction p as [|c p IH]; simpl; [reflexivity|now rewrite IH].
Qed.

Lemma sliceFrom_at_slash (p s : string) :
  sliceFrom (String.length p) ((p ++ "/") ++ s) = String slash s.
Proof.
  induction p as [|c p IH]; simpl; [reflexivity|exact IH].
Qed.

Lemma sliceFrom_past_slash (p s : string) :
  sliceFrom (S (String.length p)) ((p ++ "/") ++ s) = s.
Proof.
  induction p as [|c p IH]; [reflexivity|exact IH].
Qed.

Lemma sliceFrom_self (p : string) : sliceFrom (String.length p) p = "".
Proof.
  induction p as [|c p IH]; simpl; [reflexivity|exact IH].
Qed.

Lemma prefix_longer (p : string) (c : ascii) (r : string) :
  String.prefix (p ++ String c r) p = false.
Proof.
  induction p as [|x p IH]; simpl; [reflexivity|].
  destruct (ascii_dec x x); [exact IH|reflexivity].
Qed.

Lemma noEmptySegment_head (t : string) :
  noEmptySegment t -> t <> "" /\ TrimLeftSlash t = t.
Proof.
  unfold noEmptySegment. destruct t as [|c r]; simpl; intros H.
  - exfalso. apply H. left. reflexivity.
  - split; [discriminate|].
    destruct (Ascii.eqb c slash); [|reflexivity].
    exfalso. apply H. left. reflexivity.
Qed.

Lemma noEmptySegment_tail (p s : string) :
  noEmptySegment (p ++ String slash s) -> noEmptySegment s.
Proof.
  unfold noEmptySegment. rewrite SplitSlash_app. intros H Hin.
  apply H. apply in_or_app. right. exact Hin.
Qed.

(** The loop of [Tree] appends, for each recorded path, nothing or one
    suffix. *)
Lemma fold_left_append (A X : Type) (g : X -> list A) (step : list A -> X -> list A) :
  (forall out t, step out t = (out ++ g t)%list) ->
  forall l acc, fold_left step l acc = (acc ++ flat_map g l)%list.
Proof.
  intros Hstep. induction l as [|t l IH]; intros acc; simpl.
  - now rewrite app_nil_r.
  - rewrite IH, Hstep, <- app_assoc. reflexivity.
Qed.

Lemma Tree_flat_map (n : Node) (path : string) (depth : Z) :
  Tree n path depth
  = if String.eqb path "" && (depth =? -1) then tree n
    else flat_map (treeEntry path depth) (tree n).
Proof.
  unfold Tree. destruct (String.eqb path "" && (depth =? -1)); [reflexivity|].
  rewrite fold_left_append with (g := treeEntry path depth); [reflexivity|].
  intros out t. unfold treeEntry, segments.
  destruct (negb (HasPrefix t path)); [now rewrite app_nil_r|].
  cbv zeta.
  destruct (String.eqb (TrimLeftSlash (sliceFrom (String.length path) t)) "");
    [now rewrite app_nil_r|].
  destruct (depth <? 0); [reflexivity|].
  destruct (Z.of_nat _ <=? depth); [reflexivity|now rewrite app_nil_r].
Qed.

(** Where the code and the description of [Tree] agree.  On a node none of
    whose recorded paths has an empty segment, and for a prefix that the
    recorded paths continue only at a segment boundary, [Tree] returns the
    recorded paths under the prefix, stripped, filtered by depth as
    described. *)
Lemma Tree_refines_TreeSpec (n : Node) (p : string) (d : Z) :
  Forall noEmptySegment (tree n) ->
  alignedPrefix p (tree n) ->
  Tree n p d = TreeSpec n p d.
Proof.
  intros Hseg Hal. rewrite Tree_flat_map. unfold TreeSpec.
  assert (Hentry : forall t, In t (tree n) ->
            treeEntry p d t
            = match stripUnder p t with
              | Some sub => if (d <? 0) || (segments sub <=? d) then [sub] else []
              | None => []
              end).
  { intros t Hin. pose proof (proj1 (Forall_forall _ _) Hseg t Hin) as Ht.
    unfold treeEntry, stripUnder.
    destruct (String.eqb_spec p "") as [->|Hp].
    - unfold HasPrefix. simpl String.prefix.
      replace (String.prefix "" t) with true by (destruct t; reflexivity).
      simpl. destruct (noEmptySegment_head Ht) as [Hne ->].
      destruct (String.eqb_spec t ""); [contradiction|].
      destruct (d <? 0); reflexivity.
    - destruct (HasPrefix t p) eqn:Hpre; cbn [negb].
      + destruct (Hal t Hin Hpre) as [->|Hsl].
        * rewrite sliceFrom_self. simpl.
          unfold HasPrefix. rewrite prefix_longer. reflexivity.
        * rewrite Hsl. unfold HasPrefix in Hsl.
          destruct (prefix_split _ _ Hsl) as [s ->].
          rewrite sliceFrom_past_slash, sliceFrom_at_slash.
          rewrite app_slash_assoc in Ht.
          pose proof (noEmptySegment_tail _ _ Ht) as Hs.
          destruct (noEmptySegment_head Hs) as [Hne Htrim].
          change (TrimLeftSlash (String slash s)) with (TrimLeftSlash s).
          rewrite Htrim.
          destruct (String.eqb_spec s ""); [contradiction|].
          destruct (d <? 0); reflexivity.
      + destruct (HasPrefix t (p ++ "/")) eqn:Hsl; [|reflexivity].
        unfold HasPrefix in *. destruct (prefix_split _ _ Hsl) as [s ->].
        rewrite append_assoc, prefix_app in Hpre. discriminate. }
  destruct (String.eqb p "" && (d =? -1)) eqn:Hfast.
  - apply andb_true_iff in Hfast. destruct Hfast as [Hp Hd].
    apply String.eqb_eq in Hp. apply Z.eqb_eq in Hd. subst p d.
    unfold stripUnder. simpl.
    clear. induction (tree n) as [|t l IH]; simpl; [reflexivity|now rewrite <- IH].
  - clear Hfast. revert Hentry. clear.
    induction (tree n) as [|t l IH]; intros Hentry; simpl; [reflexivity|].
    rewrite Hentry by (left; reflexivity).
    rewrite IH; [reflexivity|]. intros t' Hin. apply Hentry. right. exact Hin.
Qed.

(** The example of the description: on a node of the object
    {"a": {"b": 1, "c": 2}}, in whichever order the inner map is visited,
    [Tree("", -1)] is a, a/b, a/c; [Tree("a", -1)] is b, c; [Tree("", 0)]
    is empty; and the description and the code agree on it. *)
Lemma Tree_example (n : Node) (inner : list (string * Obj)) :
  obj n = OMapS [("a", OMapS inner)] ->
  Permutation [("b", OInt 1); ("c", OInt 2)] inner ->
  compTree (obj n) = Ok (tree n) ->
  Permutation (Tree n "" (-1)) ["a"; "a/b"; "a/c"] /\
  Permutation (Tree n "a" (-1)) ["b"; "c"] /\
  Tree n "" 0 = [] /\
  Tree n "a" (-1) = TreeSpec n "a" (-1).
Proof.
  destruct n as [o t ls r c]. simpl. intros -> Hperm Htree.
  apply Permutation_length_2_inv in Hperm.
  destruct Hperm as [-> | ->]; vm_compute in Htree; injection Htree as <-;
    vm_compute; (split; [|split; [|split]]); try reflexivity;
    try apply Permutation_refl;
    repeat apply perm_skip; apply perm_swap.
Qed.

(** The example again, on the node the package decodes from the CBOR bytes
    of {"a": {"b": 1, "c": 2}}. *)
Lemma Tree_example_decoded :
  exists n,
    @Decode Demo.externals Demo.nested SHA2_256 (-1) = Ok n /\
    Tree n "" (-1) = ["a"; "a/b"; "a/c"] /\
    Tree n "a" (-1) = ["b"; "c"] /\
    Tree n "" 1 = ["a"] /\
    Tree n "" 0 = [].
Proof.
  eexists. split; [vm_compute; reflexivity|].
  repeat split; vm_compute; reflexivity.
Qed.

(** C4, on the code.  [Tree] matches the prefix character by character.
    The object {"a": 1, "ab": 2} has the recorded paths a and ab, on the
    node the package decodes from its bytes as on any node of it; there
    [Tree("a", -1)] returns b, the tail of the sibling key ab, while no
    recorded path lies under a. *)
Theorem Tree_matches_inside_segment :
  compTree Demo.siblingsObj = Ok ["a"; "ab"] /\
  exists n,
    @Decode Demo.externals Demo.siblings SHA2_256 (-1) = Ok n /\
    obj n = Demo.siblingsObj /\
    tree n = ["a"; "ab"] /\
    Tree n "a" (-1) = ["b"] /\
    TreeSpec n "a" (-1) = [].
Proof.
  split; [vm_compute; reflexivity|].
  eexists. split; [vm_compute; reflexivity|].
  repeat split; vm_compute; reflexivity.
Qed.

(* ------------------------------------------------------------------ *)
(** ** Resolve, beyond links *)

Section ResolveMore.
Context {E : Externals}.

(** The loop of [Resolve] follows a whole walk. *)
Lemma resolveFrom_walk (pre : list string) :
  forall cur v rest,
    walk cur pre = Some v ->
    resolveFrom cur (pre ++ rest) = resolveFrom v rest.
Proof.
  induction pre as [|seg pre IH]; intros cur v rest Hw.
  - simpl in Hw. injection Hw as ->. reflexivity.
  - simpl in Hw. destruct (child cur seg) as [next|] eqn:Hc; [|discriminate].
    change ((seg :: pre) ++ rest)%list with (seg :: (pre ++ rest))%list.
    rewrite (resolveFrom_child _ _ _ Hc). apply IH. exact Hw.
Qed.

(** A successful iteration either stopped at a link or made a step of the
    walk. *)
Lemma resolveFrom_step_inv (cur : Obj) (seg : string) (rest : list string)
      (r : Resolved * list string) :
  resolveFrom cur (seg :: rest) = Ok r ->
  (exists c, cur = OCid c /\ r = (RLink (mkLink c), seg :: rest)) \/
  (exists next, child cur seg = Some next /\ resolveFrom next rest = Ok r).
Proof.
  destruct cur; simpl; try discriminate.
  - intros H. injection H as <-. left. eauto.
  - destruct (Atoi seg) as [k|e]; [|discriminate].
    destruct ((k <? 0) || (k >=? Z.of_nat (List.length l))) eqn:Hr; [discriminate|].
    apply orb_false_iff in Hr. destruct Hr as [H0 H1].
    apply Z.ltb_ge in H0. rewrite Z.geb_leb in H1. apply Z.leb_gt in H1.
    intros H. right. exists (nth (Z.to_nat k) l ONil). split; [|exact H].
    replace ((0 <=? k) && (k <? Z.of_nat (List.length l))) with true
      by (symmetry; apply andb_true_iff; split; [apply Z.leb_le|apply Z.ltb_lt]; lia).
    apply nth_error_nth'. lia.
  - destruct (lookupS seg m) as [next|]; [|discriminate].
    intros H. right. eauto.
  - destruct (lookupI seg m) as [next|]; [|discriminate].
    intros H. right. eauto.
Qed.

Lemma resolveFrom_sound (p : list string) :
  forall cur r rest,
    resolveFrom cur p = Ok (r, rest) ->
    match r with
    | RLink l =>
        exists i, (i <= List.length p)%nat /\ rest = skipn i p /\
                  walk cur (firstn i p) = Some (OCid (linkCid l))
    | RVal j =>
        rest = [] /\ exists v, walk cur p = Some v /\ convertToJSONIsh v = Ok j
    end.
Proof.
  induction p as [|seg p IH]; intros cur r rest H.
  - assert (Hval : forall v, notLink v ->
              (j <- convertToJSONIsh v ;; Ok (RVal j, @nil string)) = Ok (r, rest) ->
              match r with
              | RLink l =>
                  exists i, (i <= 0)%nat /\ rest = skipn i [] /\
                            walk v (firstn i []) = Some (OCid (linkCid l))
              | RVal j => rest = [] /\ exists v', Some v = Some v' /\ convertToJSONIsh v' = Ok j
              end).
    { intros v _ Hb. invert_bind Hb. injection Hb as <- <-. eauto. }
    destruct cur; try (apply Hval; [exact I|exact H]).
    simpl in H. injection H as <- <-. exists O. simpl. auto.
  - apply resolveFrom_step_inv in H.
    destruct H as [(c & -> & Hr) | (next & Hc & Hn)].
    + injection Hr as -> ->. exists O. simpl. split; [lia|]. auto.
    + specialize (IH _ _ _ Hn). destruct r as [l|j].
      * destruct IH as (i & Hi & Hrest & Hw). exists (S i). simpl.
        rewrite Hc. split; [lia|]. auto.
      * destruct IH as (Hrest & v & Hw & Hj). split; [exact Hrest|].
        exists v. simpl. rewrite Hc. auto.
Qed.

Lemma Resolve_value_aux (n : Node) (p : list string) (v : Obj) :
  walk (obj n) p = Some v ->
  notLink v ->
  Resolve n p = (j <- convertToJSONIsh v ;; Ok (RVal j, [])).
Proof.
  intros Hw Hn. unfold Resolve.
  rewrite <- (app_nil_r p) at 1. erewrite resolveFrom_walk by exact Hw.
  destruct v; try contradiction; reflexivity.
Qed.

End ResolveMore.

(** X1.  Whenever [Resolve] succeeds its answer comes from a walk of the
    object: a returned link is the value the walk reaches after some number
    of the segments, the rest being the segments not consumed; a returned
    value is the JSON-ish form of the value the whole path reaches, with no
    segment left. *)
Theorem Resolve_sound (E : Externals) (n : Node) (p : list string)
        (r : Resolved) (rest : list string) :
  Resolve n p = Ok (r, rest) ->
  match r with
  | RLink l =>
      exists i, (i <= List.length p)%nat /\ rest = skipn i p /\
                walk (obj n) (firstn i p) = Some (OCid (linkCid l))
  | RVal j =>
      rest = [] /\ exists v, walk (obj n) p = Some v /\ convertToJSONIsh v = Ok j
  end.
Proof.
  unfold Resolve. apply resolveFrom_sound.
Qed.

Lemma Resolve_sound_witness :
  (exists i, (i <= 3)%nat /\ ["bop"] = skipn i ["baz"; "1"; "bop"] /\
             walk (obj Demo.linkNode) (firstn i ["baz"; "1"; "bop"]) = Some (OCid Demo.c2)) /\
  (@nil string = [] /\
   exists v, walk (obj Demo.linkNode) ["foo"] = Some v /\
             @convertToJSONIsh Demo.externals v = Ok (OStr "bar")).
Proof.
  split.
  - apply (@Resolve_sound Demo.externals Demo.linkNode ["baz"; "1"; "bop"]
             (RLink (mkLink Demo.c2)) ["bop"]).
    vm_compute. reflexivity.
  - apply (@Resolve_sound Demo.externals Demo.linkNode ["foo"] (RVal (OStr "bar")) []).
    vm_compute. reflexivity.
Defined.

(** X2.  A segment that is not a key of the map the walk has reached makes
    [Resolve] fail with [ErrNoSuchLink], at any depth and whatever
    follows. *)
Theorem Resolve_missing_key (E : Externals) (n : Node) (pre : list string) (v : Obj)
        (seg : string) (rest : list string) :
  walk (obj n) pre = Some v ->
  isMap v ->
  child v seg = None ->
  Resolve n (pre ++ seg :: rest)%list = Err ErrNoSuchLink.
Proof.
  intros Hw Hm Hc. unfold Resolve. erewrite resolveFrom_walk by exact Hw.
  destruct v; try contradiction; simpl in *; rewrite Hc; reflexivity.
Qed.

Lemma Resolve_missing_key_witness :
  @Resolve Demo.externals Demo.linkNode ["bar"; "0"] = Err ErrNoSuchLink.
Proof.
  apply (@Resolve_missing_key Demo.externals Demo.linkNode [] (obj Demo.linkNode)
           "bar" ["0"]); [reflexivity | exact I | reflexivity].
Defined.

(** X3.  At a slice, a segment that [strconv.Atoi] rejects makes [Resolve]
    fail with that error, and an index below zero or not below the length
    makes it fail with the out-of-range error. *)
Theorem Resolve_bad_index (E : Externals) (n : Node) (pre : list string) (l : list Obj)
        (seg : string) (rest : list string) :
  walk (obj n) pre = Some (OList l) ->
  (forall err, Atoi seg = Err err ->
     Resolve n (pre ++ seg :: rest)%list = Err err) /\
  (forall k, Atoi seg = Ok k -> k < 0 \/ Z.of_nat (List.length l) <= k ->
     Resolve n (pre ++ seg :: rest)%list = Err (ErrNew "array index out of range")).
Proof.
  intros Hw. unfold Resolve. erewrite resolveFrom_walk by exact Hw. split.
  - intros err Ha. simpl. rewrite Ha. reflexivity.
  - intros k Ha Hk. simpl. rewrite Ha.
    replace ((k <? 0) || (k >=? Z.of_nat (List.length l))) with true; [reflexivity|].
    symmetry. apply orb_true_iff. rewrite Z.geb_leb.
    destruct Hk; [left; apply Z.ltb_lt|right; apply Z.leb_le]; lia.
Qed.

Lemma Resolve_bad_index_witness :
  @Resolve Demo.externals Demo.linkNode ["baz"; "x1"]
    = Err (ErrNum "Atoi" "x1" false) /\
  @Resolve Demo.externals Demo.linkNode ["baz"; "2"; "bop"]
    = Err (ErrNew "array index out of range") /\
  @Resolve Demo.externals Demo.linkNode ["baz"; "-1"]
    = Err (ErrNew "array index out of range").
Proof.
  split; [|split].
  - apply (proj1 (@Resolve_bad_index Demo.externals Demo.linkNode ["baz"]
                    [OCid Demo.c1; OCid Demo.c2] "x1" [] eq_refl)).
    reflexivity.
  - apply (proj2 (@Resolve_bad_index Demo.externals Demo.linkNode ["baz"]
                    [OCid Demo.c1; OCid Demo.c2] "2" ["bop"] eq_refl) 2).
    + reflexivity.
    + right. simpl. lia.
  - apply (proj2 (@Resolve_bad_index Demo.externals Demo.linkNode ["baz"]
                    [OCid Demo.c1; OCid Demo.c2] "-1" [] eq_refl) (-1)).
    + reflexivity.
    + left. lia.
Defined.

(** X4.  A path that goes on after a value that is neither a map, nor a
    slice, nor a link makes [Resolve] fail. *)
Theorem Resolve_through_scalar (E : Externals) (n : Node) (pre : list string) (v : Obj)
        (seg : string) (rest : list string) :
  walk (obj n) pre = Some v ->
  isScalar v ->
  Resolve n (pre ++ seg :: rest)%list
  = Err (ErrNew "tried to resolve through object that had no links").
Proof.
  intros Hw Hs. unfold Resolve. erewrite resolveFrom_walk by exact Hw.
  destruct v; try contradiction; reflexivity.
Qed.

Lemma Resolve_through_scalar_witness :
  @Resolve Demo.externals Demo.linkNode ["foo"; "more"]
  = Err (ErrNew "tried to resolve through object that had no links").
Proof.
  apply (@Resolve_through_scalar Demo.externals Demo.linkNode ["foo"] (OStr "bar")
           "more" []); [reflexivity | exact I].
Defined.

(** X5.  When the whole path reaches a value that is not a link, [Resolve]
    returns the JSON-ish form of that value with no segment left, and fails
    only if that conversion fails. *)
Theorem Resolve_value (E : Externals) (n : Node) (p : list string) (v : Obj) :
  walk (obj n) p = Some v ->
  notLink v ->
  Resolve n p = (j <- convertToJSONIsh v ;; Ok (RVal j, [])).
Proof.
  apply Resolve_value_aux.
Qed.

Lemma Resolve_value_witness :
  @Resolve Demo.externals Demo.linkNode ["baz"]
  = Ok (RVal (OList [OCid Demo.c1; OCid Demo.c2]), []).
Proof.
  apply (@Resolve_value Demo.externals Demo.linkNode ["baz"]
           (OList [OCid Demo.c1; OCid Demo.c2])); [reflexivity | exact I].
Defined.

(** X6.  [ResolveLink] returns the link and the unconsumed segments when
    the walk reaches a link within the path, and fails with the non-link
    error, returning no link, when the whole path reaches a value that is
    not a link and has a JSON-ish form. *)
Theorem ResolveLink_link_or_error (E : Externals) (n : Node) (p : list string) :
  (forall i c, (i <= List.length p)%nat ->
     walk (obj n) (firstn i p) = Some (OCid c) ->
     ResolveLink n p = (Some (mkLink c), skipn i p, None)) /\
  (forall v j, walk (obj n) p = Some v -> notLink v -> convertToJSONIsh v = Ok j ->
     ResolveLink n p = (None, [], Some (ErrNew "found non-link at given path"))).
Proof.
  split.
  - intros i c Hi Hw. unfold ResolveLink, Resolve.
    rewrite <- (firstn_skipn i p) at 1. erewrite resolveFrom_walk by exact Hw.
    destruct (skipn i p); reflexivity.
  - intros v j Hw Hn Hj. unfold ResolveLink.
    rewrite (Resolve_value_aux n p Hw Hn), Hj. reflexivity.
Qed.

Lemma ResolveLink_link_or_error_witness :
  @ResolveLink Demo.externals Demo.linkNode ["baz"; "1"; "bop"]
    = (Some (mkLink Demo.c2), ["bop"], None) /\
  @ResolveLink Demo.externals Demo.linkNode ["foo"]
    = (None, [], Some (ErrNew "found non-link at given path")).
Proof.
  destruct (@ResolveLink_link_or_error Demo.externals Demo.linkNode ["baz"; "1"; "bop"])
    as [Hl _].
  destruct (@ResolveLink_link_or_error Demo.externals Demo.linkNode ["foo"])
    as [_ Hv].
  split.
  - apply (Hl 2%nat Demo.c2); [simpl; lia | reflexivity].
  - apply (Hv (OStr "bar") (OStr "bar")); [reflexivity | exact I | reflexivity].
Defined.

(* ------------------------------------------------------------------ *)
(** ** The JSON bridge *)

Section JSONFacts.
Context {E : Externals}.

Lemma convertToJSONIsh_list_inv (l : list Obj) (v' : Obj) :
  convertToJSONIsh (OList l) = Ok v' ->
  exists out, v' = OList out /\
              Forall2 (fun x y => convertToJSONIsh x = Ok y) l out.
Proof.
  simpl. intros H.
  match type of H with
  | match ?X with _ => _ end = _ => destruct X as [out|e] eqn:Hl; [|discriminate]
  end.
  injection H as <-. exists out. split; [reflexivity|].
  revert out Hl. induction l as [|x r IH]; intros out Hl.
  - injection Hl as <-. constructor.
  - destruct (convertToJSONIsh x) as [o|e] eqn:Hx; [|discriminate].
    match type of Hl with
    | match ?X with _ => _ end = _ => destruct X as [out'|e] eqn:Hr; [|discriminate]
    end.
    injection Hl as <-. constructor; [exact Hx|]. apply IH. reflexivity.
Qed.

Lemma convertToJSONIsh_list_intro (l out : list Obj) :
  Forall2 (fun x y => convertToJSONIsh x = Ok y) l out ->
  convertToJSONIsh (OList l) = Ok (OList out).
Proof.
  intros H. simpl.
  match goal with
  | |- match ?X with _ => _ end = _ => assert (Hl : X = Ok out)
  end.
  { induction H as [|x y l out Hx Hr IH]; [reflexivity|].
    rewrite Hx, IH. reflexivity. }
  rewrite Hl. reflexivity.
Qed.

Lemma convertToJSONIsh_jsonish_aux (v : Obj) :
  forall v', convertToJSONIsh v = Ok v' -> jsonish v' = true.
Proof.
  induction v as [ | b | n | f | s | bs | c | l IH | m IH | m IH ] using Obj_ind;
    intros v' H; try (injection H as <-; reflexivity).
  - apply convertToJSONIsh_list_inv in H. destruct H as (out & -> & Hall).
    simpl. induction Hall as [|x y l out Hx Hr IHr]; [reflexivity|].
    inversion IH as [|? ? Hx' Hr']; subst. simpl.
    rewrite (Hx' _ Hx). simpl. apply IHr. exact Hr'.
  - simpl in H.
    destruct (lookupI "/" m) as [lnk|]; [destruct (List.length m =? 1)%nat|].
    + destruct lnk; try discriminate.
      destruct (cidCast b); [|discriminate]. injection H as <-. reflexivity.
    + match type of H with
      | match ?X with _ => _ end = _ => destruct X; [|discriminate]
      end. injection H as <-. reflexivity.
    + match type of H with
      | match ?X with _ => _ end = _ => destruct X; [|discriminate]
      end. injection H as <-. reflexivity.
Qed.

Lemma convertToJSONIsh_fixed_aux (v : Obj) :
  jsonish v = true -> convertToJSONIsh v = Ok v.
Proof.
  induction v as [ | b | n | f | s | bs | c | l IH | m IH | m IH ] using Obj_ind;
    intros H; try reflexivity; try discriminate H.
  apply convertToJSONIsh_list_intro. simpl in H.
  induction l as [|x r IHr]; [constructor|].
  simpl in H. apply andb_true_iff in H. destruct H as [Hx Hr].
  inversion IH as [|? ? Hx' Hr']; subst.
  constructor; [apply Hx'; exact Hx|apply IHr; assumption].
Qed.

End JSONFacts.

(** X7.  What [convertToJSONIsh] returns has no
    [map[interface{}]interface{}] at its top or inside its slices, and
    converting it again returns it unchanged. *)
Theorem convertToJSONIsh_idempotent (E : Externals) (v v' : Obj) :
  convertToJSONIsh v = Ok v' ->
  jsonish v' = true /\ convertToJSONIsh v' = Ok v'.
Proof.
  intros H. pose proof (convertToJSONIsh_jsonish_aux _ H) as Hj.
  split; [exact Hj|]. apply convertToJSONIsh_fixed_aux. exact Hj.
Qed.

Lemma convertToJSONIsh_idempotent_witness :
  jsonish (OList [OMapS [("/", OCid Demo.c1)]; OMapS [("k", OInt 1)]]) = true /\
  @convertToJSONIsh Demo.externals (OList [OMapS [("/", OCid Demo.c1)]; OMapS [("k", OInt 1)]])
  = Ok (OList [OMapS [("/", OCid Demo.c1)]; OMapS [("k", OInt 1)]]).
Proof.
  apply (@convertToJSONIsh_idempotent Demo.externals
           (OList [OMapI [(OStr "/", OBytes [x01; x71; x01])]; OMapI [(OStr "k", OInt 1)]])).
  vm_compute. reflexivity.
Defined.

(** X8.  On a value with no [map[interface{}]interface{}] at its top or
    inside its slices, which is every value made of string-keyed maps,
    slices and scalars, [convertToJSONIsh] is the identity and cannot
    fail. *)
Theorem convertToJSONIsh_fixed (E : Externals) (v : Obj) :
  jsonish v = true -> convertToJSONIsh v = Ok v.
Proof.
  apply convertToJSONIsh_fixed_aux.
Qed.

Lemma convertToJSONIsh_fixed_witness :
  @convertToJSONIsh Demo.externals (obj Demo.linkNode) = Ok (obj Demo.linkNode).
Proof.
  apply (@convertToJSONIsh_fixed Demo.externals (obj Demo.linkNode)). reflexivity.
Defined.

Section SaneMapFacts.
Context {E : Externals}.

Lemma toSaneMap_nonStringKey (n : list (Obj * Obj)) :
  Exists nonStringKey n -> exists err, toSaneMap n = Err err.
Proof.
  intros Hex. unfold toSaneMap. simpl.
  assert (Hloop : forall k : result (list (string * Obj)) -> result Obj,
             (forall e, k (Err e) = Err e) ->
             exists err,
               k ((fix entries (n : list (Obj * Obj)) : result (list (string * Obj)) :=
                     match n with
                     | [] => Ok []
                     | (k, v) :: r =>
                         match k with
                         | OStr ks =>
                             match convertToJSONIsh v with
                             | Err err => Err err
                             | Ok o =>
                                 match entries r with
                                 | Err err => Err err
                                 | Ok out => Ok ((ks, o) :: out)
                                 end
                             end
                         | _ => Err (ErrNew "map keys must be strings")
                         end
                     end) n) = Err err).
  { induction Hex as [[k v] r Hk | [k v] r _ IH]; intros kont Hkont.
    - unfold nonStringKey in Hk. simpl in Hk.
      destruct k; try contradiction; rewrite Hkont; eauto.
    - destruct k; try (rewrite Hkont; eauto; fail).
      destruct (convertToJSONIsh v) as [o|e]; [|rewrite Hkont; eauto].
      apply (IH (fun res => kont match res with
                                 | Err err => Err err
                                 | Ok out => Ok ((s, o) :: out)
                                 end)).
      intros e. apply Hkont. }
  destruct (lookupI "/" n) as [lnk|] eqn:Hl;
    [destruct (List.length n =? 1)%nat eqn:Hlen|].
  - exfalso. destruct n as [|[k v] [|e2 r]]; try discriminate Hlen.
    inversion Hex as [? ? Hk|? ? Hk]; subst; [|inversion Hk].
    unfold nonStringKey in Hk. simpl in Hk, Hl.
    destruct k; try contradiction; discriminate Hl.
  - apply (Hloop (fun res => match res with
                             | Err err => Err err
                             | Ok out => Ok (OMapS out)
                             end)). reflexivity.
  - apply (Hloop (fun res => match res with
                             | Err err => Err err
                             | Ok out => Ok (OMapS out)
                             end)). reflexivity.
Qed.

End SaneMapFacts.

(** X9.  [toSaneMap] refuses every map that has a key that is not a
    string; a map whose only entry is keyed "/" must hold bytes there, and
    then becomes the one-entry map of the identifier those bytes cast to,
    failing when they do not cast. *)
Theorem toSaneMap_keys_and_links (E : Externals) :
  (forall n, Exists nonStringKey n -> exists err, toSaneMap n = Err err) /\
  (forall lnk, (forall b, lnk <> OBytes b) ->
     toSaneMap [(OStr "/", lnk)] = Err (ErrNew "link value should have been bytes")) /\
  (forall b,
     toSaneMap [(OStr "/", OBytes b)]
     = match cidCast b with
       | Ok c => Ok (OMapS [("/", OCid c)])
       | Err err => Err err
       end).
Proof.
  split; [exact toSaneMap_nonStringKey|]. split.
  - intros lnk Hl. unfold toSaneMap. simpl.
    destruct lnk; try reflexivity. exfalso. apply (Hl b). reflexivity.
  - intros b. unfold toSaneMap. simpl. destruct (cidCast b); reflexivity.
Qed.

Lemma toSaneMap_keys_and_links_witness :
  (exists err, @toSaneMap Demo.externals [(OStr "a", OInt 1); (OInt 2, OInt 3)] = Err err) /\
  @toSaneMap Demo.externals [(OStr "/", OStr "bafy")]
    = Err (ErrNew "link value should have been bytes").
Proof.
  destruct (toSaneMap_keys_and_links Demo.externals) as (Hkey & Hbytes & _).
  split.
  - apply Hkey. apply Exists_cons_tl. apply Exists_cons_hd. exact I.
  - apply Hbytes. discriminate.
Defined.

Section CborIshFacts.
Context {E : Externals}.

Lemma convertToCborIshObj_OList (l : list Obj) :
  convertToCborIshObj (OList l)
  = if (List.length l =? 0)%nat then Ok (OList l)
    else match cborIshElems l with
         | Err err => Err err
         | Ok out => Ok (OList out)
         end.
Proof. reflexivity. Qed.

Lemma cborIshElems_cons (x : Obj) (r : list Obj) :
  cborIshElems (x :: r)
  = match convertToCborIshObj x with
    | Err err => Err err
    | Ok o' =>
        match cborIshElems r with
        | Err err => Err err
        | Ok out => Ok (o' :: out)
        end
    end.
Proof. reflexivity. Qed.

Lemma cborIshElems_Forall2 (l out : list Obj) :
  cborIshElems l = Ok out <->
  Forall2 (fun x y => convertToCborIshObj x = Ok y) l out.
Proof.
  split.
  - revert out. induction l as [|x r IH]; intros out Hl.
    + injection Hl as <-. constructor.
    + rewrite cborIshElems_cons in Hl.
      destruct (convertToCborIshObj x) as [o|e] eqn:Hx; [|discriminate].
      destruct (cborIshElems r) as [out'|e] eqn:Hr; [|discriminate].
      injection Hl as <-. constructor; [exact Hx|]. apply IH. reflexivity.
  - induction 1 as [|x y l out Hx Hr IH]; [reflexivity|].
    rewrite cborIshElems_cons, Hx, IH. reflexivity.
Qed.

Lemma convertToCborIshObj_list_inv (l : list Obj) (o : Obj) :
  convertToCborIshObj (OList l) = Ok o ->
  exists out, o = OList out /\
              Forall2 (fun x y => convertToCborIshObj x = Ok y) l out.
Proof.
  rewrite convertToCborIshObj_OList. destruct l as [|x0 r0].
  - simpl. intros H. injection H as <-. exists []. split; [reflexivity|constructor].
  - change (List.length (x0 :: r0) =? 0)%nat with false. cbv iota.
    destruct (cborIshElems (x0 :: r0)) as [out|e] eqn:Hl; [|discriminate].
    intros H. injection H as <-. exists out. split; [reflexivity|].
    apply cborIshElems_Forall2. exact Hl.
Qed.

Lemma convertToCborIshObj_list_intro (l out : list Obj) :
  Forall2 (fun x y => convertToCborIshObj x = Ok y) l out ->
  convertToCborIshObj (OList l) = Ok (OList out).
Proof.
  intros H. rewrite convertToCborIshObj_OList.
  destruct H as [|x y l out Hx Hr]; [reflexivity|].
  change (List.length (x :: l) =? 0)%nat with false. cbv iota.
  rewrite (proj2 (cborIshElems_Forall2 (x :: l) (y :: out)));
    [reflexivity|constructor; assumption].
Qed.

Lemma convertToCborIshObj_idempotent_aux (i : Obj) :
  forall o, convertToCborIshObj i = Ok o -> convertToCborIshObj o = Ok o.
Proof.
  induction i as [ | b | n | f | s | bs | c | l IH | m IH | m IH ] using Obj_ind;
    intros o H; try (injection H as <-; reflexivity).
  - apply convertToCborIshObj_list_inv in H. destruct H as (out & -> & Hall).
    apply convertToCborIshObj_list_intro.
    induction Hall as [|x y l out Hx Hr IHr]; [constructor|].
    inversion IH as [|? ? Hx' Hr']; subst.
    constructor; [apply (Hx' _ Hx)|apply IHr; exact Hr'].
  - pose proof H as H0. simpl in H.
    destruct (List.length m =? 0)%nat; [injection H as <-; exact H0|].
    destruct (lookupS "/" m) as [lnk|];
      [destruct (List.length m =? 1)%nat|]; try (injection H as <-; exact H0).
    destruct lnk; try discriminate.
    destruct (cidDecode s) as [c|e]; [|discriminate].
    injection H as <-. reflexivity.
Qed.

End CborIshFacts.

(** X10.  [convertToCborIshObj] is idempotent: what it returns it returns
    unchanged when applied again, so a link it produced stays that link and
    an object or array it kept is kept. *)
Theorem convertToCborIshObj_idempotent (E : Externals) (i o : Obj) :
  convertToCborIshObj i = Ok o -> convertToCborIshObj o = Ok o.
Proof.
  apply convertToCborIshObj_idempotent_aux.
Qed.

Lemma convertToCborIshObj_idempotent_witness :
  @convertToCborIshObj Demo.externals
     (OList [OCid (CidV1 DagCBOR (list_byte_of_string "bafy")); OMapS [("a", OInt 1)]])
  = Ok (OList [OCid (CidV1 DagCBOR (list_byte_of_string "bafy")); OMapS [("a", OInt 1)]]).
Proof.
  apply (@convertToCborIshObj_idempotent Demo.externals
           (OList [OMapS [("/", OStr "bafy")]; OMapS [("a", OInt 1)]])).
  vm_compute. reflexivity.
Defined.

(* ------------------------------------------------------------------ *)
(** ** Tree and its depth *)

Lemma segments_positive (sub : string) : 1 <= segments sub.
Proof.
  unfold segments. pose proof (SplitSlash_nonempty sub) as H.
  destruct (SplitSlash sub); [contradiction|]. simpl. lia.
Qed.

Lemma treeEntry_depth_filter (p : string) (d d' : Z) (t : string) :
  0 <= d -> d' < 0 ->
  treeEntry p d t = filter (fun sub => segments sub <=? d) (treeEntry p d' t).
Proof.
  intros Hd Hd'. unfold treeEntry.
  destruct (negb (HasPrefix t p)); [reflexivity|]. cbv zeta.
  destruct (String.eqb (TrimLeftSlash (sliceFrom (String.length p) t)) "");
    [reflexivity|].
  replace (d <? 0) with false by (symmetry; apply Z.ltb_ge; lia).
  replace (d' <? 0) with true by (symmetry; apply Z.ltb_lt; lia).
  simpl. destruct (segments _ <=? d); reflexivity.
Qed.

(** X11.  [Tree] with depth 0 returns nothing, for every node and every
    path. *)
Theorem Tree_depth_zero (n : Node) (p : string) : Tree n p 0 = [].
Proof.
  rewrite Tree_flat_map. rewrite andb_false_r.
  induction (tree n) as [|t l IH]; [reflexivity|].
  simpl. rewrite IH, app_nil_r. unfold treeEntry.
  destruct (negb (HasPrefix t p)); [reflexivity|]. cbv zeta.
  destruct (String.eqb _ ""); [reflexivity|]. simpl.
  pose proof (segments_positive (TrimLeftSlash (sliceFrom (String.length p) t))) as H.
  replace (segments (TrimLeftSlash (sliceFrom (String.length p) t)) <=? 0) with false;
    [reflexivity|]. symmetry. apply Z.leb_gt. lia.
Qed.

(** X12.  A depth of zero or more only filters: [Tree(p, d)] is the
    listing [Tree] gives for a negative depth (any but the -1 of the
    whole-tree shortcut when the path is empty), restricted, in the same
    order, to the suffixes of at most [d] slash-separated segments. *)
Theorem Tree_depth_filter (n : Node) (p : string) (d d' : Z) :
  0 <= d -> d' < 0 -> (p = "" -> d' <> -1) ->
  Tree n p d = filter (fun sub => segments sub <=? d) (Tree n p d').
Proof.
  intros Hd Hd' Hfast. rewrite !Tree_flat_map.
  replace (d =? -1) with false by (symmetry; apply Z.eqb_neq; lia).
  rewrite andb_false_r.
  assert (Hslow : String.eqb p "" && (d' =? -1) = false).
  { destruct (String.eqb_spec p "") as [Hp|Hp]; [|reflexivity].
    simpl. apply Z.eqb_neq. auto. }
  rewrite Hslow.
  induction (tree n) as [|t l IH]; [reflexivity|].
  simpl. rewrite filter_app, <- IH, <- (treeEntry_depth_filter p t Hd Hd').
  reflexivity.
Qed.

Lemma Tree_depth_filter_witness :
  Tree Demo.linkNode "" 1
  = filter (fun sub => segments sub <=? 1) (Tree Demo.linkNode "" (-2)) /\
  Tree Demo.linkNode "" 1 = ["foo"; "baz"].
Proof.
  split; [|reflexivity].
  apply (@Tree_depth_filter Demo.linkNode "" 1 (-2)); [lia | lia | intros _; discriminate].
Defined.

(** X13.  On a node none of whose recorded paths has an empty segment, and
    for a prefix that the recorded paths continue only at a segment
    boundary, [Tree] returns exactly the recorded paths under the prefix,
    with the prefix and its slash stripped, all of them for a negative
    depth and those of at most [d] segments otherwise. *)
Theorem Tree_under_aligned_prefix (n : Node) (p : string) (d : Z) :
  Forall noEmptySegment (tree n) ->
  alignedPrefix p (tree n) ->
  Tree n p d = TreeSpec n p d.
Proof.
  apply Tree_refines_TreeSpec.
Qed.

Lemma Tree_under_aligned_prefix_witness :
  Tree Demo.linkNode "baz" (-1) = TreeSpec Demo.linkNode "baz" (-1) /\
  Tree Demo.linkNode "baz" (-1) = ["0"; "1"].
Proof.
  split; [|reflexivity].
  apply (@Tree_under_aligned_prefix Demo.linkNode "baz" (-1)).
  - repeat constructor; unfold noEmptySegment; simpl; intuition discriminate.
  - intros t Hin Hpre. simpl in Hin.
    destruct Hin as [<-|[<-|[<-|[<-|[]]]]]; try discriminate Hpre;
      [left; reflexivity | right; reflexivity | right; reflexivity].
Defined.

(* ------------------------------------------------------------------ *)
(** ** Nodes as blocks, and wrapping again *)

Section NodeRoundTrips.
Context {E : Externals}.



End NodeRoundTrips.





(** X16.  Decoding bytes that are the engine's own encoding of some object
    keeps them: with a CBOR engine that re-encodes its own output stably,
    the node [Decode] returns for such bytes has exactly those bytes, and
    its identifier is the version-1 DagCBOR identifier over their hash. *)
Theorem Decode_keeps_canonical_bytes (E : Externals) (Hcodec : canonicalCodec E)
        (m : Obj) (b : bytes) (t l : Z) (n : Node) :
  DumpObject m = Ok b ->
  Decode b t l = Ok n ->
  RawData n = b /\
  exists hash, mhSum b (if t =? MaxUint64 then SHA2_256 else t) l = Ok hash /\
               NodeCid n = NewCidV1 DagCBOR hash.
Proof.
  intros Hdump H. apply Decode_inv in H. destruct H as (m' & Hdec & Hw).
  pose proof (Hcodec _ _ _ Hdump Hdec) as Hstable.
  apply WrapObject_cid in Hw. destruct Hw as (data & h & Hd & Hs & Hr & Hc).
  rewrite Hstable in Hd. injection Hd as <-.
  split; [exact Hr|]. exists h. auto.
Qed.

Lemma Decode_keeps_canonical_bytes_witness :
  exists n,
    @Decode Demo.externals Demo.nested SHA2_256 (-1) = Ok n /\
    RawData n = Demo.nested /\
    exists hash, @mhSum Demo.externals Demo.nested SHA2_256 (-1) = Ok hash /\
                 NodeCid n = NewCidV1 DagCBOR hash.
Proof.
  eexists. split; [vm_compute; reflexivity|].
  apply (@Decode_keeps_canonical_bytes Demo.externals Demo_canonical
           (OMapS [("a", OMapS [("c", OInt 2); ("b", OInt 1)])]) Demo.nested SHA2_256 (-1));
    vm_compute; reflexivity.
Defined.

(* ------------------------------------------------------------------ *)
(** ** What the traversal computes *)

Lemma traverse_OMapS (St : Type) (cb : string -> Obj -> St -> result St)
      (m : list (string * Obj)) (cur : string) (st : St) :
  traverse cb (OMapS m) cur st =
  match cb cur (OMapS m) st with
  | Err e => Err e
  | Ok st1 => traverseEntries cb cur m st1
  end.
Proof. reflexivity. Qed.

Lemma traverse_OMapI (St : Type) (cb : string -> Obj -> St -> result St)
      (m : list (Obj * Obj)) (cur : string) (st : St) :
  traverse cb (OMapI m) cur st =
  match cb cur (OMapI m) st with
  | Err e => Err e
  | Ok st1 => traverseKeyed cb cur m st1
  end.
Proof. reflexivity. Qed.

Lemma traverse_OList (St : Type) (cb : string -> Obj -> St -> result St)
      (l : list Obj) (cur : string) (st : St) :
  traverse cb (OList l) cur st =
  match cb cur (OList l) st with
  | Err e => Err e
  | Ok st1 => traverseElems cb cur l O st1
  end.
Proof. reflexivity. Qed.

Lemma traverseEntries_cons (St : Type) (cb : string -> Obj -> St -> result St)
      (cur k : string) (v : Obj) (r : list (string * Obj)) (st : St) :
  traverseEntries cb cur ((k, v) :: r) st =
  match traverse cb v (cur ++ "/" ++ k) st with
  | Err e => Err e
  | Ok st' => traverseEntries cb cur r st'
  end.
Proof. reflexivity. Qed.

Lemma traverseKeyed_cons (St : Type) (cb : string -> Obj -> St -> result St)
      (cur ks : string) (v : Obj) (r : list (Obj * Obj)) (st : St) :
  traverseKeyed cb cur ((OStr ks, v) :: r) st =
  match traverse cb v (cur ++ "/" ++ ks) st with
  | Err e => Err e
  | Ok st' => traverseKeyed cb cur r st'
  end.
Proof. reflexivity. Qed.

Lemma traverseElems_cons (St : Type) (cb : string -> Obj -> St -> result St)
      (cur : string) (v : Obj) (r : list Obj) (i : nat) (st : St) :
  traverseElems cb cur (v :: r) i st =
  match traverse cb v (cur ++ "/" ++ itoa i) st with
  | Err e => Err e
  | Ok st' => traverseElems cb cur r (S i) st'
  end.
Proof. reflexivity. Qed.

Section TraverseFailure.
Variable St : Type.
Variable cb : string -> Obj -> St -> result St.
Hypothesis cb_total : forall name o st, exists st', cb name o st = Ok st'.

(** With a callback that never fails, an object with a key that is not a
    string makes [traverse] fail, with the error of that key. *)
Lemma traverse_nonstring_key (o : Obj) :
  stringKeyed o = false ->
  forall cur st, traverse cb o cur st = Err (ErrNew "map key was not a string").
Proof.
  induction o as [ | b | n | f | s | bs | c | l IH | m IH | m IH ] using Obj_ind;
    intros Hk cur st; try discriminate Hk.
  - (* OList *)
    rewrite traverse_OList. destruct (cb_total cur (OList l) st) as [st1 ->].
    simpl in Hk. generalize O as i. revert st1.
    induction l as [|v r IHr]; intros st1 i; [discriminate Hk|].
    inversion IH as [|? ? Hv Hr]; subst.
    rewrite traverseElems_cons. simpl in Hk.
    destruct (stringKeyed v) eqn:Ev.
    + destruct (@traverse_total St cb cb_total v Ev (cur ++ "/" ++ itoa i) st1) as [st2 ->].
      apply IHr; assumption.
    + rewrite (Hv eq_refl). reflexivity.
  - (* OMapS *)
    rewrite traverse_OMapS. destruct (cb_total cur (OMapS m) st) as [st1 ->].
    simpl in Hk. revert st1.
    induction m as [|[k v] r IHr]; intros st1; [discriminate Hk|].
    inversion IH as [|? ? Hv Hr]; subst. simpl in Hv.
    rewrite traverseEntries_cons. simpl in Hk.
    destruct (stringKeyed v) eqn:Ev.
    + destruct (@traverse_total St cb cb_total v Ev (cur ++ "/" ++ k) st1) as [st2 ->].
      apply IHr; assumption.
    + rewrite (Hv eq_refl). reflexivity.
  - (* OMapI *)
    rewrite traverse_OMapI. destruct (cb_total cur (OMapI m) st) as [st1 ->].
    simpl in Hk. revert st1.
    induction m as [|[k v] r IHr]; intros st1; [discriminate Hk|].
    inversion IH as [|? ? Hv Hr]; subst. simpl in Hv. destruct Hv as [_ Hv].
    simpl in Hk.
    destruct k as [ | | | | ks | | | | | ]; try reflexivity.
    rewrite traverseKeyed_cons.
    destruct (stringKeyed v) eqn:Ev.
    + destruct (@traverse_total St cb cb_total v Ev (cur ++ "/" ++ ks) st1) as [st2 ->].
      apply IHr; assumption.
    + rewrite (Hv eq_refl). reflexivity.
Qed.

End TraverseFailure.

Lemma treeCb_total (name : string) (o : Obj) (st : list string) :
  exists st', treeCb name o st = Ok st'.
Proof. unfold treeCb. eauto. Qed.

Lemma linkCb_total (name : string) (o : Obj) (st : list Link) :
  exists st', linkCb name o st = Ok st'.
Proof. unfold linkCb. eauto. Qed.

Lemma compTree_nonstring_key (o : Obj) :
  stringKeyed o = false -> compTree o = Err (ErrNew "map key was not a string").
Proof.
  intros H. exact (@traverse_nonstring_key _ treeCb treeCb_total o H "" []).
Qed.

(** The links, in the order of the traversal. *)
Lemma traverse_linkCb (o : Obj) :
  stringKeyed o = true ->
  forall cur out, traverse linkCb o cur out = Ok (out ++ linksOf o)%list.
Proof.
  induction o as [ | b | n | f | s | bs | c | l IH | m IH | m IH ] using Obj_ind;
    intros Hk cur out;
    try (simpl; rewrite ?app_nil_r; reflexivity).
  - (* OList *)
    rewrite traverse_OList.
    change (linkCb cur (OList l) out) with (Ok (A:=list Link) out).
    simpl in Hk. simpl linksOf. generalize O as i. revert out.
    induction l as [|v r IHr]; intros out i; [simpl; rewrite app_nil_r; reflexivity|].
    inversion IH as [|? ? Hv Hr]; subst.
    simpl in Hk. apply andb_true_iff in Hk. destruct Hk as [Ev Er].
    rewrite traverseElems_cons, (Hv Ev). rewrite (IHr Hr Er).
    simpl flat_map. rewrite app_assoc. reflexivity.
  - (* OMapS *)
    rewrite traverse_OMapS.
    change (linkCb cur (OMapS m) out) with (Ok (A:=list Link) out).
    simpl in Hk. simpl linksOf. revert out.
    induction m as [|[k v] r IHr]; intros out; [simpl; rewrite app_nil_r; reflexivity|].
    inversion IH as [|? ? Hv Hr]; subst. simpl in Hv.
    simpl in Hk. apply andb_true_iff in Hk. destruct Hk as [Ev Er].
    rewrite traverseEntries_cons, (Hv Ev). rewrite (IHr Hr Er).
    simpl flat_map. rewrite app_assoc. reflexivity.
  - (* OMapI *)
    rewrite traverse_OMapI.
    change (linkCb cur (OMapI m) out) with (Ok (A:=list Link) out).
    simpl in Hk. simpl linksOf. revert out.
    induction m as [|[k v] r IHr]; intros out; [simpl; rewrite app_nil_r; reflexivity|].
    inversion IH as [|? ? Hv Hr]; subst. simpl in Hv. destruct Hv as [_ Hv].
    simpl in Hk. apply andb_true_iff in Hk. destruct Hk as [Ev Er].
    destruct k as [ | | | | ks | | | | | ]; try discriminate Ev.
    rewrite traverseKeyed_cons, (Hv Ev). rewrite (IHr Hr Er).
    simpl flat_map. rewrite app_assoc. reflexivity.
Qed.

Lemma compLinks_linksOf (o : Obj) :
  stringKeyed o = true -> compLinks o = Ok (linksOf o).
Proof.
  intros H. exact (@traverse_linkCb o H "" []).
Qed.

Lemma curOf_child (w : option string) (k : string) :
  curOf w ++ "/" ++ k = curOf (Some (childOf w k)).
Proof.
  destruct w as [c|]; simpl; [|reflexivity].
  reflexivity.
Qed.

Lemma childOf_child (w : option string) (k p : string) :
  childOf (Some (childOf w k)) p = childOf w (k ++ "/" ++ p).
Proof.
  destruct w as [c|]; simpl; [|reflexivity].
  rewrite append_assoc. reflexivity.
Qed.

Lemma treeCb_here (w : option string) (o : Obj) (out : list string) :
  treeCb (curOf w) o out = Ok (out ++ here w)%list.
Proof.
  destruct w as [c|]; unfold treeCb; simpl.
  - destruct c; reflexivity.
  - rewrite app_nil_r. reflexivity.
Qed.

Lemma map_childOf_under (w : option string) (k : string) (ps : list string) :
  map (childOf w) (under k ps) =
  (here (Some (childOf w k)) ++ map (childOf (Some (childOf w k))) ps)%list.
Proof.
  unfold under. simpl. f_equal. rewrite map_map.
  apply map_ext. intros p. symmetry. apply childOf_child.
Qed.

Lemma flat_map_head (A B : Type) (f : A -> list B) (x : A) (r : list A) :
  flat_map f (x :: r) = (f x ++ flat_map f r)%list.
Proof. reflexivity. Qed.

Lemma flat_mapi_cons (A B : Type) (f : nat -> A -> list B) (i : nat) (x : A) (r : list A) :
  flat_mapi f i (x :: r) = (f i x ++ flat_mapi f (S i) r)%list.
Proof. reflexivity. Qed.

(** The paths, in the order of the traversal: the path of the value itself
    unless it is the root, then those of its children. *)
Lemma traverse_treeCb (o : Obj) :
  stringKeyed o = true ->
  forall w out,
    traverse treeCb o (curOf w) out =
    Ok (out ++ here w ++ map (childOf w) (pathsOf o))%list.
Proof.
  induction o as [ | b | n | f | s | bs | c | l IH | m IH | m IH ] using Obj_ind;
    intros Hk w out;
    try (change (traverse treeCb ?x (curOf w) out) with (treeCb (curOf w) x out);
         rewrite treeCb_here; simpl; rewrite app_nil_r; reflexivity).
  - (* OList *)
    rewrite traverse_OList, treeCb_here, app_assoc.
    simpl in Hk. simpl pathsOf. generalize (out ++ here w)%list as st. generalize O as i.
    clear out.
    induction l as [|v r IHr]; intros i st; [simpl; rewrite app_nil_r; reflexivity|].
    inversion IH as [|? ? Hv Hr]; subst.
    simpl in Hk. apply andb_true_iff in Hk. destruct Hk as [Ev Er].
    rewrite traverseElems_cons, curOf_child, (Hv Ev). rewrite (IHr Hr Er).
    rewrite flat_mapi_cons, map_app, map_childOf_under, !app_assoc. reflexivity.
  - (* OMapS *)
    rewrite traverse_OMapS, treeCb_here, app_assoc.
    simpl in Hk. simpl pathsOf. generalize (out ++ here w)%list as st. clear out.
    induction m as [|[k v] r IHr]; intros st; [simpl; rewrite app_nil_r; reflexivity|].
    inversion IH as [|? ? Hv Hr]; subst. simpl in Hv.
    simpl in Hk. apply andb_true_iff in Hk. destruct Hk as [Ev Er].
    rewrite traverseEntries_cons, curOf_child, (Hv Ev). rewrite (IHr Hr Er).
    rewrite flat_map_head; cbn [fst snd].
    rewrite map_app, map_childOf_under, !app_assoc. reflexivity.
  - (* OMapI *)
    rewrite traverse_OMapI, treeCb_here, app_assoc.
    simpl in Hk. simpl pathsOf. generalize (out ++ here w)%list as st. clear out.
    induction m as [|[k v] r IHr]; intros st; [simpl; rewrite app_nil_r; reflexivity|].
    inversion IH as [|? ? Hv Hr]; subst. simpl in Hv. destruct Hv as [_ Hv].
    simpl in Hk. apply andb_true_iff in Hk. destruct Hk as [Ev Er].
    destruct k as [ | | | | ks | | | | | ]; try discriminate Ev.
    rewrite traverseKeyed_cons, curOf_child, (Hv Ev). rewrite (IHr Hr Er).
    rewrite flat_map_head; cbn [fst snd].
    rewrite map_app, map_childOf_under, !app_assoc. reflexivity.
Qed.

Lemma compTree_pathsOf (o : Obj) :
  stringKeyed o = true -> compTree o = Ok (pathsOf o).
Proof.
  intros H. pose proof (@traverse_treeCb o H None []) as Ht.
  simpl in Ht. rewrite map_id in Ht. exact Ht.
Qed.

(** X17.  A key that is not a string, anywhere inside an object, makes
    [compTree] and [compLinks] fail on it, both with the error of that
    key. *)
Theorem compTree_compLinks_nonstring_key (o : Obj) :
  stringKeyed o = false ->
  compTree o = Err (ErrNew "map key was not a string") /\
  compLinks o = Err (ErrNew "map key was not a string").
Proof.
  intros Hk. split.
  - exact (compTree_nonstring_key o Hk).
  - exact (@traverse_nonstring_key _ linkCb linkCb_total o Hk "" []).
Qed.

Lemma compTree_compLinks_nonstring_key_witness :
  compTree (OMapS [("a", OList [OStr "x"; OMapI [(OStr "k", OInt 0); (OInt 1, OInt 2)]])])
  = Err (ErrNew "map key was not a string") /\
  compLinks (OMapS [("a", OList [OStr "x"; OMapI [(OStr "k", OInt 0); (OInt 1, OInt 2)]])])
  = Err (ErrNew "map key was not a string").
Proof.
  apply (@compTree_compLinks_nonstring_key
           (OMapS [("a", OList [OStr "x"; OMapI [(OStr "k", OInt 0); (OInt 1, OInt 2)]])])).
  reflexivity.
Defined.

(** X18.  The tree [compTree] records is the list of the paths inside the
    object: for every entry of a map and every element of a slice, in
    order, its key or decimal index, followed by the paths of its value
    prefixed with that name and a slash. *)
Theorem compTree_is_pathsOf (o : Obj) :
  stringKeyed o = true -> compTree o = Ok (pathsOf o).
Proof.
  apply compTree_pathsOf.
Qed.

Lemma compTree_is_pathsOf_witness :
  compTree Demo.linkObj = Ok (pathsOf Demo.linkObj) /\
  pathsOf Demo.linkObj = ["foo"; "baz"; "baz/0"; "baz/1"].
Proof.
  split; [|reflexivity].
  apply (@compTree_is_pathsOf Demo.linkObj). reflexivity.
Defined.

(** X19.  The links [compLinks] records are the identifiers inside the
    object, in the order of the traversal: a value before its children, the
    entries of a map and the elements of a slice in order.  Identifiers
    used as keys are not among them. *)
Theorem compLinks_is_linksOf (o : Obj) :
  stringKeyed o = true -> compLinks o = Ok (linksOf o).
Proof.
  apply compLinks_linksOf.
Qed.

Lemma compLinks_is_linksOf_witness :
  compLinks Demo.linkObj = Ok (linksOf Demo.linkObj) /\
  linksOf Demo.linkObj = [mkLink Demo.c1; mkLink Demo.c2].
Proof.
  split; [|reflexivity].
  apply (@compLinks_is_linksOf Demo.linkObj). reflexivity.
Defined.



(* ------------------------------------------------------------------ *)
(** ** The in-memory block store *)

Lemma cid_eqb_refl (c : Cid) : cid_eqb c c = true.
Proof. unfold cid_eqb. destruct (Cid_eq_dec c c); [reflexivity|contradiction]. Qed.

Lemma cid_eqb_neq (x y : Cid) : x <> y -> cid_eqb x y = false.
Proof. intros H. unfold cid_eqb. destruct (Cid_eq_dec x y); [contradiction|reflexivity]. Qed.

Lemma cid_eqb_eq (x y : Cid) : cid_eqb x y = true -> x = y.
Proof. unfold cid_eqb. destruct (Cid_eq_dec x y); [auto|discriminate]. Qed.

Lemma mockLookup_mockStore_same (c : Cid) (b : Block) (mb : mockBlocks) :
  mockLookup c (mockStore c b mb) = Some b.
Proof.
  induction mb as [|[c' d] r IH]; simpl.
  - rewrite cid_eqb_refl. reflexivity.
  - destruct (cid_eqb c' c) eqn:Ec; simpl.
    + rewrite cid_eqb_refl. reflexivity.
    + rewrite Ec. exact IH.
Qed.

Lemma mockLookup_mockStore_other (c c' : Cid) (b : Block) (mb : mockBlocks) :
  c' <> c -> mockLookup c' (mockStore c b mb) = mockLookup c' mb.
Proof.
  intros Hne. induction mb as [|[c0 d] r IH]; simpl.
  - rewrite (@cid_eqb_neq c c'); [reflexivity|congruence].
  - destruct (cid_eqb c0 c) eqn:Ec; simpl.
    + apply cid_eqb_eq in Ec. subst c0.
      rewrite (@cid_eqb_neq c c'); [reflexivity|congruence].
    + destruct (cid_eqb c0 c'); [reflexivity|exact IH].
Qed.

(** X21.  The in-memory block store is a map from identifiers to blocks:
    after [Put] of a block, [Get] of the block's identifier returns that
    block, also when another block was stored under the identifier before;
    [Get] of any other identifier answers as it did before the [Put]; and
    [Get] leaves the store as it is. *)
Theorem mockBlocks_put_get (b : Block) (mb : mockBlocks) :
  fst (mockGet (blockCid b) (snd (mockPut b mb))) = Ok b /\
  (forall c, c <> blockCid b ->
             fst (mockGet c (snd (mockPut b mb))) = fst (mockGet c mb)) /\
  (forall c, snd (mockGet c mb) = mb).
Proof.
  unfold mockGet, mockPut. simpl. split; [|split].
  - rewrite mockLookup_mockStore_same. reflexivity.
  - intros c Hne. rewrite (mockLookup_mockStore_other b mb Hne).
    destruct (mockLookup c mb); reflexivity.
  - intros c. destruct (mockLookup c mb); reflexivity.
Qed.

Lemma mockBlocks_put_get_witness :
  fst (mockGet Demo.c1 (snd (mockPut (mkBlock [x09] Demo.c1) Demo.threeOfFour)))
  = Ok (mkBlock [x09] Demo.c1) /\
  fst (mockGet Demo.c2 (snd (mockPut (mkBlock [x09] Demo.c1) Demo.threeOfFour)))
  = Ok (mkBlock [x02] Demo.c2).
Proof.
  destruct (mockBlocks_put_get (mkBlock [x09] Demo.c1) Demo.threeOfFour) as (H1 & H2 & _).
  split; [exact H1|].
  rewrite (H2 Demo.c2); [reflexivity|discriminate].
Defined.

(* ------------------------------------------------------------------ *)
(** ** Put and Get *)

Ltac put_failed :=
  left; split; [reflexivity | split; [reflexivity | discriminate]].

Ltac put_called H :=
  match type of H with
  | context [blocksPut ?bs ?blk ?s0] =>
      let Hput := fresh "Hput" in
      destruct (blocksPut bs blk s0) as [[?e|] ?st] eqn:Hput;
      simpl in H; injection H as <- <- <-;
      right; exists blk; (split; [|split; [exact Hput|reflexivity]])
  end.

Section PutFacts.
Context {E : Externals}.
Variable B : Type.
Variable s : BasicIpldStore B.

(** The ways out of [Put]: before the block store is called, with an error
    and the store untouched; or after one call of [Blocks.Put] on a block
    holding the bytes of the value, with the error of that call. *)
Lemma Put_inv (v : Value) (st st' : B) (c : Cid) (err : option error) :
  Put s v st = ((c, err), st') ->
  (c = Undef /\ st' = st /\ err <> None) \/
  (exists blk,
      serializesTo v (blockRawData blk) /\
      blocksPut (Blocks s) blk st = (err, st') /\
      c = match err with None => blockCid blk | Some _ => Undef end).
Proof.
  unfold Put, serializesTo. intros H.
  destruct (asCidProvider v) as [c0|]; cbv zeta beta iota in H;
    destruct (asCBORMarshaler v) as [[buf|e]|].
  all: try (injection H as <- <- <-; put_failed).
  all: try (match type of H with
            | context [prefixSum ?p ?bf] => destruct (prefixSum p bf) as [c1|e1]
            end;
            [ unfold NewBlockWithCid in H; put_called H; reflexivity
            | injection H as <- <- <-; put_failed ]).
  all: match type of H with
       | context [WrapObject ?o ?t ?l] =>
           destruct (WrapObject o t l) as [nd|e1] eqn:Hw
       end;
    [ put_called H;
      apply WrapObject_cid in Hw; destruct Hw as (data & h & Hd & _ & Hr & _);
      simpl; rewrite Hr; exact Hd
    | injection H as <- <- <-; put_failed ].
Qed.

End PutFacts.

(** X22.  [Put] calls the block store at most once, and an error leaves no
    identifier: either it fails before the call, with [cid.Undef] and the
    store untouched, or it calls [Blocks.Put] once, on a block holding the
    bytes of the value, and then returns that call's error with
    [cid.Undef], or no error with the identifier of the block. *)
Theorem Put_outcome (E : Externals) (B : Type) (s : BasicIpldStore B)
        (v : Value) (st st' : B) (c : Cid) (err : option error) :
  Put s v st = ((c, err), st') ->
  (c = Undef /\ st' = st /\ err <> None) \/
  (exists blk,
      serializesTo v (blockRawData blk) /\
      blocksPut (Blocks s) blk st = (err, st') /\
      c = match err with None => blockCid blk | Some _ => Undef end).
Proof.
  apply Put_inv.
Qed.

Lemma Put_outcome_witness :
  exists blk,
    @serializesTo Demo.externals (Demo.plain 1) (blockRawData blk) /\
    blocksPut (Blocks Demo.basicStore) blk newMockBlocks
    = (None, [(Demo.c1, mkBlock [x01] Demo.c1)]) /\
    Demo.c1 = blockCid blk.
Proof.
  destruct (@Put_outcome Demo.externals mockBlocks Demo.basicStore (Demo.plain 1)
              newMockBlocks [(Demo.c1, mkBlock [x01] Demo.c1)] Demo.c1 None)
    as [(_ & _ & H) | H]; [vm_compute; reflexivity | contradiction | exact H].
Defined.

(** X23.  After a [Put] on the in-memory store that returned an
    identifier, [Get] of that identifier finds the block and decodes, into
    the destination it is given, exactly the bytes [Put] made of the
    value. *)
Theorem Put_then_Get (E : Externals) (v : Value) (out : Dest)
        (mb mb' : mockBlocks) (c : Cid) :
  Put (ipldStore NewMemCborStore) v mb = ((c, None), mb') ->
  exists data,
    serializesTo v data /\
    Get NewMemCborStore c out mb' = (decode (ipldStore NewMemCborStore) data out, mb').
Proof.
  intros H. apply Put_inv in H.
  destruct H as [(_ & _ & H) | (blk & Hser & Hput & Hc)]; [contradiction|].
  exists (blockRawData blk). split; [exact Hser|].
  simpl in Hput. unfold mockPut in Hput. injection Hput as <-.
  unfold Get. simpl. unfold mockGet. subst c.
  rewrite mockLookup_mockStore_same. reflexivity.
Qed.

Lemma Put_then_Get_witness :
  exists data,
    @serializesTo Demo.externals (Demo.plain 1) data /\
    @Get Demo.externals mockBlocks NewMemCborStore Demo.c1 Demo.emptyDest
         [(Demo.c1, mkBlock [x01] Demo.c1)]
    = (@decode Demo.externals mockBlocks (ipldStore NewMemCborStore) data Demo.emptyDest,
       [(Demo.c1, mkBlock [x01] Demo.c1)]).
Proof.
  apply (@Put_then_Get Demo.externals (Demo.plain 1) Demo.emptyDest newMockBlocks).
  vm_compute. reflexivity.
Defined.

(* ------------------------------------------------------------------ *)
(** ** More blocks than destinations *)

Section WorkerBounds.
Context {E : Externals}.
Variable B : Type.
Variable s : BasicIpldStore B.

Lemma getManyWorker_crash (blks : list Block) :
  forall (pre outs : list Dest) (sent : list Cursor),
    (List.length outs < List.length blks)%nat ->
    exists sent' outs',
      getManyWorker s blks (List.length pre) (pre ++ outs)%list sent
        = Crashed (sent ++ sent')%list (pre ++ outs')%list /\
      List.length sent' = List.length outs /\
      List.length outs' = List.length outs.
Proof.
  induction blks as [|blk r IH]; intros pre outs sent Hlen; [simpl in Hlen; lia|].
  destruct outs as [|out outs_r].
  - exists [], []. simpl getManyWorker.
    assert (Hnone : nth_error (pre ++ [])%list (List.length pre) = None).
    { apply nth_error_None. rewrite app_nil_r. lia. }
    rewrite Hnone, !app_nil_r. auto.
  - simpl in Hlen. simpl getManyWorker.
    rewrite nth_error_app_here.
    destruct (decode s (blockRawData blk) out) as [out' err] eqn:Hdec.
    rewrite setNth_app.
    specialize (IH (pre ++ [out'])%list outs_r
                   (sent ++ [mkCursor (blockCid blk) (Z.of_nat (List.length pre)) err])%list).
    destruct IH as (sent' & outs' & Hrun & Hls & Hlo); [lia|].
    rewrite length_app in Hrun. simpl in Hrun.
    replace (List.length pre + 1)%nat with (S (List.length pre)) in Hrun by lia.
    rewrite <- !app_assoc in Hrun. simpl in Hrun.
    exists (mkCursor (blockCid blk) (Z.of_nat (List.length pre)) err :: sent'), (out' :: outs').
    split; [exact Hrun|]. simpl. split; congruence.
Qed.

End WorkerBounds.

(** X24.  [GetMany] does not check the answer of the backing store against
    the destinations: when the store answers with more blocks than there
    are destinations, the goroutine sends one cursor for each destination
    and then indexes [outs] out of range, so the channel is never
    closed. *)
Theorem GetMany_more_blocks_than_outs (E : Externals) (B : Type)
        (b : BatchOpIpldStore B) (cs : list Cid) (outs : list Dest) (st st' : B)
        (blks : list Block) (missing : list Cid) :
  List.length cs = List.length outs ->
  batchGetMany (BatchOps b) cs st = (Ok (blks, missing), st') ->
  (List.length outs < List.length blks)%nat ->
  exists sent outs',
    GetMany b cs outs st = (Ok (Crashed sent outs', missing), st') /\
    List.length sent = List.length outs.
Proof.
  intros Hlen Hget Hmore. unfold GetMany.
  rewrite Hlen, Nat.eqb_refl. simpl. rewrite Hget.
  destruct (@getManyWorker_crash E B (basic b) blks [] outs [] Hmore)
    as (sent & outs' & Hrun & Hls & _).
  simpl in Hrun. exists sent, outs'. rewrite Hrun. auto.
Qed.

Lemma GetMany_more_blocks_than_outs_witness :
  exists sent outs',
    @GetMany Demo.externals mockBlocks Demo.eagerStore [Demo.c1] [Demo.emptyDest]
             Demo.threeOfFour
    = (Ok (Crashed sent outs', []), Demo.threeOfFour) /\
    List.length sent = 1%nat.
Proof.
  apply (@GetMany_more_blocks_than_outs Demo.externals mockBlocks Demo.eagerStore
           [Demo.c1] [Demo.emptyDest] Demo.threeOfFour Demo.threeOfFour
           (map snd Demo.threeOfFour) []).
  - reflexivity.
  - reflexivity.
  - vm_compute. lia.
Defined.

(* ------------------------------------------------------------------ *)
(** ** The hash parameters of PutMany *)

Section PutManyParams.
Context {E : Externals}.

Lemma putManyStep_vars (vars vars' : PutManyVars) (v : Value) (c : Cid) (blk : Block) :
  putManyStep vars v = Ok (c, blk, vars') -> vars' = carried vars [v].
Proof.
  unfold putManyStep, carried. simpl.
  destruct (asCidProvider v) as [c0|];
    (destruct (asCBORMarshaler v) as [[buf|e]|]; [| discriminate |]).
  all: intros H; invert_bind H; try invert_bind H;
    match type of H with
    | (if ?g then _ else _) = _ => destruct g; [discriminate|]
    end; injection H as _ _ <-; reflexivity.
Qed.

Lemma carried_app (vars : PutManyVars) (pre r : list Value) :
  carried vars (pre ++ r)%list = carried (carried vars pre) r.
Proof. unfold carried. apply fold_left_app. Qed.

Lemma putManyLoop_at (pre : list Value) :
  forall vars v r cids blocks,
    putManyLoop vars (pre ++ v :: r)%list = Ok (cids, blocks) ->
    exists c blk vars',
      putManyStep (carried vars pre) v = Ok (c, blk, vars') /\
      nth_error cids (List.length pre) = Some c /\
      nth_error blocks (List.length pre) = Some blk.
Proof.
  induction pre as [|p pre IH]; intros vars v r cids blocks H; simpl in H.
  - destruct (putManyStep vars v) as [[[c blk] vars']|err] eqn:Hs; [|discriminate].
    destruct (putManyLoop vars' r) as [[cids' blocks']|err]; [|discriminate].
    injection H as <- <-. exists c, blk, vars'. auto.
  - destruct (putManyStep vars p) as [[[c0 blk0] vars0]|err] eqn:Hs; [|discriminate].
    destruct (putManyLoop vars0 (pre ++ v :: r)%list) as [[cids' blocks']|err] eqn:Hl;
      [|discriminate].
    injection H as <- <-.
    destruct (IH _ _ _ _ _ Hl) as (c & blk & vars' & Hstep & Hc & Hb).
    apply putManyStep_vars in Hs. subst vars0.
    change (p :: pre) with ([p] ++ pre)%list. rewrite carried_app.
    exists c, blk, vars'. auto.
Qed.

End PutManyParams.

(** X25.  [PutMany] keeps the hash parameters from one value to the next:
    a value without a [Cid] method and without a serializer of its own is
    hashed with the parameters of the last value before it that has a [Cid]
    method, and with the default of the store only when there is none. *)
Theorem PutMany_carries_parameters (E : Externals) (B : Type) (b : BatchOpIpldStore B)
        (pre : list Value) (v : Value) (r : list Value) (st st' : B) (cids : list Cid) :
  asCidProvider v = None ->
  asCBORMarshaler v = None ->
  PutMany b (pre ++ v :: r)%list st = ((cids, None), st') ->
  let start :=
    mkPutManyVars (if negb (storeDefaultMultihash (basic b) =? 0)
                   then storeDefaultMultihash (basic b) else DefaultMultihash)
                  (-1) DagCBOR in
  exists n,
    WrapObject (asObj v) (pmMhType (carried start pre)) (pmMhLen (carried start pre)) = Ok n /\
    nth_error cids (List.length pre) = Some (NodeCid n).
Proof.
  intros Hc Hm H start. unfold PutMany in H. fold start in H.
  destruct (putManyLoop start (pre ++ v :: r)%list) as [[cids0 blocks]|err] eqn:Hl;
    [|discriminate].
  destruct (batchPutMany (BatchOps b) blocks st) as [e st2].
  injection H as <- _ _.
  destruct (@putManyLoop_at E pre start v r cids0 blocks Hl)
    as (c & blk & vars' & Hstep & Hcid & _).
  unfold putManyStep in Hstep. rewrite Hc, Hm in Hstep.
  invert_bind Hstep. simpl in Hstep. injection Hstep as <- _ _.
  exists a. auto.
Qed.

Lemma PutMany_carries_parameters_witness :
  exists n,
    @WrapObject Demo.externals (OInt 2) SHA2_256 32 = Ok n /\
    nth_error [Demo.c1; Demo.c2] 1 = Some (NodeCid n).
Proof.
  apply (@PutMany_carries_parameters Demo.externals mockBlocks Demo.store
           [Demo.selfDescribing Demo.c1] (Demo.plain 2) [] newMockBlocks
           (snd (Demo.putMany [mkBlock [x01] Demo.c1; mkBlock [x02] Demo.c2] newMockBlocks))
           [Demo.c1; Demo.c2]);
    vm_compute; reflexivity.
Defined.

(* ------------------------------------------------------------------ *)
(** ** Byte arrays *)

Lemma firstn_exact (A : Type) (l r : list A) :
  firstn (List.length l) (l ++ r)%list = l.
Proof.
  rewrite firstn_app, Nat.sub_diag, firstn_all. simpl. apply app_nil_r.
Qed.

Lemma skipn_exact (A : Type) (l r : list A) :
  skipn (List.length l) (l ++ r)%list = r.
Proof.
  rewrite skipn_app, Nat.sub_diag, skipn_all. reflexivity.
Qed.

Section ByteArrayFacts.
Context {G : CborGen} {E : Externals}.
Variable c : CborByteArray.
Variable rest : bytes.

Hypothesis Hhead : headerReadsBack c rest.

Lemma UnmarshalCBOR_header (d : CborByteArray) :
  ByteArray.UnmarshalCBOR d (ByteArray.RawData c ++ rest)%list =
  ReadFull (arrBytes c ++ rest)%list
           (if Z.of_nat (arrCap d) <? Z.of_nat (List.length (arrBytes c))
            then makeBytes (Z.of_nat (List.length (arrBytes c))) else d).
Proof.
  unfold ByteArray.UnmarshalCBOR, ByteArray.RawData, ByteArray.MarshalCBOR. simpl.
  rewrite <- app_assoc. unfold headerReadsBack in Hhead. rewrite Hhead.
  reflexivity.
Qed.

Lemma UnmarshalCBOR_fits (d : CborByteArray) :
  (arrCap d < List.length (arrBytes c))%nat \/
  List.length (arrBytes d) = List.length (arrBytes c) ->
  exists d',
    ByteArray.UnmarshalCBOR d (ByteArray.RawData c ++ rest)%list = (d', rest, None) /\
    arrBytes d' = arrBytes c.
Proof.
  intros Hd. rewrite UnmarshalCBOR_header. unfold ReadFull.
  assert (Hlen : List.length
                   (arrBytes (if Z.of_nat (arrCap d) <? Z.of_nat (List.length (arrBytes c))
                              then makeBytes (Z.of_nat (List.length (arrBytes c))) else d))
                 = List.length (arrBytes c)).
  { destruct (Z.ltb_spec (Z.of_nat (arrCap d)) (Z.of_nat (List.length (arrBytes c)))) as [Hlt|Hge].
    - unfold makeBytes. simpl. rewrite repeat_length. apply Nat2Z.id.
    - destruct Hd as [Hd|Hd]; [lia|exact Hd]. }
  rewrite Hlen.
  assert (Hle : (List.length (arrBytes c) <=? List.length (arrBytes c ++ rest)%list)%nat = true).
  { apply Nat.leb_le. rewrite length_app. lia. }
  rewrite Hle, firstn_exact, skipn_exact.
  eexists. split; reflexivity.
Qed.

Lemma UnmarshalCBOR_reused (d : CborByteArray) :
  (List.length (arrBytes c) <= arrCap d)%nat ->
  ((List.length (arrBytes d) < List.length (arrBytes c))%nat ->
   ByteArray.UnmarshalCBOR d (ByteArray.RawData c ++ rest)%list =
   (mkCborByteArray (firstn (List.length (arrBytes d)) (arrBytes c)) (arrCap d),
    (skipn (List.length (arrBytes d)) (arrBytes c) ++ rest)%list, None)) /\
  ((List.length (arrBytes c) + List.length rest < List.length (arrBytes d))%nat ->
   exists d',
     ByteArray.UnmarshalCBOR d (ByteArray.RawData c ++ rest)%list =
     (d', [], Some (if (List.length (arrBytes c ++ rest)%list =? 0)%nat
                    then EOF else ErrUnexpectedEOF))).
Proof.
  intros Hcap. rewrite UnmarshalCBOR_header.
  destruct (Z.ltb_spec (Z.of_nat (arrCap d)) (Z.of_nat (List.length (arrBytes c))))
    as [Hlt|_]; [lia|].
  unfold ReadFull. split; intros Hlen.
  - assert (Hle : (List.length (arrBytes d) <=? List.length (arrBytes c ++ rest)%list)%nat
                  = true).
    { apply Nat.leb_le. rewrite length_app. lia. }
    rewrite Hle, firstn_app, skipn_app.
    replace (List.length (arrBytes d) - List.length (arrBytes c))%nat with O by lia.
    simpl. rewrite app_nil_r. reflexivity.
  - assert (Hle : (List.length (arrBytes d) <=? List.length (arrBytes c ++ rest)%list)%nat
                  = false).
    { apply Nat.leb_gt. rewrite length_app. lia. }
    rewrite Hle. eexists. reflexivity.
Qed.

End ByteArrayFacts.

(** X26.  A byte array read back: [UnmarshalCBOR], given the bytes
    [MarshalCBOR] wrote for an array, followed by anything, fills a
    destination that is too small for them, or holds as many bytes already,
    with the bytes of the array, leaves what follows in the reader and
    returns no error.  A fresh destination is of this kind. *)
Theorem CborByteArray_read_back (G : CborGen) (c d : CborByteArray) (rest : bytes) :
  headerReadsBack c rest ->
  (arrCap d < List.length (arrBytes c))%nat \/
  List.length (arrBytes d) = List.length (arrBytes c) ->
  exists d',
    ByteArray.UnmarshalCBOR d (ByteArray.RawData c ++ rest)%list = (d', rest, None) /\
    arrBytes d' = arrBytes c.
Proof.
  intros Hhead Hd. exact (@UnmarshalCBOR_fits G c rest Hhead d Hd).
Qed.

Lemma CborByteArray_read_back_witness :
  exists d',
    @ByteArray.UnmarshalCBOR Demo.cborGen (mkCborByteArray [] 0)
      (@ByteArray.RawData Demo.cborGen (mkCborByteArray [x61; x62; x63] 3) ++ [xff])%list
    = (d', [xff], None) /\
    arrBytes d' = [x61; x62; x63].
Proof.
  apply (@CborByteArray_read_back Demo.cborGen (mkCborByteArray [x61; x62; x63] 3)
           (mkCborByteArray [] 0) [xff]).
  - reflexivity.
  - left. simpl. lia.
Defined.

(** X27.  A destination that is reused: when its capacity suffices for the
    announced length, [UnmarshalCBOR] reads as many bytes as the
    destination holds, not as many as the header announces.  A destination
    holding fewer bytes takes only the first of them, without an error, and
    leaves the others in the reader; a destination holding more bytes than
    the reader has left fails with the end-of-file error of [io.ReadFull]
    and drains the reader. *)
Theorem CborByteArray_reused (G : CborGen) (c d : CborByteArray) (rest : bytes) :
  headerReadsBack c rest ->
  (List.length (arrBytes c) <= arrCap d)%nat ->
  ((List.length (arrBytes d) < List.length (arrBytes c))%nat ->
   ByteArray.UnmarshalCBOR d (ByteArray.RawData c ++ rest)%list =
   (mkCborByteArray (firstn (List.length (arrBytes d)) (arrBytes c)) (arrCap d),
    (skipn (List.length (arrBytes d)) (arrBytes c) ++ rest)%list, None)) /\
  ((List.length (arrBytes c) + List.length rest < List.length (arrBytes d))%nat ->
   exists d',
     ByteArray.UnmarshalCBOR d (ByteArray.RawData c ++ rest)%list =
     (d', [], Some (if (List.length (arrBytes c ++ rest)%list =? 0)%nat
                    then EOF else ErrUnexpectedEOF))).
Proof.
  intros Hhead Hcap. exact (@UnmarshalCBOR_reused G c rest Hhead d Hcap).
Qed.

Lemma CborByteArray_reused_witness :
  @ByteArray.UnmarshalCBOR Demo.cborGen (mkCborByteArray [x00] 4)
    (@ByteArray.RawData Demo.cborGen (mkCborByteArray [x61; x62; x63] 3))
  = (mkCborByteArray [x61] 4, [x62; x63], None) /\
  exists d',
    @ByteArray.UnmarshalCBOR Demo.cborGen (mkCborByteArray [x00; x00; x00; x00] 4)
      (@ByteArray.RawData Demo.cborGen (mkCborByteArray [x61; x62; x63] 3))
    = (d', [], Some ErrUnexpectedEOF).
Proof.
  split.
  - destruct (@CborByteArray_reused Demo.cborGen (mkCborByteArray [x61; x62; x63] 3)
                (mkCborByteArray [x00] 4) []) as [H _];
      [reflexivity | simpl; lia |].
    rewrite app_nil_r in H. apply H. simpl. lia.
  - destruct (@CborByteArray_reused Demo.cborGen (mkCborByteArray [x61; x62; x63] 3)
                (mkCborByteArray [x00; x00; x00; x00] 4) []) as [_ H];
      [reflexivity | simpl; lia |].
    rewrite app_nil_r in H. apply H. simpl. lia.
Defined.

(** X28.  [Put] of a byte array returns the identifier the array gives
    itself with [Cid], and stores the bytes of [RawData] under it: for an
    array whose bytes the prefix of [Cid] hashes to an identifier with that
    same prefix, on a block store that accepts the block. *)
Theorem Put_CborByteArray (G : CborGen) (E : Externals) (B : Type) (s : BasicIpldStore B)
        (c : CborByteArray) (cc : Cid) (st st' : B) :
  prefixSum (mkPrefix 1 DagCBOR SHA2_256 32) (ByteArray.RawData c) = Ok cc ->
  cidPrefix cc = mkPrefix 1 DagCBOR SHA2_256 32 ->
  blocksPut (Blocks s) (mkBlock (ByteArray.RawData c) cc) st = (None, st') ->
  ByteArray.Cid c = cc /\
  Put s (ByteArray.asValue c) st = ((ByteArray.Cid c, None), st').
Proof.
  intros Hsum Hpref Hput.
  assert (Hcid : ByteArray.Cid c = cc).
  { unfold ByteArray.Cid. rewrite Hsum. reflexivity. }
  split; [exact Hcid|].
  unfold Put, ByteArray.asValue. simpl.
  rewrite Hcid, Hpref. simpl. rewrite Hsum. unfold NewBlockWithCid.
  rewrite Hput. reflexivity.
Qed.

Lemma Put_CborByteArray_witness :
  @ByteArray.Cid Demo.cborGen Demo.externals (mkCborByteArray [x61] 1)
  = CidV1 DagCBOR [x41; x61] /\
  @Put Demo.externals mockBlocks Demo.basicStore
       (@ByteArray.asValue Demo.cborGen Demo.externals (mkCborByteArray [x61] 1))
       newMockBlocks
  = ((@ByteArray.Cid Demo.cborGen Demo.externals (mkCborByteArray [x61] 1), None),
     [(CidV1 DagCBOR [x41; x61], mkBlock [x41; x61] (CidV1 DagCBOR [x41; x61]))]).
Proof.
  apply (@Put_CborByteArray Demo.cborGen Demo.externals mockBlocks Demo.basicStore
           (mkCborByteArray [x61] 1) (CidV1 DagCBOR [x41; x61]) newMockBlocks);
    reflexivity.
Defined.

(* ------------------------------------------------------------------ *)
(** ** Big integers *)

Lemma byte_of_N_value (m : N) :
  (m < 256)%N -> Byte.to_N (byte_of_ascii (ascii_of_N m)) = m.
Proof.
  intros H. apply Byte.to_of_N.
  rewrite byte_of_ascii_via_N, (N_ascii_embedding _ H). reflexivity.
Qed.

Lemma bigEndian_value (fuel : nat) :
  forall (n : N) (acc : bytes),
    (n < 2 ^ N.of_nat fuel)%N ->
    fold_left (fun v b => (v * 256 + Byte.to_N b)%N) (bigEndian fuel n acc) 0%N
    = fold_left (fun v b => (v * 256 + Byte.to_N b)%N) acc n.
Proof.
  induction fuel as [|fuel IH]; intros n acc Hn.
  - simpl in Hn. assert (n = 0%N) by lia. subst n. reflexivity.
  - simpl bigEndian. destruct (N.eqb_spec n 0) as [->|Hnz]; [reflexivity|].
    rewrite IH.
    + simpl fold_left. rewrite byte_of_N_value by (apply N.mod_lt; discriminate).
      f_equal. rewrite N.mul_comm. symmetry. apply N.div_mod. discriminate.
    + rewrite Nat2N.inj_succ, N.pow_succ_r' in Hn.
      apply N.Div0.div_lt_upper_bound. lia.
Qed.

(** X29.  The transforms of [bigIntAtlasEntry] keep the magnitude and drop
    the sign: an integer marshalled and unmarshalled comes back as its
    absolute value. *)
Theorem bigInt_roundtrip_magnitude (i : Z) :
  (x <- bigIntMarshal i ;; bigIntUnmarshal x) = Ok (Z.abs i).
Proof.
  unfold bigIntMarshal, bigIntUnmarshal, bigSetBytes, bigBytes. simpl. f_equal.
  rewrite bigEndian_value.
  - simpl. apply N2Z.inj_abs_N.
  - rewrite N2Nat.id. apply N.size_gt.
Qed.
